(** * logDelibery: the analytics dashboard, its login form and its session storage

    A shallow embedding of the TypeScript sources
      - [services/api.ts]   (authService, dataService, the request interceptor),
      - [components/Login.tsx]   (handleSubmit),
      - [components/Dashboard.tsx]   (fetchData, handleSimulateTraffic, stats,
        latencyData, methodData and the "Recent Requests" rows),
      - [App.tsx]   (the mount effect, handleLoginSuccess, handleLogout),
    followed by the properties the specification states about them.

    Conventions of the embedding.
      - A JavaScript [number] is the rational ([Q]) a finite double stands
        for.  The arithmetic of [stats] rounds as binary64 does, to the
        nearest double and on a tie to the even one ([JS.binary64]); the
        comparisons, the difference in the comparator of the sort, whose sign
        alone is used, and the counters of [methodData] are exact in binary64
        and are written without a rounding.  NaN and the infinities, on the
        input side and as the result of a sum that leaves the range of
        binary64, and the exponent notation [toFixed] switches to from 10^21
        on are outside the model.  Where a builtin can answer NaN the result
        is an [option].
      - A field that may be absent from a JSON record is an [option]; [None]
        is JavaScript's [undefined].
      - A plain object is the list of its own properties in the order
        [OrdinaryOwnPropertyKeys] enumerates them.
      - [localStorage] is a finite map from keys to strings. *)

From Stdlib Require Import QArith Qpower Qround Qabs Qminmax ZArith List String Ascii.
From Stdlib Require Import Sorted Permutation Lia Lqa.
From stdpp Require Import gmap strings.
Import ListNotations.

(** ** The parts of the ECMAScript runtime the components call *)

Module JS.

(** [x || 0] on a numeric field: [undefined] and [0] both give [0]. *)
Definition or_zero (x : option Q) : Q :=
  match x with
  | Some q => q
  | None => 0%Q
  end.

(** ToBoolean on a numeric field and on a string field. *)
Definition truthy_number (x : option Q) : bool :=
  match x with
  | Some q => negb (Qeq_bool q 0)
  | None => false
  end.

Definition truthy_string (x : option string) : bool :=
  match x with
  | Some s => negb (String.eqb s "")
  | None => false
  end.

Definition Qltb (x y : Q) : bool := negb (Qle_bool y x).

(** *** Arithmetic on numbers

    [+], [*] and [/] answer the number of the format that is nearest to the
    exact result, the one with the even significand on a tie (ECMA-262,
    6.1.6.1, and IEEE 754 roundTiesToEven).  A format has [precision] bits
    of significand and the least exponent [emin]: its numbers are the
    [m * 2 ^ e] with [|m| <= 2 ^ precision] and [emin <= e].  binary64 has
    53 bits and the least exponent -1074, that of the subnormal numbers. *)

(** The integer nearest to [y], the even one on a tie. *)
Definition nearest_even (y : Q) : Z :=
  let f := Qfloor y in
  match (y - inject_Z f ?= 1 # 2)%Q with
  | Lt => f
  | Gt => (f + 1)%Z
  | Eq => if Z.even f then f else (f + 1)%Z
  end.

(** The exponent of the last bit of [x]: that of its binade, and [emin]
    below the normal numbers. *)
Definition exponent (precision emin : Z) (x : Q) : Z :=
  Z.max emin (Z.log2 (Qfloor (Qabs x * 2 ^ (- emin))) + emin - (precision - 1)).

Definition round (precision emin : Z) (x : Q) : Q :=
  let e := exponent precision emin x in
  Qred (inject_Z (nearest_even (x / 2 ^ e)) * 2 ^ e).

Definition binary64 : Q -> Q := round 53 (-1074).

Definition representable (precision emin : Z) (x : Q) : Prop :=
  exists m e : Z,
    (emin <= e)%Z /\ (Z.abs m <= 2 ^ precision)%Z /\ (x == inject_Z m * 2 ^ e)%Q.

Definition Number_add (x y : Q) : Q := binary64 (x + y).

Definition Number_multiply (x y : Q) : Q := binary64 (x * y).

(** [x / y] for a [y] that is not 0. *)
Definition Number_divide (x y : Q) : Q := binary64 (x / y).

(** The length of an array is below 2^32 (ECMA-262, 10.4.2). *)
Definition Array_length_limit : Z := 2 ^ 32.

(** *** Decimal digits *)

Definition digit (d : Z) : ascii := ascii_of_nat (48 + Z.to_nat d).

Definition is_digit (c : ascii) : bool :=
  (48 <=? nat_of_ascii c)%nat && (nat_of_ascii c <=? 57)%nat.

Definition digit_value (c : ascii) : Z := Z.of_nat (nat_of_ascii c) - 48.

(** The digits of [n], least significant first. *)
Fixpoint digits_le (fuel : nat) (n : Z) : list Z :=
  match fuel with
  | O => []
  | S k => if (n <? 10)%Z then [n] else (n mod 10)%Z :: digits_le k (n / 10)%Z
  end.

(** The number that digits written least significant first stand for. *)
Fixpoint digits_le_value (ds : list Z) : Z :=
  match ds with
  | [] => 0%Z
  | d :: ds' => (d + 10 * digits_le_value ds')%Z
  end.

(** The decimal representation of a non-negative integer, as
    Number::toString writes it (["0"] for zero, no leading zero otherwise). *)
Definition decimal (n : Z) : list ascii :=
  map digit (rev (digits_le (S (Z.to_nat (Z.log2 n))) n)).

(** The value of a run of digits, most significant first. *)
Definition digits_value (ds : list ascii) : Z :=
  fold_left (fun acc c => (acc * 10 + digit_value c)%Z) ds 0%Z.

(** *** Number.prototype.toFixed

    ECMA-262, 21.1.3.3, for a finite [x] below 10^21 in magnitude: the sign
    is split off, [n] is the integer nearest to [x * 10^f] (the larger one on
    a tie), its digits are padded on the left to [f + 1] characters and the
    point is put before the last [f] of them. *)
Definition toFixed (fractionDigits : nat) (x : Q) : string :=
  let f := fractionDigits in
  let s := if Qltb x 0 then "-" else "" in
  let x := Qabs x in
  let n := Qfloor (x * inject_Z (10 ^ Z.of_nat f) + (1 # 2)) in
  let m := decimal n in
  let m :=
    if (f =? 0)%nat then m
    else
      let k := length m in
      let m := if (k <=? f)%nat then repeat "0"%char (f + 1 - k) ++ m else m in
      let k := length m in
      firstn (k - f) m ++ "."%char :: skipn (k - f) m in
  s +:+ string_of_list_ascii m.

(** *** parseFloat

    ECMA-262, 19.2.4: leading white space is dropped and the longest prefix
    that is a StrDecimalLiteral is read; there is none, the answer is NaN
    ([None]).  The literal [Infinity] is not a rational and is answered
    [None] as well. *)
Definition is_space (c : ascii) : bool :=
  let n := nat_of_ascii c in
  (n =? 32)%nat || ((9 <=? n)%nat && (n <=? 13)%nat).

Fixpoint trim_start (cs : list ascii) : list ascii :=
  match cs with
  | c :: cs' => if is_space c then trim_start cs' else cs
  | [] => []
  end.

Fixpoint span_digits (cs : list ascii) : list ascii * list ascii :=
  match cs with
  | c :: cs' =>
      if is_digit c then let (ds, rest) := span_digits cs' in (c :: ds, rest)
      else ([], cs)
  | [] => ([], [])
  end.

Definition read_sign (cs : list ascii) : bool * list ascii :=
  match cs with
  | c :: cs' =>
      if Ascii.eqb c "-" then (true, cs')
      else if Ascii.eqb c "+" then (false, cs')
      else (false, cs)
  | [] => (false, [])
  end.

(** The ExponentPart, when one follows: [e] or [E], a sign, digits. *)
Definition read_exponent (cs : list ascii) : Z :=
  match cs with
  | c :: cs' =>
      if Ascii.eqb c "e" || Ascii.eqb c "E" then
        let (neg, cs'') := read_sign cs' in
        let (ds, _) := span_digits cs'' in
        match ds with
        | [] => 0%Z
        | _ => if neg then (- digits_value ds)%Z else digits_value ds
        end
      else 0%Z
  | [] => 0%Z
  end.

Definition parseFloat (s : string) : option Q :=
  let (neg, cs) := read_sign (trim_start (list_ascii_of_string s)) in
  let (ip, rest) := span_digits cs in
  let (fp, rest) :=
    match rest with
    | c :: rest' => if Ascii.eqb c "." then span_digits rest' else ([], rest)
    | [] => ([], [])
    end in
  match ip, fp with
  | [], [] => None
  | _, _ =>
      let mant :=
        (inject_Z (digits_value ip)
         + inject_Z (digits_value fp) / inject_Z (10 ^ Z.of_nat (length fp)))%Q in
      let v := (mant * Qpower 10 (read_exponent rest))%Q in
      Some (if neg then (- v)%Q else v)
  end.

(** *** Math.max

    The maximum of an argument list is found from -Infinity on; [None] is
    that -Infinity (the answer on no argument at all). *)
Definition Math_max (xs : list Q) : option Q :=
  fold_left
    (fun acc x =>
       match acc with
       | None => Some x
       | Some a => Some (if Qltb a x then x else a)
       end)
    xs None.

(** *** Array.prototype *)

(** [a.slice(start)]: a negative [start] counts from the end (and stops at
    the first element), a positive one stops at the length. *)
Definition Array_slice {A} (start : Z) (a : list A) : list A :=
  let len := Z.of_nat (length a) in
  let k := if (start <? 0)%Z then Z.max (len + start) 0 else Z.min start len in
  skipn (Z.to_nat k) a.

Definition Array_reverse {A} (a : list A) : list A := rev a.

(** [a.map((x, i) => ...)]: the callback gets the element and its index. *)
Fixpoint Array_map_from {A B} (i : nat) (f : A -> nat -> B) (a : list A) : list B :=
  match a with
  | [] => []
  | x :: a' => f x i :: Array_map_from (S i) f a'
  end.

Definition Array_map {A B} (f : A -> nat -> B) (a : list A) : list B :=
  Array_map_from 0 f a.

(** [a.sort(comparefn)].  The sort is stable (ECMA-262 since 2019) and, for
    a comparator that orders consistently, every stable sort gives the same
    array: [x] goes before [y] when [comparefn x y < 0], after it when
    [comparefn x y > 0], and the two keep their order otherwise.  It is
    written here as the insertion of each element in front of the sorted
    rest of the array. *)
Fixpoint sort_insert {A} (comparefn : A -> A -> Q) (x : A) (sorted : list A) : list A :=
  match sorted with
  | [] => [x]
  | y :: rest =>
      if Qltb 0 (comparefn x y) then y :: sort_insert comparefn x rest
      else x :: y :: rest
  end.

Definition Array_sort {A} (comparefn : A -> A -> Q) (a : list A) : list A :=
  fold_right (sort_insert comparefn) [] a.

(** *** Plain objects

    [counts] in [methodData] is an object literal used as a dictionary, so
    what a property read finds and where a new property lands are the
    object model's: a read falls back on [Object.prototype], array-index
    keys are enumerated first, in ascending numeric order, and the other
    keys follow in the order of their creation. *)
Inductive value :=
  | VNumber (q : Q)
  | VString (s : string)
  | VObject (primitive : string).   (* an object or a function, with what ToPrimitive makes of it *)

(** An array index is the canonical decimal string of an integer from 0 to
    2^32 - 2. *)
Definition array_index (k : string) : option Z :=
  let cs := list_ascii_of_string k in
  let n := digits_value cs in
  if forallb is_digit cs
     && String.eqb k (string_of_list_ascii (decimal n))
     && (n <? 2 ^ 32 - 1)%Z
  then Some n
  else None.

Fixpoint own_get {V} (k : string) (o : list (string * V)) : option V :=
  match o with
  | [] => None
  | (k', v) :: o' => if String.eqb k k' then Some v else own_get k o'
  end.

Fixpoint own_update {V} (k : string) (v : V) (o : list (string * V)) : list (string * V) :=
  match o with
  | [] => []
  | (k', v') :: o' =>
      if String.eqb k k' then (k', v) :: o' else (k', v') :: own_update k v o'
  end.

(** A new array-index key takes its place among the indices. *)
Fixpoint own_insert_index {V} (n : Z) (k : string) (v : V) (o : list (string * V))
  : list (string * V) :=
  match o with
  | [] => [(k, v)]
  | (k', v') :: o' =>
      match array_index k' with
      | Some n' =>
          if (n' <? n)%Z then (k', v') :: own_insert_index n k v o' else (k, v) :: o
      | None => (k, v) :: o
      end
  end.

Definition own_define {V} (k : string) (v : V) (o : list (string * V)) : list (string * V) :=
  match own_get k o with
  | Some _ => own_update k v o
  | None =>
      match array_index k with
      | Some n => own_insert_index n k v o
      | None => o ++ [(k, v)]
      end
  end.

(** The properties of [Object.prototype] (ECMA-262, 20.1.3 and B.2.2): all
    hold builtin functions, except the accessor [__proto__]. *)
Definition Object_prototype_functions : list string :=
  [ "constructor"; "hasOwnProperty"; "isPrototypeOf"; "propertyIsEnumerable";
    "toLocaleString"; "toString"; "valueOf";
    "__defineGetter__"; "__defineSetter__"; "__lookupGetter__"; "__lookupSetter__" ].

Definition native_function (k : string) : value :=
  let name := if String.eqb k "constructor" then "Object" else k in
  VObject ("function " +:+ name +:+ "() { [native code] }").

Definition is_array_index (k : string) : bool :=
  match array_index k with
  | Some _ => true
  | None => false
  end.

Definition on_Object_prototype (k : string) : bool :=
  String.eqb k "__proto__" || existsb (String.eqb k) Object_prototype_functions.

(** [o[k]] on an object literal. *)
Definition Get (o : list (string * value)) (k : string) : option value :=
  match own_get k o with
  | Some v => Some v
  | None =>
      if String.eqb k "__proto__" then Some (VObject "[object Object]")
      else if existsb (String.eqb k) Object_prototype_functions
           then Some (native_function k)
           else None
  end.

(** [o[k] = v], for a [v] that is a number or a string: the setter of
    [__proto__] ignores it, any other key becomes or stays an own property. *)
Definition Set_ (o : list (string * value)) (k : string) (v : value)
  : list (string * value) :=
  match own_get k o with
  | None => if String.eqb k "__proto__" then o else own_define k v o
  | Some _ => own_define k v o
  end.

(** [v || 0] and [v + 1] on what a property read answers. *)
Definition value_or_zero (v : option value) : value :=
  match v with
  | None => VNumber 0
  | Some (VNumber q) => if Qeq_bool q 0 then VNumber 0 else VNumber q
  | Some (VString s) => if String.eqb s "" then VNumber 0 else VString s
  | Some (VObject p) => VObject p
  end.

Definition plus_one (v : value) : value :=
  match v with
  | VNumber q => VNumber (q + 1)
  | VString s => VString (s +:+ "1")
  | VObject p => VString (p +:+ "1")
  end.

Definition Object_values {V} (o : list (string * V)) : list V := map snd o.

Definition Object_entries {V} (o : list (string * V)) : list (string * V) := o.

End JS.

(** ** types.ts *)

Module Types.

Record MetricData := {
  method : option string;
  endpoint : option string;
  responseTimeMs : option Q;
  serverProcessingMs : option Q;
  requestSizeBytes : option Q;
  responseSizeBytes : option Q;
  statusCode : option Q;
  userAgent : option string;
  ip : option string;
  timestampMs : option Q;
  timestampISO : option string;
  minuteBucket : option string;
  hourBucket : option string;
  dayBucket : option string
}.

(** "Firebase returns an object of objects". *)
Definition MetricsResponse := list (string * MetricData).

Record AuthResponse := {
  ok : bool;
  token : option string;
  clientId : option string;
  email : option string;
  hasCredentials : bool;
  erro : option string;
  code : option string
}.

End Types.

(** ** components/Dashboard.tsx: the derived views *)

Module Dashboard.
Import JS Types.

Record DerivedStats := {
  avgLatency : string;
  totalRequests : nat;
  errorRate : string;
  peakLatency : string
}.

(** The entries of the two charts: [{name, ms, time}] and [{name, value}]. *)
Module LatencyPoint.
Record t := { name : nat; ms : option Q; time : string }.
End LatencyPoint.

Module MethodCount.
Record t := { name : string; value : JS.value }.
End MethodCount.

(** [fetchData], lines 31-32: "Convert Object of Objects to Array and sort
    safely". *)
Definition metricsArray (data : MetricsResponse) : list MetricData :=
  Array_sort
    (fun a b => (or_zero (timestampMs a) - or_zero (timestampMs b))%Q)
    (Object_values data).

(** [m.statusCode >= 400]: false on a record without a status code. *)
Definition is_error (m : MetricData) : bool :=
  match statusCode m with
  | Some c => Qle_bool 400 c
  | None => false
  end.

Definition stats (metrics : list MetricData) : DerivedStats :=
  if (length metrics =? 0)%nat then
    {| avgLatency := "0.00"; totalRequests := 0; errorRate := "0.0"; peakLatency := "0.00" |}
  else
    let totalRequests := length metrics in
    let totalLatency :=
      fold_left (fun acc curr => Number_add acc (or_zero (responseTimeMs curr))) metrics 0%Q in
    let avgLatency :=
      toFixed 2 (Number_divide totalLatency (inject_Z (Z.of_nat totalRequests))) in
    let errors := length (List.filter is_error metrics) in
    let errorRate :=
      toFixed 1
        (Number_multiply
           (Number_divide (inject_Z (Z.of_nat errors)) (inject_Z (Z.of_nat totalRequests)))
           100) in
    let latencies := map (fun m => or_zero (responseTimeMs m)) metrics in
    let peakLatency :=
      if (0 <? length latencies)%nat then
        match Math_max latencies with
        | Some peak => toFixed 2 peak
        | None => "-Infinity"
        end
      else "0.00" in
    {| avgLatency := avgLatency; totalRequests := totalRequests;
       errorRate := errorRate; peakLatency := peakLatency |}.

Section Views.

(** [new Date(t).toLocaleTimeString([], {hour: '2-digit', minute: '2-digit',
    second: '2-digit'})]: the host's clock format, in its locale and time
    zone. *)
Variable toLocaleTimeString : Q -> string.

Definition latencyData (metrics : list MetricData) : list LatencyPoint.t :=
  Array_map
    (fun m i =>
       {| LatencyPoint.name := i;
          LatencyPoint.ms := parseFloat (toFixed 2 (or_zero (responseTimeMs m)));
          LatencyPoint.time :=
            if truthy_number (timestampMs m)
            then toLocaleTimeString (or_zero (timestampMs m))
            else "" |})
    (Array_slice (-30) metrics).

End Views.

Definition method_label (m : MetricData) : string :=
  if truthy_string (method m) then default "" (method m) else "UNKNOWN".

Definition methodData (metrics : list MetricData) : list MethodCount.t :=
  let counts :=
    fold_left
      (fun counts m =>
         let method := method_label m in
         Set_ counts method (plus_one (value_or_zero (Get counts method))))
      metrics [] in
  map (fun '(name, value) => {| MethodCount.name := name; MethodCount.value := value |})
    (Object_entries counts).

(** Line 282, the rows of "Recent Requests": [metrics.slice(-10).reverse()]. *)
Definition recentLog (metrics : list MetricData) : list MetricData :=
  Array_reverse (Array_slice (-10) metrics).

(** Line 300: the row "No metrics found" is there when
    [metrics.length === 0]. *)
Definition no_metrics_row (metrics : list MetricData) : bool :=
  (length metrics =? 0)%nat.

(** Line 290, the colour of a row's latency:
    [(m.responseTimeMs || 0) > 500 ? 'text-orange-400' : 'text-emerald-400']. *)
Definition slow_row (m : MetricData) : bool :=
  Qltb 500 (or_zero (responseTimeMs m)).

(** Lines 179 and 191, the trends of the cards "Avg Latency" and "Error
    Rate": [parseFloat(stats.avgLatency) > 500 ? 'high' : 'good'] and
    [parseFloat(stats.errorRate) > 5 ? 'bad' : 'good'].  A comparison with
    NaN is false. *)
Inductive Trend := good | bad | high.

Definition greater (x : option Q) (y : Q) : bool :=
  match x with
  | Some q => Qltb y q
  | None => false
  end.

Definition avg_trend (s : DerivedStats) : Trend :=
  if greater (parseFloat (avgLatency s)) 500 then high else good.

Definition error_trend (s : DerivedStats) : Trend :=
  if greater (parseFloat (errorRate s)) 5 then bad else good.

(** [StatCard], lines 341-343: the line under the figure. *)
Definition trend_text (trend : Trend) : string :=
  match trend with
  | bad => "Attention needed"
  | high => "High Latency"
  | good => "Healthy"
  end.

(** [StatusBadge], lines 347-352: the colour of a status code.  On a record
    without a status code every comparison is false. *)
Inductive BadgeColor := slate | emerald | blue | orange | red.

Definition StatusBadge (code : option Q) : BadgeColor :=
  let at_least (n : Q) := match code with Some c => Qle_bool n c | None => false end in
  let below (n : Q) := match code with Some c => Qltb c n | None => false end in
  if at_least 200%Q && below 300%Q then emerald
  else if at_least 300%Q && below 400%Q then blue
  else if at_least 400%Q && below 500%Q then orange
  else if at_least 500%Q then red
  else slate.

(** Line 19 and line 254, the colour of a bar:
    [COLORS[index % COLORS.length]]; [None] is [undefined]. *)
Definition COLORS : list string := ["#06b6d4"; "#3b82f6"; "#8b5cf6"; "#ec4899"].

Definition cell_fill (index : nat) : option string :=
  nth_error COLORS (index mod length COLORS).

(** The number a chart entry holds, when it holds one. *)
Definition count_of (e : MethodCount.t) : option Q :=
  match MethodCount.value e with
  | VNumber q => Some q
  | _ => None
  end.

End Dashboard.

(** ** The operations as the specification words them *)

Module Spec.
Import JS Types Dashboard.

Definition latency (m : MetricData) : Q := or_zero (responseTimeMs m).

Definition timestamp (m : MetricData) : Q := or_zero (timestampMs m).

Definition sum (xs : list Q) : Q := fold_right Qplus 0%Q xs.

Definition mean (xs : list Q) : Q := (sum xs / inject_Z (Z.of_nat (length xs)))%Q.

Fixpoint maximum (xs : list Q) : Q :=
  match xs with
  | [] => 0%Q
  | [x] => x
  | x :: xs' => Qmax x (maximum xs')
  end.

(** [p] is the largest element of [xs]. *)
Definition is_maximum (p : Q) (xs : list Q) : Prop :=
  In p xs /\ forall x, In x xs -> (x <= p)%Q.

Fixpoint count {A} (p : A -> bool) (xs : list A) : nat :=
  match xs with
  | [] => 0
  | x :: xs' => if p x then S (count p xs') else count p xs'
  end.

(** A record "with [statusCode >= 400]". *)
Definition error_status (m : MetricData) : bool :=
  match statusCode m with
  | Some c => Qle_bool 400 c
  | None => false
  end.

Definition computeStats (sequence : list MetricData) : DerivedStats :=
  match sequence with
  | [] =>
      {| avgLatency := "0.00"; totalRequests := 0; errorRate := "0.0"; peakLatency := "0.00" |}
  | _ =>
      let total := inject_Z (Z.of_nat (length sequence)) in
      {| totalRequests := length sequence;
         avgLatency := toFixed 2 (mean (map latency sequence));
         errorRate :=
           toFixed 1 (inject_Z (Z.of_nat (count error_status sequence)) / total * 100);
         peakLatency := toFixed 2 (maximum (map latency sequence)) |}
  end.

(** The same figures in the arithmetic of binary64.  The sum is taken from
    the left, starting from 0, and every addition is rounded; so are the
    division of the mean and the division and the multiplication of the
    percentage. *)
Fixpoint float_sum_from (acc : Q) (xs : list Q) : Q :=
  match xs with
  | [] => acc
  | x :: xs' => float_sum_from (binary64 (acc + x)) xs'
  end.

Definition float_sum (xs : list Q) : Q := float_sum_from 0 xs.

Definition float_mean (xs : list Q) : Q :=
  binary64 (float_sum xs / inject_Z (Z.of_nat (length xs))).

Definition float_percentage (part total : nat) : Q :=
  binary64 (binary64 (inject_Z (Z.of_nat part) / inject_Z (Z.of_nat total)) * 100).

Definition computeStats_binary64 (sequence : list MetricData) : DerivedStats :=
  match sequence with
  | [] =>
      {| avgLatency := "0.00"; totalRequests := 0; errorRate := "0.0"; peakLatency := "0.00" |}
  | _ =>
      {| totalRequests := length sequence;
         avgLatency := toFixed 2 (float_mean (map latency sequence));
         errorRate :=
           toFixed 1 (float_percentage (count error_status sequence) (length sequence));
         peakLatency := toFixed 2 (maximum (map latency sequence)) |}
  end.

(** No operation of the mean, and none of the percentage, has to round. *)
Fixpoint exact_sum_from (acc : Q) (xs : list Q) : Prop :=
  match xs with
  | [] => True
  | x :: xs' => (binary64 (acc + x) == acc + x)%Q /\ exact_sum_from (acc + x) xs'
  end.

Definition exact_mean (xs : list Q) : Prop :=
  exact_sum_from 0 xs /\ (binary64 (mean xs) == mean xs)%Q.

Definition exact_percentage (part total : nat) : Prop :=
  let share := (inject_Z (Z.of_nat part) / inject_Z (Z.of_nat total))%Q in
  (binary64 share == share)%Q /\ (binary64 (share * 100) == share * 100)%Q.

(** Ascending by time stamp, a missing one read as 0. *)
Definition ascending (a b : MetricData) : Prop := (timestamp a <= timestamp b)%Q.

(** The last [n] elements of a sequence, in their order. *)
Definition last_n {A} (n : nat) (xs : list A) : list A := skipn (length xs - n) xs.

(** [x] rounded to [f] decimals: the nearest multiple of 10^-f, the one
    farther from zero on a tie. *)
Definition round_to (f : nat) (x : Q) : Q :=
  let n := Qfloor (Qabs x * inject_Z (10 ^ Z.of_nat f) + (1 # 2)) in
  let r := (inject_Z n / inject_Z (10 ^ Z.of_nat f))%Q in
  if Qltb x 0 then (- r)%Q else r.

(** The methods of a sequence in the order of their first occurrence. *)
Fixpoint first_occurrences (seen : list string) (xs : list string) : list string :=
  match xs with
  | [] => []
  | x :: xs' =>
      if existsb (String.eqb x) seen then first_occurrences seen xs'
      else x :: first_occurrences (x :: seen) xs'
  end.

(** The number of records under a label, as a chart entry. *)
Definition occurrences (k : string) (labels : list string) : nat :=
  count (String.eqb k) labels.

Definition method_count (labels : list string) (k : string) : MethodCount.t :=
  {| MethodCount.name := k;
     MethodCount.value := VNumber (inject_Z (Z.of_nat (occurrences k labels))) |}.

(** "Records with absent method are bucketed under a sentinel UNKNOWN
    label; output order is insertion order of first occurrence." *)
Definition methodFrequency (sequence : list MetricData) : list MethodCount.t :=
  let labels := map (fun m => default "UNKNOWN" (method m)) sequence in
  map (method_count labels) (first_occurrences [] labels).

(** Two array-index keys in the order of their numbers. *)
Definition index_before (a b : string) : Prop :=
  match array_index a, array_index b with
  | Some i, Some j => (i < j)%Z
  | _, _ => False
  end.

(** What [counts] holds once the records under [labels] are counted: the
    array-index labels first, in the order of their numbers, then the other
    labels in the order of their first occurrence, every label different
    from the others and with the number of its records. *)
Definition tally (labels : list string) (counts : list (string * JS.value)) : Prop :=
  exists indices others,
    counts = indices ++ others
    /\ StronglySorted index_before (map fst indices)
    /\ (forall k, In k (map fst indices) <-> In k labels /\ is_array_index k = true)
    /\ map fst others
       = first_occurrences [] (List.filter (fun k => negb (is_array_index k)) labels)
    /\ List.NoDup (map fst counts)
    /\ Forall (fun kv => snd kv = VNumber (inject_Z (Z.of_nat (occurrences (fst kv) labels))))
         counts.

End Spec.

(** ** services/api.ts *)

Module Api.
Import JS Types.

Record Request := {
  verb : string;
  url : string;
  authorization : option string;
  payload : list (string * string)
}.

(** What a handler does to the world outside its component. *)
Inductive Event :=
  | Sent (r : Request)
  | SetItem (k v : string)
  | RemoveItem (k : string).

Record World := {
  localStorage : gmap string string;
  trace : list Event
}.

Definition Eff (A : Type) : Type := World -> A * World.

Definition ret {A} (a : A) : Eff A := fun w => (a, w).

Definition bind {A B} (c : Eff A) (k : A -> Eff B) : Eff B :=
  fun w => let (a, w') := c w in k a w'.

Notation "x <- c ;; k" := (bind c (fun x => k))
  (at level 100, c at next level, right associativity).
Notation "c ;;; k" := (bind c (fun _ => k))
  (at level 100, right associativity).

Definition emit (e : Event) : Eff unit :=
  fun w => (tt, {| localStorage := localStorage w; trace := trace w ++ [e] |}).

(** The events a handler added to the trace of the world. *)
Definition events_since (before after : World) : list Event :=
  skipn (length (trace before)) (trace after).

Definition getItem (k : string) : Eff (option string) :=
  fun w => (localStorage w !! k, w).

Definition setItem (k v : string) : Eff unit :=
  fun w => (tt, {| localStorage := <[k := v]> (localStorage w);
                   trace := trace w ++ [SetItem k v] |}).

Definition removeItem (k : string) : Eff unit :=
  fun w => (tt, {| localStorage := delete k (localStorage w);
                   trace := trace w ++ [RemoveItem k] |}).

(** [setItem] stores the string of its argument. *)
Definition ToString (v : option string) : string := default "undefined" v.

(** A request goes through the interceptor ("Request interceptor to add
    token") and out. *)
Definition send (verb url : string) (payload : list (string * string)) : Eff unit :=
  token <- getItem "delibery_token" ;;
  emit (Sent {| verb := verb; url := url;
                authorization :=
                  if truthy_string token then Some ("Bearer " +:+ default "" token)
                  else None;
                payload := payload |}).

(** What axios rejects with: [err.response?.data?.erro] is read off it. *)
Record ErrorBody := { body_erro : option string }.
Record ErrorResponse := { status : Z; data : option ErrorBody }.
Record AxiosError := { response : option ErrorResponse }.

(** How an awaited request ends. *)
Inductive Outcome (A : Type) :=
  | Fulfilled (a : A)
  | Rejected (err : AxiosError).
Arguments Fulfilled {A} a.
Arguments Rejected {A} err.

Module authService.

(** [answer] is what the server, or the network, makes of the request. *)
Definition login (answer : Outcome AuthResponse) (email password : string)
  : Eff (Outcome AuthResponse) :=
  send "POST" "/login" [("email", email); ("password", password)] ;;;
  ret answer.

Definition logout : Eff unit :=
  removeItem "delibery_token" ;;;
  removeItem "delibery_user_email".

End authService.

Module dataService.

Definition getMetrics (answer : Outcome MetricsResponse) : Eff (Outcome MetricsResponse) :=
  send "GET" "/metricas" [] ;;;
  ret answer.

(** "Used to generate traffic for the test environment". *)
Definition simulateGetOrders : Eff unit := send "GET" "/pedidos" [].

End dataService.

End Api.

(** ** components/Dashboard.tsx: the state of the component and [fetchData] *)

Module DashboardData.
Import JS Types Api Dashboard.

Record State := {
  metrics : list MetricData;
  loading : bool;
  lastUpdated : option Q
}.

Definition initial : State :=
  {| metrics := []; loading := true; lastUpdated := None |}.

(** [now] is what [new Date()] reads when the answer is there.  A failed
    fetch is logged and leaves the metrics as they were. *)
Definition fetchData (now : Q) (answer : Outcome MetricsResponse) (s : State) : Eff State :=
  let s := {| metrics := metrics s; loading := true; lastUpdated := lastUpdated s |} in
  result <- dataService.getMetrics answer ;;
  let s :=
    match result with
    | Fulfilled data =>
        {| metrics := metricsArray data; loading := loading s; lastUpdated := Some now |}
    | Rejected _ => s
    end in
  ret {| metrics := metrics s; loading := false; lastUpdated := lastUpdated s |}.

(** The fetches of a dashboard, one after the other: on mount, on
    "Refresh", after a test of the traffic. *)
Fixpoint fetches (answers : list (Q * Outcome MetricsResponse)) (s : State) : Eff State :=
  match answers with
  | [] => ret s
  | (now, answer) :: answers' => s' <- fetchData now answer s ;; fetches answers' s'
  end.

(** The answer of the last fetch that succeeded. *)
Fixpoint last_fulfilled (answers : list (Q * Outcome MetricsResponse))
  : option MetricsResponse :=
  match answers with
  | [] => None
  | (_, answer) :: answers' =>
      match last_fulfilled answers', answer with
      | Some data, _ => Some data
      | None, Fulfilled data => Some data
      | None, Rejected _ => None
      end
  end.

End DashboardData.

(** ** components/Login.tsx *)

Module Login.
Import JS Types Api.

Record State := {
  email : string;
  password : string;
  loading : bool;
  error : option string
}.

Definition setLoading (b : bool) (s : State) : State :=
  {| email := email s; password := password s; loading := b; error := error s |}.

Definition setError (e : option string) (s : State) : State :=
  {| email := email s; password := password s; loading := loading s; error := e |}.

Definition auth_failure : string := "Falha na autenticação. Verifique suas credenciais.".

Definition connection_failure : string := "Erro ao conectar com o servidor.".

(** [err.response?.data?.erro || "Erro ao conectar com o servidor."] *)
Definition error_message (err : AxiosError) : string :=
  let erro := (response err ≫= data) ≫= body_erro in
  if truthy_string erro then default "" erro else connection_failure.

(** The handler answers with the state of the form and with the argument
    it called [onLoginSuccess] on, when it did. *)
Definition handleSubmit (answer : Outcome AuthResponse) (s : State)
  : Eff (State * option (option string)) :=
  let s := setLoading true s in
  let s := setError None s in
  result <- authService.login answer (email s) (password s) ;;
  r <- match result with
       | Fulfilled data =>
           if ok data && truthy_string (token data) then
             setItem "delibery_token" (default "" (token data)) ;;;
             setItem "delibery_user_email" (ToString (Types.email data)) ;;;
             ret (s, Some (Types.email data))
           else ret (setError (Some auth_failure) s, None)
       | Rejected err => ret (setError (Some (error_message err)) s, None)
       end ;;
  ret (setLoading false (fst r), snd r).

(** The reason the server gave, on either way a login can fail: in the
    body of a response that says [ok: false], or in the body of the
    response a rejected request carries. *)
Definition server_reason (answer : Outcome AuthResponse) : option string :=
  match answer with
  | Fulfilled data => erro data
  | Rejected err => (response err ≫= data) ≫= body_erro
  end.

(** The login failed: the request was rejected, or the answer does not
    say [ok]. *)
Definition failed (answer : Outcome AuthResponse) : Prop :=
  match answer with
  | Fulfilled data => ok data = false
  | Rejected _ => True
  end.

(** A handler persisted a session: it wrote the token to the storage. *)
Definition persisted (before after : World) : Prop :=
  exists t, In (SetItem "delibery_token" t) (events_since before after).

End Login.

(** ** App.tsx *)

Module App.
Import JS Types Api.

Record State := {
  token : option string;
  userEmail : option string;
  initializing : bool
}.

Definition initial : State :=
  {| token := None; userEmail := Some ""; initializing := true |}.

(** The mount effect: "Check local storage for existing session". *)
Definition useEffect (s : State) : Eff State :=
  storedToken <- getItem "delibery_token" ;;
  storedEmail <- getItem "delibery_user_email" ;;
  let s :=
    if truthy_string storedToken && truthy_string storedEmail
    then {| token := storedToken; userEmail := storedEmail; initializing := initializing s |}
    else s in
  ret {| token := token s; userEmail := userEmail s; initializing := false |}.

Definition handleLoginSuccess (email : option string) (s : State) : Eff State :=
  stored <- getItem "delibery_token" ;;
  ret {| token := stored; userEmail := email; initializing := initializing s |}.

Definition handleLogout (s : State) : Eff State :=
  authService.logout ;;;
  ret {| token := None; userEmail := Some ""; initializing := initializing s |}.

Inductive Screen :=
  | Initializing
  | LoginScreen
  | DashboardScreen (userEmail : option string).

Definition render (s : State) : Screen :=
  if initializing s then Initializing
  else if truthy_string (token s) then DashboardScreen (userEmail s)
  else LoginScreen.

(** Line 45, [<Login onLoginSuccess={handleLoginSuccess} />]: a submit of
    the form, with the callback of [App] behind it. *)
Definition submit (answer : Outcome AuthResponse) (form : Login.State) (s : State)
  : Eff (Login.State * State) :=
  r <- Login.handleSubmit answer form ;;
  match snd r with
  | Some email => s' <- handleLoginSuccess email s ;; ret (fst r, s')
  | None => ret (fst r, s)
  end.

(** The session a freshly started application resumes: what the mount
    effect leaves in the state of [App]. *)
Record Session := { session_token : string; session_email : string }.

Definition currentSession : Eff (option Session) :=
  s <- useEffect initial ;;
  ret (if truthy_string (token s)
       then Some {| session_token := default "" (token s);
                    session_email := default "" (userEmail s) |}
       else None).

End App.

(** ** components/Dashboard.tsx: the "Test Traffic" button

    One call of [handleSimulateTraffic], cut at the points where the
    function gives the control back to the event loop: the [await] of line
    51 and the timer of line 57.  The host delivers the answers of the
    requests and runs the timer's callback; the clock is in milliseconds. *)

Module Traffic.
Import JS Types Api.

Inductive Phase :=
  | Awaiting (remaining : nat)   (* at [await Promise.all], so many answers missing *)
  | Delaying (deadline : Z)      (* [setTimeout(..., 1500)] has been called *)
  | Refetched                    (* the timer's callback has run *)
  | Caught.                      (* the [catch] block has run *)

Record Run := { simulating : bool; phase : Phase }.

(** Lines 48-55: the three calls are made one after the other, each sends
    its request, and the function waits for [Promise.all] of the three. *)
Definition handleSimulateTraffic : Eff Run :=
  dataService.simulateGetOrders ;;;
  dataService.simulateGetOrders ;;;
  dataService.simulateGetOrders ;;;
  ret {| simulating := true; phase := Awaiting 3 |}.

(** One of the three promises settles.  [Promise.all] counts the
    fulfilments down and is fulfilled by the last one; it is rejected by the
    first rejection.  The function then goes on in the same turn: line 57
    after a fulfilment, the [catch] block of lines 61-64 after a
    rejection.  A promise that settles later changes nothing. *)
Definition settled (now : Z) (fulfilled : bool) (r : Run) : Run :=
  match phase r with
  | Awaiting remaining =>
      if fulfilled then
        if (remaining =? 1)%nat
        then {| simulating := simulating r; phase := Delaying (now + 1500) |}
        else {| simulating := simulating r; phase := Awaiting (remaining - 1) |}
      else {| simulating := false; phase := Caught |}
  | _ => r
  end.

(** Lines 58-59, the timer's callback: [fetchData()] sends the request for
    the metrics, then [setSimulating(false)]. *)
Definition timer_callback (r : Run) : Eff Run :=
  send "GET" "/metricas" [] ;;;
  ret {| simulating := false; phase := Refetched |}.

(** *** The host *)

Inductive Observation :=
  | Did (e : Event)                            (* the handler acted on the world *)
  | Answered (i : nat) (fulfilled : bool).     (* the i-th request settled *)

Record Host := {
  clock : Z;
  unanswered : list nat;
  run : Run;
  world : World;
  history : list (Z * Observation)
}.

Inductive Input :=
  | Answer (i : nat) (fulfilled : bool)
  | Timer.

Definition click (now : Z) (w : World) : Host :=
  let (r, w') := handleSimulateTraffic w in
  {| clock := now; unanswered := [0; 1; 2]; run := r; world := w';
     history := map (fun e => (now, Did e)) (events_since w w') |}.

(** The host lets [dt] milliseconds pass and delivers an input.  It
    answers a request once, and only one that waits for an answer; it runs
    the callback of a timer once, and not before the timer's delay is
    over. *)
Definition deliver (dt : Z) (i : Input) (h : Host) : option Host :=
  let now := (clock h + dt)%Z in
  if (dt <? 0)%Z then None
  else
    match i with
    | Answer i fulfilled =>
        if existsb (Nat.eqb i) (unanswered h) then
          Some {| clock := now;
                  unanswered := List.filter (fun j => negb (Nat.eqb i j)) (unanswered h);
                  run := settled now fulfilled (run h);
                  world := world h;
                  history := history h ++ [(now, Answered i fulfilled)] |}
        else None
    | Timer =>
        match phase (run h) with
        | Delaying deadline =>
            if (deadline <=? now)%Z then
              let (r, w') := timer_callback (run h) (world h) in
              Some {| clock := now; unanswered := unanswered h; run := r; world := w';
                      history := history h
                                 ++ map (fun e => (now, Did e)) (events_since (world h) w') |}
            else None
        | _ => None
        end
    end.

Fixpoint execute (schedule : list (Z * Input)) (h : Host) : option Host :=
  match schedule with
  | [] => Some h
  | (dt, i) :: schedule' =>
      match deliver dt i h with
      | Some h' => execute schedule' h'
      | None => None
      end
  end.

(** What the history says. *)
Definition requested (path : string) (o : Observation) : bool :=
  match o with
  | Did (Sent r) => String.eqb (url r) path
  | _ => false
  end.

(** The run waits: for the answers or for the timer. *)
Definition waiting (r : Run) : bool :=
  match phase r with
  | Awaiting _ | Delaying _ => true
  | Refetched | Caught => false
  end.

(** How often the metrics were asked for. *)
Definition refetches (h : Host) : nat :=
  length (List.filter (requested "/metricas") (map snd (history h))).

(** The [i]-th request was answered well, [1500] ms or more before [t]. *)
Definition answered_before (h : Host) (i : nat) (t : Z) : Prop :=
  exists ti, In (ti, Answered i true) (history h) /\ (ti + 1500 <= t)%Z.

Definition no_refetch (h : Host) : Prop :=
  forall t o, In (t, o) (history h) -> requested "/metricas" o = false.

(** What holds of the host at every point of a run, phase by phase. *)
Definition invariant (h : Host) : Prop :=
  List.NoDup (unanswered h)
  /\ (forall i, In i (unanswered h) -> (i < 3)%nat)
  /\ (forall t i, In (t, Answered i false) (history h) -> phase (run h) = Caught)
  /\ match phase (run h) with
     | Awaiting remaining =>
         no_refetch h
         /\ remaining = length (unanswered h)
         /\ (1 <= remaining)%nat
         /\ forall i, (i < 3)%nat -> ~ In i (unanswered h) ->
                      exists ti, In (ti, Answered i true) (history h) /\ (ti <= clock h)%Z
     | Delaying deadline =>
         unanswered h = []
         /\ no_refetch h
         /\ forall i, (i < 3)%nat -> answered_before h i deadline
     | Refetched =>
         unanswered h = []
         /\ forall t o, In (t, o) (history h) -> requested "/metricas" o = true ->
                        forall i, (i < 3)%nat -> answered_before h i t
     | Caught => no_refetch h
     end.

End Traffic.

(** ** Records to try the definitions on *)

Module Samples.
Import Types.

(** A record with a method, a response time, a status code and a time
    stamp, each of which may be missing. *)
Definition metric (m : option string) (rt sc ts : option Q) : MetricData :=
  {| method := m; endpoint := Some "/pedidos"; responseTimeMs := rt;
     serverProcessingMs := None; requestSizeBytes := None; responseSizeBytes := None;
     statusCode := sc; userAgent := None; ip := None; timestampMs := ts;
     timestampISO := None; minuteBucket := None; hourBucket := None; dayBucket := None |}.

(** A clock as a host in UTC with a 24-hour locale shows it. *)
Definition two_digits (n : Z) : list ascii :=
  if (n <? 10)%Z then "0"%char :: JS.decimal n else JS.decimal n.

Definition clock_utc (t : Q) : string :=
  let s := ((Qfloor t / 1000) mod 86400)%Z in
  string_of_list_ascii
    (two_digits (s / 3600) ++ ":"%char :: two_digits (s / 60 mod 60)
     ++ ":"%char :: two_digits (s mod 60)).

(** A browser that holds an earlier session, a filled-in form, and three
    answers of the server. *)
Definition world : Api.World :=
  {| Api.localStorage :=
       <["delibery_user_email" := "old@delibery.com"]> {["delibery_token" := "old-token"]};
     Api.trace := [] |}.

Definition form : Login.State :=
  {| Login.email := "admin@delibery.com"; Login.password := "secret";
     Login.loading := false; Login.error := None |}.

Definition accepted : AuthResponse :=
  {| ok := true; token := Some "new-token"; clientId := Some "c1";
     email := Some "admin@delibery.com"; hasCredentials := true;
     erro := None; code := None |}.

Definition refused : AuthResponse :=
  {| ok := false; token := None; clientId := None; email := None;
     hasCredentials := false; erro := Some "Senha incorreta"; code := Some "401" |}.

Definition no_token : AuthResponse :=
  {| ok := true; token := Some ""; clientId := Some "c1";
     email := Some "admin@delibery.com"; hasCredentials := true;
     erro := None; code := None |}.

Definition unreachable : Api.AxiosError := {| Api.response := None |}.

(** Forty records, three of which took 1 ms and the others no time; eighty
    records, 23 of which are errors. *)
Definition three_of_forty : list MetricData :=
  repeat (metric None (Some 1%Q) (Some 200%Q) None) 3
  ++ repeat (metric None (Some 0%Q) (Some 200%Q) None) 37.

Definition errors_23_of_80 : list MetricData :=
  repeat (metric None None (Some 500%Q) None) 23
  ++ repeat (metric None None (Some 200%Q) None) 57.

Definition no_email : AuthResponse :=
  {| ok := true; token := Some "new-token"; clientId := Some "c1";
     email := Some ""; hasCredentials := true; erro := None; code := None |}.

End Samples.

(** * Properties *)

(** ** Numbers and their formatting *)

Module NumberFacts.
Import JS.

Lemma Qltb_lt (x y : Q) : Qltb x y = true <-> (x < y)%Q.
Proof.
  unfold Qltb. rewrite negb_true_iff, <- not_true_iff_false, Qle_bool_iff.
  split; [apply Qnot_le_lt | apply Qlt_not_le].
Qed.

Lemma Qltb_ge (x y : Q) : Qltb x y = false <-> (y <= x)%Q.
Proof.
  unfold Qltb. rewrite negb_false_iff. apply Qle_bool_iff.
Qed.

Lemma Qltb_comp (x x' y y' : Q) : (x == x')%Q -> (y == y')%Q -> Qltb x y = Qltb x' y'.
Proof.
  intros Hx Hy. unfold Qltb. f_equal.
  apply eq_true_iff_eq. rewrite !Qle_bool_iff, Hx, Hy. reflexivity.
Qed.

(** Equal rationals are written the same, whatever their fractions. *)
Lemma toFixed_comp (f : nat) (x y : Q) : (x == y)%Q -> toFixed f x = toFixed f y.
Proof.
  intros E. unfold toFixed.
  rewrite (Qltb_comp x y 0 0 E (Qeq_refl 0)).
  replace (Qfloor (Qabs x * inject_Z (10 ^ Z.of_nat f) + (1 # 2)))
    with (Qfloor (Qabs y * inject_Z (10 ^ Z.of_nat f) + (1 # 2))); [reflexivity |].
  apply Qfloor_comp. rewrite E. reflexivity.
Qed.

End NumberFacts.

(** ** The rounding of binary64

    [round] answers a number of the format, and none of the format is
    nearer to the exact result; so it leaves the numbers of the format as
    they are, crosses none of them and keeps the order. *)

Module FloatFacts.
Import JS.
Local Open Scope Q_scope.

Lemma two_power_pos (e : Z) : 0 < 2 ^ e.
Proof. apply Qpower_0_lt. reflexivity. Qed.

Lemma two_power_add (a b : Z) : 2 ^ (a + b) == 2 ^ a * 2 ^ b.
Proof. apply Qpower_plus. discriminate. Qed.

Lemma two_power_le (a b : Z) : (a <= b)%Z -> 2 ^ a <= 2 ^ b.
Proof. intros H. apply Qpower_le_compat_l; [exact H | discriminate]. Qed.

Lemma two_power_Z (n : Z) : (0 <= n)%Z -> 2 ^ n == inject_Z (2 ^ n).
Proof. intros H. now rewrite (Zpower_Qpower 2 n H). Qed.

Lemma nearest_even_nearest (y : Q) (k : Z) :
  Qabs (inject_Z (nearest_even y) - y) <= Qabs (inject_Z k - y).
Proof.
  unfold nearest_even.
  pose proof (Qfloor_le y) as Hlo. pose proof (Qlt_floor y) as Hhi.
  rewrite inject_Z_plus in Hhi. change (inject_Z 1) with 1 in Hhi.
  set (f := Qfloor y) in *.
  assert (Hk : inject_Z k <= inject_Z f \/ inject_Z f + 1 <= inject_Z k).
  { destruct (Z_le_gt_dec k f) as [H | H].
    - left. now rewrite <- Zle_Qle.
    - right. change 1 with (inject_Z 1). rewrite <- inject_Z_plus, <- Zle_Qle. lia. }
  assert (Hup : forall c : Z, c = f \/ c = (f + 1)%Z ->
                  (c = f -> y - inject_Z f <= 1 # 2) ->
                  (c = (f + 1)%Z -> 1 # 2 <= y - inject_Z f) ->
                  Qabs (inject_Z c - y) <= Qabs (inject_Z k - y)).
  { intros c Hc H1 H2. clearbody f.
    set (F := inject_Z f) in *. set (K := inject_Z k) in *.
    destruct Hc as [-> | ->].
    - specialize (H1 eq_refl). fold F. clear H2.
      apply Qabs_case; intros; apply Qabs_case; intros; destruct Hk; lra.
    - specialize (H2 eq_refl). rewrite inject_Z_plus. change (inject_Z 1) with 1.
      fold F. clear H1.
      apply Qabs_case; intros; apply Qabs_case; intros; destruct Hk; lra. }
  destruct (y - inject_Z f ?= 1 # 2) eqn:E.
  - apply Qeq_alt in E. destruct (Z.even f).
    + apply Hup; [now left | intros _; rewrite E; apply Qle_refl | intros C; lia].
    + apply Hup; [now right | intros C; lia | intros _; rewrite E; apply Qle_refl].
  - apply Qlt_alt in E.
    apply Hup; [now left | intros _; now apply Qlt_le_weak | intros C; lia].
  - apply Qgt_alt in E.
    apply Hup; [now right | intros C; lia | intros _; now apply Qlt_le_weak].
Qed.

Lemma nearest_even_comp (x y : Q) : x == y -> nearest_even x = nearest_even y.
Proof.
  intros E. unfold nearest_even. rewrite (Qfloor_comp _ _ E).
  assert (C : (x - inject_Z (Qfloor y) ?= 1 # 2) = (y - inject_Z (Qfloor y) ?= 1 # 2))
    by now rewrite E.
  now rewrite C.
Qed.

Lemma scaled_distance (a y p : Q) : 0 < p -> Qabs (a * p - y * p) == Qabs (a - y) * p.
Proof.
  intros Hp. assert (E : a * p - y * p == (a - y) * p) by ring. rewrite E.
  rewrite Qabs_Qmult, (Qabs_pos p) by now apply Qlt_le_weak. reflexivity.
Qed.

Lemma nearest_scaled (y p : Q) (k : Z) :
  0 < p ->
  Qabs (inject_Z (nearest_even y) * p - y * p) <= Qabs (inject_Z k * p - y * p).
Proof.
  intros Hp. rewrite !scaled_distance by exact Hp.
  apply Qmult_le_compat_r; [apply nearest_even_nearest | now apply Qlt_le_weak].
Qed.

Section Format.

Variables precision emin : Z.
Hypothesis precision_positive : (0 < precision)%Z.

Lemma exponent_min (x : Q) : (emin <= exponent precision emin x)%Z.
Proof. apply Z.le_max_l. Qed.

Lemma exponent_normal (x : Q) :
  (emin < exponent precision emin x)%Z ->
  2 ^ (precision - 1) * 2 ^ exponent precision emin x <= Qabs x.
Proof.
  unfold exponent.
  set (t := Qabs x * 2 ^ (- emin)). set (L := Z.log2 (Qfloor t)).
  intros H.
  assert (E : Z.max emin (L + emin - (precision - 1)) = (L + emin - (precision - 1))%Z) by lia.
  rewrite E. assert (HL : (0 < L)%Z) by lia.
  assert (HN : (0 < Qfloor t)%Z).
  { destruct (Z_lt_le_dec 0 (Qfloor t)) as [|C]; [assumption |].
    unfold L in HL. rewrite Z.log2_nonpos in HL by exact C. lia. }
  destruct (Z.log2_spec _ HN) as [Hlo _]. fold L in Hlo.
  rewrite <- two_power_add.
  replace (precision - 1 + (L + emin - (precision - 1)))%Z with (L + emin)%Z by ring.
  rewrite two_power_add.
  assert (Ht : 2 ^ L <= t).
  { apply Qle_trans with (inject_Z (Qfloor t)); [| apply Qfloor_le].
    rewrite two_power_Z by lia. now rewrite <- Zle_Qle. }
  assert (Ex : Qabs x == t * 2 ^ emin).
  { unfold t. rewrite <- Qmult_assoc, <- two_power_add.
    replace (- emin + emin)%Z with 0%Z by ring. change (2 ^ 0) with 1. ring. }
  rewrite Ex. apply Qmult_le_compat_r; [exact Ht | apply Qlt_le_weak, two_power_pos].
Qed.

Lemma exponent_bound (x : Q) :
  Qabs x < 2 ^ precision * 2 ^ exponent precision emin x.
Proof.
  unfold exponent.
  set (t := Qabs x * 2 ^ (- emin)). set (L := Z.log2 (Qfloor t)).
  set (e := Z.max emin (L + emin - (precision - 1))).
  assert (Ex : Qabs x == t * 2 ^ emin).
  { unfold t. rewrite <- Qmult_assoc, <- two_power_add.
    replace (- emin + emin)%Z with 0%Z by ring. change (2 ^ 0) with 1. ring. }
  assert (HL : (0 <= L)%Z) by apply Z.log2_nonneg.
  assert (Ht : t < 2 ^ (L + 1)).
  { apply Qlt_le_trans with (inject_Z (Qfloor t + 1)); [apply Qlt_floor |].
    rewrite two_power_Z by lia. rewrite <- Zle_Qle.
    destruct (Z_lt_le_dec 0 (Qfloor t)) as [HN | HN].
    - destruct (Z.log2_spec _ HN) as [_ Hhi]. fold L in Hhi.
      replace (L + 1)%Z with (Z.succ L) by lia. lia.
    - assert (0 < 2 ^ (L + 1))%Z by (apply Z.pow_pos_nonneg; lia).
      assert (E0 : L = 0%Z) by (unfold L; now apply Z.log2_nonpos).
      rewrite E0. change (2 ^ (0 + 1))%Z with 2%Z. lia. }
  rewrite Ex. rewrite <- two_power_add.
  apply Qlt_le_trans with (2 ^ (L + 1) * 2 ^ emin).
  - apply Qmult_lt_compat_r; [apply two_power_pos | exact Ht].
  - rewrite <- two_power_add. apply two_power_le. unfold e. lia.
Qed.

Lemma round_value (x : Q) :
  round precision emin x
  == inject_Z (nearest_even (x / 2 ^ exponent precision emin x))
     * 2 ^ exponent precision emin x.
Proof. unfold round. cbv zeta. apply Qred_correct. Qed.

Lemma exponent_comp (x y : Q) :
  x == y -> exponent precision emin x = exponent precision emin y.
Proof.
  intros E. unfold exponent.
  assert (F : Qfloor (Qabs x * 2 ^ (- emin)) = Qfloor (Qabs y * 2 ^ (- emin)))
    by (apply Qfloor_comp; now rewrite E).
  now rewrite F.
Qed.

Lemma round_comp (x y : Q) : x == y -> round precision emin x = round precision emin y.
Proof.
  intros E. unfold round. cbv zeta. rewrite (exponent_comp x y E).
  apply Qred_complete.
  rewrite (nearest_even_comp (x / 2 ^ exponent precision emin y)
             (y / 2 ^ exponent precision emin y)) by now rewrite E.
  reflexivity.
Qed.

(** [round] answers a number of the format that is nearest to [x]. *)
Lemma round_nearest (x f : Q) :
  representable precision emin f ->
  Qabs (round precision emin x - x) <= Qabs (f - x).
Proof.
  intros (m & e' & He' & Hm & Ef).
  rewrite round_value.
  pose proof (exponent_min x) as Hmin.
  pose proof (exponent_normal x) as Hnormal.
  set (e := exponent precision emin x) in *.
  pose proof (two_power_pos e) as Hp.
  assert (Ey : x / 2 ^ e * 2 ^ e == x).
  { field. intros C. rewrite C in Hp. exact (Qlt_irrefl 0 Hp). }
  set (y := x / 2 ^ e) in *. set (p := 2 ^ e) in *.
  destruct (Z_le_gt_dec e e') as [Hle | Hgt].
  - (* [f] is a multiple of [2 ^ e] *)
    assert (Ek : f == inject_Z (m * 2 ^ (e' - e)) * p).
    { rewrite Ef, inject_Z_mult, <- two_power_Z by lia.
      rewrite <- Qmult_assoc. unfold p. rewrite <- two_power_add.
      replace (e' - e + e)%Z with e' by ring. reflexivity. }
    rewrite Ek. pose proof (nearest_scaled y p (m * 2 ^ (e' - e)) Hp) as H.
    rewrite Ey in H. exact H.
  - (* [f] is below the binade of [x] *)
    assert (Hx : 2 ^ (precision - 1) * p <= Qabs x) by (apply Hnormal; lia).
    assert (Hf : Qabs f <= 2 ^ (precision - 1) * p).
    { rewrite Ef, Qabs_Qmult. rewrite (Qabs_pos (2 ^ e')) by apply Qlt_le_weak, two_power_pos.
      apply Qle_trans with (2 ^ precision * 2 ^ e').
      - apply Qmult_le_compat_r; [| apply Qlt_le_weak, two_power_pos].
        rewrite two_power_Z by lia.
        assert (Ea : Qabs (inject_Z m) == inject_Z (Z.abs m)) by reflexivity.
        rewrite Ea. now rewrite <- Zle_Qle.
      - unfold p. rewrite <- !two_power_add. apply two_power_le. lia. }
    assert (EB : 2 ^ (precision - 1) == inject_Z (2 ^ (precision - 1)))
      by (apply two_power_Z; lia).
    rewrite EB in Hx, Hf.
    pose proof (nearest_scaled y p (2 ^ (precision - 1)) Hp) as Hup.
    pose proof (nearest_scaled y p (- 2 ^ (precision - 1)) Hp) as Hdown.
    rewrite inject_Z_opp in Hdown. rewrite Ey in Hup, Hdown.
    set (B := inject_Z (2 ^ (precision - 1)) * p) in *.
    assert (EB' : - inject_Z (2 ^ (precision - 1)) * p == - B) by (unfold B; ring).
    rewrite EB' in Hdown.
    set (v := inject_Z (nearest_even y) * p) in *.
    clearbody v B. clear - Hx Hf Hup Hdown.
    revert Hx Hf Hup Hdown.
    apply (Qabs_case x); intros Sx; apply (Qabs_case f); intros Sf Hx Hf Hup Hdown.
    + apply Qle_trans with (Qabs (B - x)); [exact Hup |].
      apply Qabs_case; intros; apply Qabs_case; intros; lra.
    + apply Qle_trans with (Qabs (B - x)); [exact Hup |].
      apply Qabs_case; intros; apply Qabs_case; intros; lra.
    + apply Qle_trans with (Qabs (- B - x)); [exact Hdown |].
      apply Qabs_case; intros; apply Qabs_case; intros; lra.
    + apply Qle_trans with (Qabs (- B - x)); [exact Hdown |].
      apply Qabs_case; intros; apply Qabs_case; intros; lra.
Qed.

Lemma nearest_even_between (y : Q) :
  (Qfloor y <= nearest_even y <= Qfloor y + 1)%Z.
Proof.
  unfold nearest_even.
  destruct (y - inject_Z (Qfloor y) ?= 1 # 2); [destruct (Z.even (Qfloor y)) | |]; lia.
Qed.

Lemma round_representable (x : Q) :
  representable precision emin (round precision emin x).
Proof.
  exists (nearest_even (x / 2 ^ exponent precision emin x)), (exponent precision emin x).
  split; [apply exponent_min |]. split; [| apply round_value].
  pose proof (exponent_bound x) as Hb.
  set (e := exponent precision emin x) in *.
  pose proof (two_power_pos e) as Hp.
  assert (Hy : Qabs (x / 2 ^ e) < inject_Z (2 ^ precision)).
  { unfold Qdiv. rewrite Qabs_Qmult, Qabs_Qinv.
    rewrite (Qabs_pos (2 ^ e)) by now apply Qlt_le_weak.
    apply Qlt_shift_div_r; [exact Hp |]. now rewrite <- two_power_Z by lia. }
  set (y := x / 2 ^ e) in *. clearbody y.
  pose proof (nearest_even_between y) as Hn.
  pose proof (Qfloor_le y) as Hlo. pose proof (Qlt_floor y) as Hhi.
  assert (Hy' : - inject_Z (2 ^ precision) < y /\ y < inject_Z (2 ^ precision)).
  { revert Hy. apply Qabs_case; intros; split; lra. }
  destruct Hy' as [Hy1 Hy2].
  assert (H1 : (Qfloor y < 2 ^ precision)%Z).
  { rewrite Zlt_Qlt. now apply Qle_lt_trans with y. }
  assert (H2 : (- 2 ^ precision < Qfloor y + 1)%Z).
  { rewrite Zlt_Qlt, inject_Z_opp. now apply Qlt_trans with y. }
  lia.
Qed.

Lemma round_id (f : Q) :
  representable precision emin f -> round precision emin f == f.
Proof.
  intros H. pose proof (round_nearest f f H) as Hn. revert Hn.
  assert (E : f - f == 0) by ring. rewrite E. change (Qabs 0) with 0.
  apply Qabs_case; intros; lra.
Qed.

(** Rounding does not cross a number of the format. *)
Lemma round_le (x c : Q) :
  representable precision emin c -> x <= c -> round precision emin x <= c.
Proof.
  intros Hc Hx. pose proof (round_nearest x c Hc) as Hn. revert Hn.
  apply Qabs_case; intros; revert Hn; apply Qabs_case; intros; lra.
Qed.

Lemma round_ge (x c : Q) :
  representable precision emin c -> c <= x -> c <= round precision emin x.
Proof.
  intros Hc Hx. pose proof (round_nearest x c Hc) as Hn. revert Hn.
  apply Qabs_case; intros; revert Hn; apply Qabs_case; intros; lra.
Qed.

Lemma round_monotone (x y : Q) :
  x <= y -> round precision emin x <= round precision emin y.
Proof.
  intros Hxy. destruct (Qle_lt_or_eq x y Hxy) as [Hlt | E];
    [clear Hxy | rewrite (round_comp x y E); apply Qle_refl].
  pose proof (round_nearest x _ (round_representable y)) as Hx.
  pose proof (round_nearest y _ (round_representable x)) as Hy.
  revert Hx Hy.
  set (a := round precision emin x). set (b := round precision emin y). clearbody a b.
  apply (Qabs_case (a - x)); intros; revert Hx Hy;
    apply (Qabs_case (b - x)); intros; revert Hx Hy;
    apply (Qabs_case (b - y)); intros; revert Hx Hy;
    apply (Qabs_case (a - y)); intros; lra.
Qed.

Lemma representable_integer (k : Z) :
  (emin <= 0)%Z -> (Z.abs k <= 2 ^ precision)%Z ->
  representable precision emin (inject_Z k).
Proof.
  intros He Hk. exists k, 0%Z. split; [exact He |]. split; [exact Hk |].
  change (2 ^ 0) with 1. ring.
Qed.

End Format.

Lemma binary64_integer (k : Z) :
  (Z.abs k <= 2 ^ 53)%Z -> binary64 (inject_Z k) == inject_Z k.
Proof.
  intros H. apply round_id; [lia |]. apply representable_integer; [lia | exact H].
Qed.
End FloatFacts.

(** ** computeStats *)

Module StatsFacts.
Import JS Types Dashboard NumberFacts FloatFacts.

Lemma count_filter {A} (p : A -> bool) (l : list A) :
  Spec.count p l = length (List.filter p l).
Proof.
  induction l as [| x l IH]; simpl; [reflexivity |].
  destruct (p x); simpl; rewrite IH; reflexivity.
Qed.

Lemma Math_max_from (xs : list Q) (a : Q) :
  exists p,
    fold_left
      (fun acc x =>
         match acc with
         | None => Some x
         | Some a => Some (if Qltb a x then x else a)
         end) xs (Some a) = Some p
    /\ Spec.is_maximum p (a :: xs).
Proof.
  revert a. induction xs as [| x xs IH]; intros a; simpl.
  - exists a. split; [reflexivity |]. split; [now left |].
    intros y [<- | []]. apply Qle_refl.
  - destruct (Qltb a x) eqn:E.
    + apply Qltb_lt in E.
      destruct (IH x) as (p & Hp & Hin & Hub). exists p. split; [exact Hp |].
      split.
      * destruct Hin as [<- | Hin]; [right; now left | right; now right].
      * intros y [<- | [<- | Hy]].
        -- apply Qle_trans with x; [apply Qlt_le_weak, E | apply Hub; now left].
        -- apply Hub; now left.
        -- apply Hub; now right.
    + apply Qltb_ge in E.
      destruct (IH a) as (p & Hp & Hin & Hub). exists p. split; [exact Hp |].
      split.
      * destruct Hin as [<- | Hin]; [now left | right; now right].
      * intros y [<- | [<- | Hy]].
        -- apply Hub; now left.
        -- apply Qle_trans with a; [exact E | apply Hub; now left].
        -- apply Hub; now right.
Qed.

Lemma Math_max_is_maximum (x : Q) (xs : list Q) :
  exists p, Math_max (x :: xs) = Some p /\ Spec.is_maximum p (x :: xs).
Proof.
  unfold Math_max. simpl. apply Math_max_from.
Qed.

Lemma maximum_cons (x y : Q) (xs : list Q) :
  Spec.maximum (x :: y :: xs) = Qmax x (Spec.maximum (y :: xs)).
Proof. reflexivity. Qed.

(** The specification's maximum is an element of the list, up to the
    equality of rationals, and bounds the list. *)
Lemma maximum_bounds (x : Q) (xs : list Q) :
  (exists y, In y (x :: xs) /\ (y == Spec.maximum (x :: xs))%Q)
  /\ forall y, In y (x :: xs) -> (y <= Spec.maximum (x :: xs))%Q.
Proof.
  revert x. induction xs as [| z xs IH]; intros x.
  - simpl. split.
    + exists x. split; [now left | reflexivity].
    + intros y [<- | []]. apply Qle_refl.
  - rewrite maximum_cons. destruct (IH z) as [(w & Hw & Ew) Hub]. split.
    + destruct (Q.max_spec x (Spec.maximum (z :: xs))) as [[_ E] | [_ E]].
      * exists w. split; [now right | now rewrite E].
      * exists x. split; [now left | now rewrite E].
    + intros y [<- | Hy].
      * apply Q.le_max_l.
      * apply Qle_trans with (Spec.maximum (z :: xs)); [now apply Hub | apply Q.le_max_r].
Qed.

Lemma Math_max_maximum (x : Q) (xs : list Q) :
  exists p, Math_max (x :: xs) = Some p /\ (p == Spec.maximum (x :: xs))%Q.
Proof.
  destruct (Math_max_is_maximum x xs) as (p & Hp & Hin & Hub).
  destruct (maximum_bounds x xs) as [(w & Hw & Ew) Hub'].
  exists p. split; [exact Hp |].
  apply Qle_antisym.
  - now apply Hub'.
  - rewrite <- Ew. now apply Hub.
Qed.

Lemma is_error_status (m : MetricData) : is_error m = Spec.error_status m.
Proof. reflexivity. Qed.

Lemma reduce_float_sum {A} (g : A -> Q) (l : list A) (a : Q) :
  fold_left (fun acc curr => Number_add acc (g curr)) l a
  = Spec.float_sum_from a (map g l).
Proof.
  revert a. induction l as [| x l IH]; intros a; [reflexivity |].
  simpl. now rewrite IH.
Qed.



(** On a sequence that is not empty [stats] computes the figures of
    [computeStats] in the arithmetic of binary64. *)
Lemma stats_nonempty (m : MetricData) (metrics : list MetricData) :
  stats (m :: metrics) = Spec.computeStats_binary64 (m :: metrics).
Proof.
  unfold stats, Spec.computeStats_binary64.
  change (length (m :: metrics) =? 0)%nat with false. cbv iota.
  rewrite length_map. change (0 <? length (m :: metrics))%nat with true. cbv iota.
  destruct (Math_max_maximum (or_zero (responseTimeMs m))
              (map (fun m => or_zero (responseTimeMs m)) metrics)) as (p & Hp & Ep).
  change (map (fun m => or_zero (responseTimeMs m)) (m :: metrics))
    with (or_zero (responseTimeMs m) :: map (fun m => or_zero (responseTimeMs m)) metrics).
  rewrite Hp. f_equal.
  - unfold Spec.float_mean, Spec.float_sum, Number_divide.
    rewrite (reduce_float_sum (fun m => or_zero (responseTimeMs m))), length_map.
    reflexivity.
  - change Spec.error_status with is_error. rewrite count_filter.
    unfold Spec.float_percentage, Number_multiply, Number_divide.
    cbn [length]. reflexivity.
  - apply toFixed_comp. exact Ep.
Qed.

Lemma stats_avgLatency (m : MetricData) (metrics : list MetricData) :
  avgLatency (stats (m :: metrics))
  = toFixed 2 (Spec.float_mean (map Spec.latency (m :: metrics))).
Proof. now rewrite stats_nonempty. Qed.

Lemma stats_errorRate (m : MetricData) (metrics : list MetricData) :
  errorRate (stats (m :: metrics))
  = toFixed 1
      (Spec.float_percentage (length (List.filter is_error (m :: metrics)))
         (length (m :: metrics))).
Proof.
  rewrite stats_nonempty. change Spec.error_status with is_error.
  cbn [Spec.computeStats_binary64 errorRate]. now rewrite count_filter.
Qed.



Example stats_23_errors_of_80 :
  errorRate (stats Samples.errors_23_of_80) = "28.7"
  /\ errorRate (Spec.computeStats Samples.errors_23_of_80) = "28.8".
Proof. split; vm_compute; reflexivity. Qed.

(** The specification's examples, in which nothing is rounded. *)
Example stats_100_200_300 :
  let s := stats (map (fun rt => Samples.metric None (Some rt) (Some 200%Q) None)
                      [100%Q; 200%Q; 300%Q]) in
  avgLatency s = "200.00" /\ peakLatency s = "300.00".
Proof. vm_compute. split; reflexivity. Qed.

Example stats_100_200_300_exact :
  Spec.exact_mean [100%Q; 200%Q; 300%Q].
Proof. repeat split; vm_compute; reflexivity. Qed.

Example stats_1_error_of_4_exact :
  Spec.exact_percentage 1 4.
Proof. split; vm_compute; reflexivity. Qed.

Example stats_3_errors_of_10 :
  errorRate (stats (repeat (Samples.metric None None (Some 500%Q) None) 3
                     ++ repeat (Samples.metric None None (Some 200%Q) None) 7))
  = "30.0".
Proof. vm_compute. reflexivity. Qed.

End StatsFacts.

(** ** toOrderedSequence *)

Module SortFacts.
Import JS Types Dashboard NumberFacts.

Lemma sort_insert_perm {A} (comparefn : A -> A -> Q) (x : A) (l : list A) :
  Permutation (sort_insert comparefn x l) (x :: l).
Proof.
  induction l as [| y l IH]; simpl; [reflexivity |].
  destruct (Qltb 0 (comparefn x y)); [| reflexivity].
  rewrite IH. apply perm_swap.
Qed.

Lemma Array_sort_perm {A} (comparefn : A -> A -> Q) (l : list A) :
  Permutation (Array_sort comparefn l) l.
Proof.
  induction l as [| x l IH]; simpl; [reflexivity |].
  change (fold_right (sort_insert comparefn) [] l) with (Array_sort comparefn l).
  rewrite sort_insert_perm. now constructor.
Qed.

Section ByKey.

Context {A : Type} (key : A -> Q).

(** A comparator that subtracts the keys puts [x] after [y] exactly when
    the key of [y] is the smaller one. *)
Lemma after_iff (x y : A) : Qltb 0 (key x - key y) = true <-> (key y < key x)%Q.
Proof.
  rewrite Qltb_lt, (Qlt_minus_iff (key y) (key x)). reflexivity.
Qed.

Lemma sort_insert_sorted (x : A) (l : list A) :
  StronglySorted (fun a b => key a <= key b)%Q l ->
  StronglySorted (fun a b => key a <= key b)%Q
    (sort_insert (fun a b => key a - key b)%Q x l).
Proof.
  induction 1 as [| y l Hl IH Hy]; simpl.
  - constructor; constructor.
  - destruct (Qltb 0 (key x - key y)) eqn:E.
    + apply after_iff in E. constructor; [exact IH |].
      apply (Permutation_Forall (Permutation_sym (sort_insert_perm _ x l))).
      constructor; [apply Qlt_le_weak, E | exact Hy].
    + assert (Hxy : (key x <= key y)%Q).
      { apply Qnot_lt_le. intros C. apply after_iff in C. congruence. }
      constructor; [constructor; assumption |].
      constructor; [exact Hxy |].
      eapply List.Forall_impl; [| exact Hy].
      intros z Hz. simpl in Hz. apply Qle_trans with (key y); assumption.
Qed.

Lemma Array_sort_sorted (l : list A) :
  StronglySorted (fun a b => key a <= key b)%Q
    (Array_sort (fun a b => key a - key b)%Q l).
Proof.
  induction l as [| x l IH]; simpl; [constructor |].
  apply sort_insert_sorted. exact IH.
Qed.

(** The sort is stable: the elements of one key keep their order. *)
Lemma sort_insert_stable (q : Q) (x : A) (l : list A) :
  List.filter (fun a => Qeq_bool (key a) q) (sort_insert (fun a b => key a - key b)%Q x l)
  = List.filter (fun a => Qeq_bool (key a) q) (x :: l).
Proof.
  induction l as [| y l IH]; [reflexivity |].
  cbn [sort_insert]. destruct (Qltb 0 (key x - key y)) eqn:E; [| reflexivity].
  apply after_iff in E. cbn [List.filter] in *. rewrite IH.
  destruct (Qeq_bool (key x) q) eqn:Ex; [| reflexivity].
  destruct (Qeq_bool (key y) q) eqn:Ey; [| reflexivity].
  apply Qeq_bool_iff in Ex. apply Qeq_bool_iff in Ey.
  rewrite Ex, Ey in E. now apply Qlt_irrefl in E.
Qed.

Lemma Array_sort_stable (q : Q) (l : list A) :
  List.filter (fun a => Qeq_bool (key a) q) (Array_sort (fun a b => key a - key b)%Q l)
  = List.filter (fun a => Qeq_bool (key a) q) l.
Proof.
  induction l as [| x l IH]; [reflexivity |].
  cbn [Array_sort fold_right].
  change (fold_right (sort_insert (fun a b => key a - key b)%Q) [] l)
    with (Array_sort (fun a b => key a - key b)%Q l).
  rewrite sort_insert_stable. cbn [List.filter]. now rewrite IH.
Qed.

End ByKey.

(** C2.  Whatever mapping the server answers, the array [fetchData] keeps
    holds the values of the mapping, each as often as the mapping does, in
    non-decreasing order of their time stamps, a record without a time stamp
    standing where time stamp 0 stands. *)
Theorem metricsArray_sorted_permutation (M : MetricsResponse) :
  Permutation (metricsArray M) (Object_values M)
  /\ StronglySorted Spec.ascending (metricsArray M).
Proof.
  unfold metricsArray. split.
  - apply Array_sort_perm.
  - apply (Array_sort_sorted Spec.timestamp).
Qed.

(** Records of one time stamp stay in the order in which the answer of the
    server lists them. *)
Lemma metricsArray_stable (M : MetricsResponse) (t : Q) :
  List.filter (fun m => Qeq_bool (Spec.timestamp m) t) (metricsArray M)
  = List.filter (fun m => Qeq_bool (Spec.timestamp m) t) (Object_values M).
Proof.
  unfold metricsArray. apply (Array_sort_stable Spec.timestamp).
Qed.

(** So the views never see metrics out of order: the component starts
    with no metrics, and a fetch replaces them by a sorted array or leaves
    them alone. *)
Lemma fetchData_sorted (now : Q) (answer : Api.Outcome MetricsResponse)
      (s : DashboardData.State) (w : Api.World) :
  StronglySorted Spec.ascending (DashboardData.metrics s) ->
  StronglySorted Spec.ascending
    (DashboardData.metrics (fst (DashboardData.fetchData now answer s w))).
Proof.
  intros Hs. destruct answer as [data | err]; cbn.
  - apply (Array_sort_sorted Spec.timestamp).
  - exact Hs.
Qed.

Example metricsArray_sample :
  map timestampMs
    (metricsArray [("-Na", Samples.metric None None None (Some 30%Q));
                   ("-Nb", Samples.metric None None None None);
                   ("-Nc", Samples.metric None None None (Some 20%Q))])
  = [None; Some 20%Q; Some 30%Q].
Proof. vm_compute. reflexivity. Qed.

End SortFacts.

(** ** Writing a number and reading it back *)

Module DigitFacts.
Import JS NumberFacts.

Lemma digit_value_digit (d : Z) : (0 <= d <= 9)%Z -> digit_value (digit d) = d.
Proof.
  intros H. unfold digit_value, digit.
  rewrite nat_ascii_embedding by lia. lia.
Qed.

Lemma is_digit_digit (d : Z) : (0 <= d <= 9)%Z -> is_digit (digit d) = true.
Proof.
  intros H. unfold is_digit, digit.
  rewrite nat_ascii_embedding by lia.
  apply andb_true_intro. split; apply Nat.leb_le; lia.
Qed.

Lemma digits_le_range (fuel : nat) (n : Z) :
  (0 <= n)%Z -> Forall (fun d => 0 <= d <= 9)%Z (digits_le fuel n).
Proof.
  revert n. induction fuel as [| k IH]; intros n Hn; simpl; [constructor |].
  destruct (Z.ltb_spec n 10).
  - constructor; [lia | constructor].
  - constructor.
    + pose proof (Z.mod_pos_bound n 10). lia.
    + apply IH. apply Z.div_pos; lia.
Qed.

Lemma digits_le_sound (fuel : nat) (n : Z) :
  (0 <= n < 2 ^ Z.of_nat fuel)%Z -> digits_le_value (digits_le fuel n) = n.
Proof.
  revert n. induction fuel as [| k IH]; intros n Hn.
  - simpl in *. lia.
  - simpl digits_le. destruct (Z.ltb_spec n 10); simpl; [lia |].
    rewrite IH.
    + pose proof (Z.div_mod n 10). lia.
    + rewrite Nat2Z.inj_succ, Z.pow_succ_r in Hn by lia.
      split; [apply Z.div_pos; lia |].
      apply Z.div_lt_upper_bound; lia.
Qed.

Lemma digits_le_nonempty (k : nat) (n : Z) : digits_le (S k) n <> [].
Proof. simpl. destruct (n <? 10)%Z; discriminate. Qed.

Lemma digits_value_from (ds : list ascii) (acc : Z) :
  fold_left (fun acc c => (acc * 10 + digit_value c)%Z) ds acc
  = (acc * 10 ^ Z.of_nat (length ds) + digits_value ds)%Z.
Proof.
  unfold digits_value. revert acc.
  induction ds as [| c ds IH]; intros acc.
  - simpl. lia.
  - cbn [fold_left length]. rewrite IH, (IH (0 * 10 + digit_value c)%Z).
    rewrite Nat2Z.inj_succ, Z.pow_succ_r by lia. lia.
Qed.

Lemma digits_value_app (ds1 ds2 : list ascii) :
  digits_value (ds1 ++ ds2)
  = (digits_value ds1 * 10 ^ Z.of_nat (length ds2) + digits_value ds2)%Z.
Proof.
  unfold digits_value at 1. rewrite fold_left_app, digits_value_from. reflexivity.
Qed.

Lemma digits_value_zeros (k : nat) : digits_value (repeat "0"%char k) = 0%Z.
Proof.
  induction k as [| k IH]; [reflexivity |].
  change (repeat "0"%char (S k)) with (["0"%char] ++ repeat "0"%char k).
  rewrite digits_value_app, IH. reflexivity.
Qed.

Lemma digits_value_rev (ds : list Z) :
  Forall (fun d => 0 <= d <= 9)%Z ds ->
  digits_value (map digit (rev ds)) = digits_le_value ds.
Proof.
  induction 1 as [| d ds Hd Hds IH]; [reflexivity |].
  simpl rev. rewrite map_app, digits_value_app, IH. simpl.
  unfold digits_value. simpl. rewrite digit_value_digit by exact Hd. lia.
Qed.

Lemma decimal_fuel (n : Z) : (0 <= n)%Z -> (n < 2 ^ Z.of_nat (S (Z.to_nat (Z.log2 n))))%Z.
Proof.
  intros Hn. rewrite Nat2Z.inj_succ, Z2Nat.id by apply Z.log2_nonneg.
  destruct (Z.eq_dec n 0%Z) as [-> | Hz]; [reflexivity |].
  apply Z.log2_spec. lia.
Qed.

(** The digits [decimal] writes are digits, there is at least one, and they
    stand for the number. *)
Lemma decimal_digits (n : Z) : (0 <= n)%Z -> forallb is_digit (decimal n) = true.
Proof.
  intros Hn. unfold decimal. apply forallb_forall. intros c Hc.
  apply in_map_iff in Hc. destruct Hc as (d & <- & Hd).
  apply is_digit_digit. apply in_rev in Hd.
  pose proof (digits_le_range (S (Z.to_nat (Z.log2 n))) n Hn) as R.
  rewrite List.Forall_forall in R. now apply R.
Qed.

Lemma decimal_nonempty (n : Z) : decimal n <> [].
Proof.
  unfold decimal. intros E. apply map_eq_nil in E.
  apply (f_equal (@rev Z)) in E. rewrite rev_involutive in E.
  now apply digits_le_nonempty in E.
Qed.

Lemma decimal_value (n : Z) : (0 <= n)%Z -> digits_value (decimal n) = n.
Proof.
  intros Hn. unfold decimal.
  rewrite digits_value_rev by now apply digits_le_range.
  apply digits_le_sound. split; [exact Hn | now apply decimal_fuel].
Qed.

End DigitFacts.

Module FormatFacts.
Import JS NumberFacts DigitFacts.

Lemma list_ascii_of_string_append (s t : string) :
  list_ascii_of_string (s +:+ t) = list_ascii_of_string s ++ list_ascii_of_string t.
Proof.
  induction s as [| c s IH]; simpl; [reflexivity | now rewrite IH].
Qed.

Lemma digit_bounds (c : ascii) :
  is_digit c = true -> (48 <= nat_of_ascii c <= 57)%nat.
Proof.
  unfold is_digit. intros H. apply andb_prop in H. destruct H as [L U].
  apply Nat.leb_le in L. apply Nat.leb_le in U. lia.
Qed.

Lemma digit_not (c d : ascii) :
  is_digit c = true -> is_digit d = false -> Ascii.eqb c d = false.
Proof.
  intros Hc Hd. destruct (Ascii.eqb_spec c d) as [-> | _]; [congruence | reflexivity].
Qed.

Lemma digit_not_space (c : ascii) : is_digit c = true -> is_space c = false.
Proof.
  intros H. apply digit_bounds in H. unfold is_space.
  apply orb_false_intro; [apply Nat.eqb_neq; lia |].
  apply andb_false_intro2. apply Nat.leb_gt. lia.
Qed.

Lemma read_sign_digit (c : ascii) (cs : list ascii) :
  is_digit c = true -> read_sign (c :: cs) = (false, c :: cs).
Proof.
  intros H. unfold read_sign.
  rewrite (digit_not c "-" H eq_refl), (digit_not c "+" H eq_refl). reflexivity.
Qed.

(** A run of digits is read up to the first character that is none. *)
Lemma span_digits_run (ds rest : list ascii) :
  forallb is_digit ds = true ->
  match rest with c :: _ => is_digit c = false | [] => True end ->
  span_digits (ds ++ rest) = (ds, rest).
Proof.
  intros Hds Hrest. induction ds as [| d ds IH]; simpl.
  - destruct rest as [| c rest]; [reflexivity |]. simpl. now rewrite Hrest.
  - simpl in Hds. apply andb_prop in Hds. destruct Hds as [Hd Hds].
    rewrite Hd, (IH Hds). reflexivity.
Qed.

(** What [toFixed] writes for [f] decimals, [f] not 0: a sign when [x] is
    negative, at least one digit, the point, [f] digits; the digits are
    those of the integer nearest to [|x| * 10^f]. *)
Lemma toFixed_shape (f : nat) (x : Q) :
  f <> 0%nat ->
  exists a b : list ascii,
    toFixed f x
    = (if Qltb x 0 then "-" else "") +:+ string_of_list_ascii (a ++ "."%char :: b)
    /\ a <> []
    /\ forallb is_digit a = true
    /\ forallb is_digit b = true
    /\ length b = f
    /\ digits_value (a ++ b) = Qfloor (Qabs x * inject_Z (10 ^ Z.of_nat f) + (1 # 2)).
Proof.
  intros Hf. unfold toFixed.
  set (n := Qfloor (Qabs x * inject_Z (10 ^ Z.of_nat f) + (1 # 2))).
  assert (Hn : (0 <= n)%Z).
  { rewrite <- (Qfloor_Z 0). apply Qfloor_resp_le.
    apply Qle_trans with (0 + (1 # 2))%Q; [discriminate |].
    apply Qplus_le_compat; [| apply Qle_refl].
    apply Qmult_le_0_compat; [apply Qabs_nonneg |].
    change 0%Q with (inject_Z 0). rewrite <- Zle_Qle. apply Z.pow_nonneg. lia. }
  destruct (Nat.eqb_spec f 0) as [E | _]; [contradiction |].
  set (m := if (length (decimal n) <=? f)%nat
            then repeat "0"%char (f + 1 - length (decimal n)) ++ decimal n
            else decimal n).
  assert (Hdigits : forallb is_digit m = true).
  { unfold m. destruct (length (decimal n) <=? f)%nat; [| now apply decimal_digits].
    rewrite forallb_app, (decimal_digits n Hn), andb_true_r.
    apply forallb_forall. intros c Hc. apply repeat_spec in Hc. now subst c. }
  assert (Hlen : (f < length m)%nat).
  { unfold m. destruct (Nat.leb_spec (length (decimal n)) f) as [L | L]; [| exact L].
    rewrite length_app, repeat_length. lia. }
  assert (Hval : digits_value m = n).
  { unfold m. destruct (length (decimal n) <=? f)%nat; [| now apply decimal_value].
    rewrite digits_value_app, digits_value_zeros, decimal_value by exact Hn. lia. }
  exists (firstn (length m - f) m), (skipn (length m - f) m).
  rewrite firstn_skipn.
  rewrite <- (firstn_skipn (length m - f) m), forallb_app in Hdigits.
  apply andb_prop in Hdigits. destruct Hdigits as [Ha Hb].
  repeat split; try assumption.
  - intros E. apply (f_equal (@length ascii)) in E.
    rewrite length_firstn in E. simpl in E. lia.
  - rewrite length_skipn. lia.
Qed.

(** [round_to f x] is a multiple of 10^-f at most half of 10^-f away from
    [x]. *)
Lemma round_to_nearest (f : nat) (x : Q) :
  (Qabs (Spec.round_to f x - x) * inject_Z (10 ^ Z.of_nat f) <= 1 # 2)%Q.
Proof.
  unfold Spec.round_to.
  set (p := inject_Z (10 ^ Z.of_nat f)).
  set (n := Qfloor (Qabs x * p + (1 # 2))).
  assert (Hp : (0 < p)%Q).
  { unfold p. change 0%Q with (inject_Z 0). rewrite <- Zlt_Qlt.
    apply Z.pow_pos_nonneg; lia. }
  pose proof (Qfloor_le (Qabs x * p + (1 # 2))) as Hlo.
  pose proof (Qlt_floor (Qabs x * p + (1 # 2))) as Hhi.
  fold n in Hlo, Hhi. rewrite inject_Z_plus in Hhi.
  clearbody n.
  assert (Habs : forall d, (Qabs d * p == Qabs (d * p))%Q).
  { intros d. rewrite Qabs_Qmult, (Qabs_pos p) by now apply Qlt_le_weak. reflexivity. }
  destruct (Qltb x 0) eqn:E.
  - apply Qltb_lt in E. rewrite (Qabs_neg x) in Hlo, Hhi by now apply Qlt_le_weak.
    rewrite Habs. apply Qabs_Qle_condition.
    assert (D : ((- (inject_Z n / p) - x) * p == - inject_Z n - x * p)%Q)
      by (field; intros C; rewrite C in Hp; now apply Qlt_irrefl in Hp).
    rewrite D. change (inject_Z 1) with 1%Q in Hhi.
    set (m := inject_Z n) in *. set (xp := (x * p)%Q) in *.
    assert (N : (- x * p == - xp)%Q) by (unfold xp; ring).
    rewrite N in Hlo, Hhi. clearbody m xp p. split; lra.
  - apply Qltb_ge in E. rewrite (Qabs_pos x) in Hlo, Hhi by exact E.
    rewrite Habs. apply Qabs_Qle_condition.
    assert (D : ((inject_Z n / p - x) * p == inject_Z n - x * p)%Q)
      by (field; intros C; rewrite C in Hp; now apply Qlt_irrefl in Hp).
    rewrite D. change (inject_Z 1) with 1%Q in Hhi.
    set (m := inject_Z n) in *. set (xp := (x * p)%Q) in *.
    clearbody m xp p. split; lra.
Qed.

(** Reading back what [toFixed] wrote gives the number rounded to [f]
    decimals. *)
Lemma parseFloat_toFixed (f : nat) (x : Q) :
  f <> 0%nat ->
  exists q, parseFloat (toFixed f x) = Some q /\ (q == Spec.round_to f x)%Q.
Proof.
  intros Hf.
  destruct (toFixed_shape f x Hf) as (a & b & -> & Ha & Hda & Hdb & Hlen & Hval).
  unfold parseFloat, Spec.round_to.
  rewrite list_ascii_of_string_append, list_ascii_of_string_of_list_ascii.
  destruct a as [| c a]; [contradiction |].
  pose proof Hda as Hc. simpl in Hc. apply andb_prop in Hc. destruct Hc as [Hc _].
  assert (Hsign : read_sign (trim_start
                    (list_ascii_of_string (if Qltb x 0 then "-" else "")
                     ++ (c :: a) ++ "."%char :: b))
                  = (Qltb x 0, (c :: a) ++ "."%char :: b)).
  { destruct (Qltb x 0); simpl.
    - reflexivity.
    - rewrite (digit_not_space c Hc).
      change (c :: a ++ "."%char :: b) with (c :: (a ++ "."%char :: b)).
      now rewrite read_sign_digit. }
  rewrite Hsign.
  rewrite (span_digits_run (c :: a) ("."%char :: b) Hda eq_refl).
  change (Ascii.eqb "." ".") with true. cbv iota.
  replace (span_digits b) with (b, @nil ascii)
    by (rewrite <- (span_digits_run b [] Hdb I); now rewrite app_nil_r).
  exists (let v := ((inject_Z (digits_value (c :: a))
                     + inject_Z (digits_value b) / inject_Z (10 ^ Z.of_nat (length b)))
                    * Qpower 10 (read_exponent []))%Q in
          if Qltb x 0 then (- v)%Q else v).
  split; [reflexivity |].
  rewrite <- Hval, digits_value_app, Hlen.
  assert (Hp : ~ (inject_Z (10 ^ Z.of_nat f) == 0)%Q).
  { change 0%Q with (inject_Z 0). rewrite inject_Z_injective.
    apply Z.pow_nonzero; lia. }
  cbv zeta. change (Qpower 10 (read_exponent [])) with 1%Q.
  rewrite inject_Z_plus, inject_Z_mult.
  destruct (Qltb x 0); field; exact Hp.
Qed.

Example parseFloat_toFixed_sample :
  parseFloat (toFixed 2 (12345 # 1000)) = Some (1235 # 100)
  /\ toFixed 2 (12345 # 1000) = "12.35".
Proof. vm_compute. split; reflexivity. Qed.

End FormatFacts.

(** ** latencySeries and recentLog *)

Module SliceFacts.
Import JS Types Dashboard NumberFacts FormatFacts.

(** [a.slice(-n)] is the last [n] elements of [a]. *)
Lemma Array_slice_last {A} (n : nat) (a : list A) :
  (0 < n)%nat -> Array_slice (- Z.of_nat n) a = Spec.last_n n a.
Proof.
  intros Hn. unfold Array_slice, Spec.last_n.
  destruct (Z.ltb_spec (- Z.of_nat n) 0) as [_ | C]; [| lia].
  f_equal. lia.
Qed.

Lemma last_n_length {A} (n : nat) (a : list A) :
  (n <= length a)%nat -> length (Spec.last_n n a) = n.
Proof.
  intros H. unfold Spec.last_n. rewrite length_skipn. lia.
Qed.

(** The last [n] elements are the elements from position [length a - n]
    on. *)
Lemma last_n_nth {A} (n i : nat) (a : list A) :
  nth_error (Spec.last_n n a) i = nth_error a (length a - n + i).
Proof.
  unfold Spec.last_n. apply nth_error_skipn.
Qed.

Lemma Array_map_from_names {A B} (f : A -> nat -> B) (g : B -> nat) (a : list A) (i : nat) :
  (forall x k, g (f x k) = k) ->
  map g (Array_map_from i f a) = seq i (length a).
Proof.
  intros Hg. revert i. induction a as [| x a IH]; intros i; simpl; [reflexivity |].
  rewrite Hg, IH. reflexivity.
Qed.

Lemma Array_map_from_each {A B} (f : A -> nat -> B) (R : B -> A -> Prop) (a : list A) (i : nat) :
  (forall x k, R (f x k) x) -> Forall2 R (Array_map_from i f a) a.
Proof.
  intros HR. revert i. induction a as [| x a IH]; intros i; simpl; constructor.
  - apply HR.
  - apply IH.
Qed.

Lemma sorted_app {A} (R : A -> A -> Prop) (l1 l2 : list A) :
  StronglySorted R (l1 ++ l2) -> forall a b, In a l1 -> In b l2 -> R a b.
Proof.
  induction l1 as [| x l1 IH]; intros S a b Ha Hb; [destruct Ha |].
  simpl in S. apply StronglySorted_inv in S. destruct S as [S F].
  destruct Ha as [-> | Ha].
  - rewrite List.Forall_forall in F. apply F. apply in_or_app. now right.
  - now apply IH.
Qed.

Section LatencySeries.

Variable toLocaleTimeString : Q -> string.

(** C3, as amended.  On a sequence of 30 records or more [latencyData]
    answers 30 points, one for each of the last 30 records and in their
    order; the points are numbered from 0, a point holds the response time
    of its record rounded to 2 decimals (0 for a missing one), and it holds
    the clock time the host shows for the record's time stamp when the time
    stamp is there and is not 0, the empty string otherwise. *)
Theorem latencyData_last_30 (metrics : list MetricData) :
  (30 <= length metrics)%nat ->
  length (latencyData toLocaleTimeString metrics) = 30%nat
  /\ map LatencyPoint.name (latencyData toLocaleTimeString metrics) = seq 0 30
  /\ Forall2
       (fun point m =>
          (exists q, LatencyPoint.ms point = Some q
                     /\ (q == Spec.round_to 2 (Spec.latency m))%Q)
          /\ LatencyPoint.time point
             = if truthy_number (timestampMs m)
               then toLocaleTimeString (Spec.timestamp m)
               else "")
       (latencyData toLocaleTimeString metrics) (Spec.last_n 30 metrics).
Proof.
  intros Hlen. unfold latencyData, Array_map.
  change (Array_slice (-30) metrics) with (Array_slice (- Z.of_nat 30) metrics).
  rewrite (Array_slice_last 30 metrics) by lia.
  assert (Hnames : map LatencyPoint.name
            (Array_map_from 0
               (fun m i =>
                  {| LatencyPoint.name := i;
                     LatencyPoint.ms := parseFloat (toFixed 2 (or_zero (responseTimeMs m)));
                     LatencyPoint.time :=
                       if truthy_number (timestampMs m)
                       then toLocaleTimeString (or_zero (timestampMs m))
                       else "" |})
               (Spec.last_n 30 metrics)) = seq 0 30).
  { rewrite Array_map_from_names by reflexivity.
    now rewrite last_n_length. }
  split; [| split].
  - rewrite <- (length_map LatencyPoint.name), Hnames. apply length_seq.
  - exact Hnames.
  - apply Array_map_from_each. intros m k. simpl. split; [| reflexivity].
    destruct (parseFloat_toFixed 2 (or_zero (responseTimeMs m))) as (q & Hq & Eq);
      [discriminate |].
    exists q. split; assumption.
Qed.

End LatencySeries.

(** The statement of C3 fails where a record has no time stamp to show:
    a record stamped 0, the first instant of the epoch, gets the empty
    string and not the clock time of that instant. *)
Lemma latencyData_time_may_be_empty :
  ~ (forall (toLocaleTimeString : Q -> string) (metrics : list MetricData),
        (30 <= length metrics)%nat ->
        Forall2 (fun point m =>
                   LatencyPoint.time point = toLocaleTimeString (Spec.timestamp m))
          (latencyData toLocaleTimeString metrics) (Spec.last_n 30 metrics)).
Proof.
  intros H.
  specialize (H Samples.clock_utc
                (repeat (Samples.metric (Some "GET") (Some 12%Q) (Some 200%Q) (Some 0%Q)) 30)).
  assert (L : (30 <= length (repeat (Samples.metric (Some "GET") (Some 12%Q)
                                      (Some 200%Q) (Some 0%Q)) 30))%nat)
    by (rewrite repeat_length; lia).
  specialize (H L).
  remember (latencyData _ _) as points eqn:Ep in H.
  remember (Spec.last_n _ _) as records eqn:Er in H.
  vm_compute in Ep, Er. subst points records.
  inversion H as [| p m ps ms' Hhead _]. vm_compute in Hhead. discriminate Hhead.
Qed.

Lemma latencyData_last_30_witness :
  (30 <= length (repeat (Samples.metric None None None None) 45))%nat
  /\ length (latencyData Samples.clock_utc (repeat (Samples.metric None None None None) 45))
     = 30%nat.
Proof.
  split.
  - vm_compute. lia.
  - apply (latencyData_last_30 Samples.clock_utc
             (repeat (Samples.metric None None None None) 45)).
    vm_compute. lia.
Defined.

(** The specification's example: of 45 records, numbered here by their
    response times, the last 30 are charted, in their order. *)
Example latencyData_45 :
  map (fun point => (LatencyPoint.name point, option_map Qred (LatencyPoint.ms point)))
    (latencyData Samples.clock_utc
       (map (fun i => Samples.metric None (Some (inject_Z (Z.of_nat i))) None None)
          (seq 1 45)))
  = map (fun i => (i, Some (inject_Z (Z.of_nat (i + 16))))) (seq 0 30).
Proof. vm_compute. reflexivity. Qed.

(** C5.  On a sequence of 10 records or more the rows of "Recent
    Requests" are 10, they are the last 10 records in reversed order, row
    [i] being the record [i] places before the last one; so when the
    sequence ascends by time stamp, as [fetchData] leaves it, no record is
    more recent than the first row. *)
Theorem recentLog_last_10_reversed (metrics : list MetricData) :
  (10 <= length metrics)%nat ->
  length (recentLog metrics) = 10%nat
  /\ recentLog metrics = rev (Spec.last_n 10 metrics)
  /\ (forall i, (i < 10)%nat ->
        nth_error (recentLog metrics) i = nth_error metrics (length metrics - 1 - i))
  /\ (StronglySorted Spec.ascending metrics ->
      exists first, nth_error (recentLog metrics) 0 = Some first
                    /\ forall m, In m metrics -> Spec.ascending m first).
Proof.
  intros Hlen.
  assert (E : recentLog metrics = rev (Spec.last_n 10 metrics)).
  { unfold recentLog, Array_reverse.
    change (Array_slice (-10) metrics) with (Array_slice (- Z.of_nat 10) metrics).
    now rewrite (Array_slice_last 10 metrics) by lia. }
  assert (L : length (recentLog metrics) = 10%nat).
  { rewrite E, length_rev. now apply last_n_length. }
  split; [exact L |]. split; [exact E |]. split.
  - intros i Hi. rewrite E, nth_error_rev, (last_n_length 10 metrics Hlen).
    destruct (Nat.ltb_spec i 10) as [_ | C]; [| lia].
    rewrite last_n_nth. f_equal. lia.
  - intros Hsorted.
    destruct (recentLog metrics) as [| first rows] eqn:R; [discriminate L |].
    exists first. split; [reflexivity |].
    assert (Hsplit : metrics = (firstn (length metrics - 10) metrics ++ rev rows) ++ [first]).
    { rewrite <- app_assoc. change (rev rows ++ [first]) with (rev (first :: rows)).
      rewrite E, rev_involutive. unfold Spec.last_n. now rewrite firstn_skipn. }
    intros m Hm. rewrite Hsplit in Hm, Hsorted.
    apply in_app_or in Hm. destruct Hm as [Hm | [<- | []]].
    + apply (sorted_app _ _ _ Hsorted m first Hm). now left.
    + apply Qle_refl.
Qed.

Lemma recentLog_last_10_reversed_witness :
  (10 <= length (map (fun t => Samples.metric None None None (Some (inject_Z t)))
                   [1; 2; 3; 4; 5; 6; 7; 8; 9; 10; 11; 12; 13; 14; 15]%Z))%nat
  /\ map timestampMs
       (recentLog (map (fun t => Samples.metric None None None (Some (inject_Z t)))
                     [1; 2; 3; 4; 5; 6; 7; 8; 9; 10; 11; 12; 13; 14; 15]%Z))
     = map (fun t => Some (inject_Z t)) [15; 14; 13; 12; 11; 10; 9; 8; 7; 6]%Z.
Proof.
  split.
  - vm_compute. lia.
  - destruct (recentLog_last_10_reversed
                (map (fun t => Samples.metric None None None (Some (inject_Z t)))
                   [1; 2; 3; 4; 5; 6; 7; 8; 9; 10; 11; 12; 13; 14; 15]%Z))
      as (_ & E & _).
    + vm_compute. lia.
    + rewrite E. reflexivity.
Defined.

End SliceFacts.

(** ** methodFrequency *)

Module ObjectFacts.
Import JS.

Lemma own_get_update {V} (k x : string) (v : V) (o : list (string * V)) :
  own_get k (own_update x v o)
  = if String.eqb k x then option_map (fun _ => v) (own_get x o) else own_get k o.
Proof.
  induction o as [| [k' v'] o IH]; simpl.
  - now destruct (String.eqb k x).
  - destruct (String.eqb_spec x k') as [<- | Hx]; simpl.
    + destruct (String.eqb_spec k x) as [-> | Hk]; [reflexivity |].
      reflexivity.
    + rewrite IH. destruct (String.eqb_spec k k') as [<- | Hk'].
      * destruct (String.eqb_spec k x) as [-> | _]; [contradiction | reflexivity].
      * reflexivity.
Qed.

Lemma own_update_keys {V} (x : string) (v : V) (o : list (string * V)) :
  map fst (own_update x v o) = map fst o.
Proof.
  induction o as [| [k' v'] o IH]; simpl; [reflexivity |].
  destruct (String.eqb x k'); simpl; [reflexivity | now rewrite IH].
Qed.

Lemma own_get_app {V} (k : string) (o o' : list (string * V)) :
  own_get k (o ++ o')
  = match own_get k o with
    | Some v => Some v
    | None => own_get k o'
    end.
Proof.
  induction o as [| [k' v'] o IH]; simpl; [reflexivity |].
  now destruct (String.eqb k k').
Qed.

Lemma own_get_None {V} (k : string) (o : list (string * V)) :
  own_get k o = None <-> ~ In k (map fst o).
Proof.
  induction o as [| [k' v'] o IH]; simpl; [tauto |].
  destruct (String.eqb_spec k k') as [<- | Hk].
  - split; [discriminate | intros H; exfalso; apply H; now left].
  - rewrite IH. split; [intros H [E | I]; [congruence | tauto] | tauto].
Qed.

(** With keys that are all different, a property is read as it is listed. *)
Lemma own_get_In {V} (k : string) (v : V) (o : list (string * V)) :
  List.NoDup (map fst o) -> In (k, v) o -> own_get k o = Some v.
Proof.
  induction o as [| [k' v'] o IH]; simpl; intros N H; [destruct H |].
  apply NoDup_cons_iff in N. destruct N as [Nk N].
  destruct H as [E | H].
  - inversion E; subst. now rewrite String.eqb_refl.
  - destruct (String.eqb_spec k k') as [<- | _]; [| now apply IH].
    exfalso. apply Nk. apply in_map_iff. now exists (k, v).
Qed.

Lemma array_index_inj (a b : string) (n : Z) :
  array_index a = Some n -> array_index b = Some n -> a = b.
Proof.
  unfold array_index. intros Ha Hb.
  destruct (forallb is_digit (list_ascii_of_string a)
            && String.eqb a (string_of_list_ascii (decimal (digits_value (list_ascii_of_string a))))
            && (digits_value (list_ascii_of_string a) <? 2 ^ 32 - 1)%Z) eqn:Ea; [| discriminate].
  destruct (forallb is_digit (list_ascii_of_string b)
            && String.eqb b (string_of_list_ascii (decimal (digits_value (list_ascii_of_string b))))
            && (digits_value (list_ascii_of_string b) <? 2 ^ 32 - 1)%Z) eqn:Eb; [| discriminate].
  apply andb_prop in Ea. destruct Ea as [Ea _]. apply andb_prop in Ea. destruct Ea as [_ Ea].
  apply andb_prop in Eb. destruct Eb as [Eb _]. apply andb_prop in Eb. destruct Eb as [_ Eb].
  apply String.eqb_eq in Ea. apply String.eqb_eq in Eb.
  inversion Ha as [Ha']. inversion Hb as [Hb'].
  rewrite Ha' in Ea. rewrite Hb' in Eb. congruence.
Qed.

Lemma index_before_trans (a b c : string) :
  Spec.index_before a b -> Spec.index_before b c -> Spec.index_before a c.
Proof.
  unfold Spec.index_before.
  destruct (array_index a), (array_index b), (array_index c); try tauto. lia.
Qed.

(** A new array-index key lands among the array-index keys, which stay in
    the order of their numbers; the keys after them are left where they
    are. *)
Lemma own_insert_index_sorted {V} (n : Z) (x : string) (v : V)
      (indices others : list (string * V)) :
  array_index x = Some n ->
  ~ In x (map fst indices) ->
  StronglySorted Spec.index_before (map fst indices) ->
  Forall (fun k => is_array_index k = true) (map fst indices) ->
  Forall (fun k => is_array_index k = false) (map fst others) ->
  exists indices',
    own_insert_index n x v (indices ++ others) = indices' ++ others
    /\ Permutation (indices') ((x, v) :: indices)
    /\ StronglySorted Spec.index_before (map fst indices').
Proof.
  intros Hx. induction indices as [| [k' v'] indices IH]; intros Hnew Hsorted Hidx Hoth.
  - exists [(x, v)]. simpl. split; [| split; [reflexivity | repeat constructor]].
    destruct others as [| [k' v'] others]; [reflexivity |]. simpl.
    inversion Hoth as [| ? ? Hk' _]; subst. simpl in Hk'.
    unfold is_array_index in Hk'. now destruct (array_index k').
  - simpl in Hnew, Hsorted, Hidx. apply StronglySorted_inv in Hsorted.
    destruct Hsorted as [Hsorted Hfirst].
    inversion Hidx as [| ? ? Hk' Hidx']; subst.
    unfold is_array_index in Hk'. simpl.
    destruct (array_index k') as [n' |] eqn:En'; [| discriminate].
    destruct (Z.ltb_spec n' n) as [Hlt | Hge].
    + destruct IH as (indices' & E & P & S); try assumption; [tauto |].
      exists ((k', v') :: indices'). rewrite E. split; [reflexivity |]. split.
      * rewrite P. apply perm_swap.
      * simpl. constructor; [exact S |].
        apply (Permutation_Forall (Permutation_sym (Permutation_map fst P))).
        simpl. constructor; [| exact Hfirst].
        unfold Spec.index_before. now rewrite En', Hx.
    + assert (Hne : n <> n').
      { intros ->. apply Hnew. left. symmetry. eapply array_index_inj; eassumption. }
      assert (Hbefore : Spec.index_before x k').
      { unfold Spec.index_before. rewrite Hx, En'. lia. }
      exists ((x, v) :: (k', v') :: indices). split; [reflexivity |].
      split; [reflexivity |]. simpl.
      constructor; [constructor; assumption |].
      constructor; [exact Hbefore |].
      eapply List.Forall_impl; [| exact Hfirst].
      intros k Hk. eapply index_before_trans; eassumption.
Qed.

End ObjectFacts.

Module MethodFacts.
Import JS Types Dashboard ObjectFacts.

Lemma existsb_eqb_In (k : string) (l : list string) :
  existsb (String.eqb k) l = true <-> In k l.
Proof.
  rewrite existsb_exists. split.
  - intros (x & Hx & E). apply String.eqb_eq in E. now subst.
  - intros H. exists k. split; [exact H | apply String.eqb_refl].
Qed.

Lemma occurrences_snoc (k x : string) (l : list string) :
  Spec.occurrences k (l ++ [x])
  = (Spec.occurrences k l + if String.eqb k x then 1 else 0)%nat.
Proof.
  unfold Spec.occurrences. induction l as [| y l IH]; simpl.
  - destruct (String.eqb k x); reflexivity.
  - rewrite IH. destruct (String.eqb k y); reflexivity.
Qed.

Lemma occurrences_In (k : string) (l : list string) :
  In k l -> Spec.occurrences k l <> 0%nat.
Proof.
  unfold Spec.occurrences. induction l as [| y l IH]; simpl; [tauto |].
  intros [-> | H].
  - rewrite String.eqb_refl. discriminate.
  - destruct (String.eqb k y); [discriminate | now apply IH].
Qed.

Lemma occurrences_not_In (k : string) (l : list string) :
  ~ In k l -> Spec.occurrences k l = 0%nat.
Proof.
  unfold Spec.occurrences. induction l as [| y l IH]; simpl; [reflexivity |].
  intros H. destruct (String.eqb_spec k y) as [-> | _]; [tauto | apply IH; tauto].
Qed.

Lemma first_occurrences_snoc (seen xs : list string) (k : string) :
  Spec.first_occurrences seen (xs ++ [k])
  = Spec.first_occurrences seen xs
    ++ if existsb (String.eqb k) seen || existsb (String.eqb k) xs then [] else [k].
Proof.
  revert seen. induction xs as [| x xs IH]; intros seen; simpl.
  - rewrite orb_false_r. now destruct (existsb (String.eqb k) seen).
  - destruct (existsb (String.eqb x) seen) eqn:Ex.
    + rewrite IH. f_equal.
      destruct (String.eqb_spec k x) as [-> | _]; [| reflexivity].
      now rewrite Ex.
    + simpl. rewrite IH. f_equal. f_equal. simpl.
      destruct (String.eqb k x), (existsb (String.eqb k) seen); reflexivity.
Qed.

Lemma first_occurrences_In (seen xs : list string) (k : string) :
  In k (Spec.first_occurrences seen xs) <-> In k xs /\ ~ In k seen.
Proof.
  revert seen. induction xs as [| x xs IH]; intros seen; simpl; [tauto |].
  destruct (existsb (String.eqb x) seen) eqn:Ex.
  - apply existsb_eqb_In in Ex. rewrite IH.
    split; [tauto |]. intros [[-> | H] N]; tauto.
  - assert (Nx : ~ In x seen).
    { intros H. apply existsb_eqb_In in H. congruence. }
    simpl. rewrite IH. simpl. split.
    + intros [<- | [H N]]; tauto.
    + intros [[<- | H] N]; [now left |].
      destruct (String.eqb_spec x k) as [-> | D]; [now left | right; tauto].
Qed.

Lemma own_update_app {V} (x : string) (v : V) (a b : list (string * V)) :
  own_update x v (a ++ b)
  = if existsb (String.eqb x) (map fst a) then own_update x v a ++ b
    else a ++ own_update x v b.
Proof.
  induction a as [| [k' v'] a IH]; simpl; [reflexivity |].
  destruct (String.eqb x k'); simpl; [reflexivity |].
  rewrite IH. now destruct (existsb (String.eqb x) (map fst a)).
Qed.

Lemma own_update_In {V} (x : string) (v : V) (o : list (string * V)) (k : string) (w : V) :
  List.NoDup (map fst o) ->
  In (k, w) (own_update x v o) ->
  (k = x /\ w = v) \/ (k <> x /\ In (k, w) o).
Proof.
  induction o as [| [k' v'] o IH]; simpl; intros N H; [destruct H |].
  apply NoDup_cons_iff in N. destruct N as [Nk N].
  destruct (String.eqb_spec x k') as [<- | D].
  - destruct H as [E | H].
    + inversion E; subst. now left.
    + right. split; [| now right].
      intros ->. apply Nk. apply in_map_iff. now exists (x, w).
  - destruct H as [E | H].
    + inversion E; subst. right. split; [congruence | now left].
    + destruct (IH N H) as [L | [Hk Hin]]; [now left | right; split; [exact Hk | now right]].
Qed.

(** The value [counts[method] || 0] plus one, for a label counted [c]
    times so far. *)
Lemma next_count (c : nat) :
  plus_one (value_or_zero
              (if (c =? 0)%nat then None else Some (VNumber (inject_Z (Z.of_nat c)))))
  = VNumber (inject_Z (Z.of_nat (c + 1))).
Proof.
  destruct c as [| c]; [reflexivity |].
  change (S c =? 0)%nat with false. cbv iota. unfold value_or_zero.
  assert (E : Qeq_bool (inject_Z (Z.of_nat (S c))) 0 = false).
  { apply not_true_iff_false. rewrite Qeq_bool_iff.
    change 0%Q with (inject_Z 0). rewrite inject_Z_injective. lia. }
  rewrite E. unfold plus_one, Qplus, inject_Z. simpl Qnum. simpl Qden.
  f_equal. f_equal. lia.
Qed.


Lemma own_get_Some_In {V} (k : string) (v : V) (o : list (string * V)) :
  own_get k o = Some v -> In (k, v) o.
Proof.
  induction o as [| [k' v'] o IH]; simpl; [discriminate |].
  destruct (String.eqb_spec k k') as [<- | _].
  - intros E. inversion E. now left.
  - intros E. right. now apply IH.
Qed.

Lemma others_snoc (done : list string) (x : string) :
  Spec.first_occurrences []
    (List.filter (fun k => negb (is_array_index k)) (done ++ [x]))
  = Spec.first_occurrences [] (List.filter (fun k => negb (is_array_index k)) done)
    ++ if negb (is_array_index x) && negb (existsb (String.eqb x) done) then [x] else [].
Proof.
  rewrite List.filter_app. simpl.
  destruct (negb (is_array_index x)) eqn:Ex; simpl.
  - rewrite first_occurrences_snoc. simpl. f_equal.
    replace (existsb (String.eqb x)
               (List.filter (fun k => negb (is_array_index k)) done))
      with (existsb (String.eqb x) done); [now destruct (existsb (String.eqb x) done) |].
    apply eq_true_iff_eq. rewrite !existsb_eqb_In, List.filter_In. tauto.
  - now rewrite !app_nil_r.
Qed.

(** The keys of [counts] are the labels counted so far. *)
Lemma tally_keys (done : list string) (o : list (string * JS.value)) (k : string) :
  Spec.tally done o -> In k (map fst o) <-> In k done.
Proof.
  intros (indices & others & -> & _ & Hmem & Hoth & _ & _).
  rewrite map_app, in_app_iff, Hmem, Hoth, first_occurrences_In, List.filter_In.
  destruct (is_array_index k); simpl; intuition congruence.
Qed.

Lemma tally_get (done : list string) (o : list (string * JS.value)) (x : string) :
  Spec.tally done o ->
  own_get x o
  = if (Spec.occurrences x done =? 0)%nat then None
    else Some (VNumber (inject_Z (Z.of_nat (Spec.occurrences x done)))).
Proof.
  intros T. pose proof (tally_keys done o x T) as Hkeys.
  destruct T as (indices & others & -> & _ & _ & _ & _ & Hvals).
  destruct (own_get x (indices ++ others)) as [v |] eqn:G.
  - pose proof (own_get_Some_In _ _ _ G) as Hin.
    rewrite List.Forall_forall in Hvals. specialize (Hvals _ Hin). simpl in Hvals.
    assert (Hx : In x done).
    { apply Hkeys. apply in_map_iff. now exists (x, v). }
    apply occurrences_In in Hx. apply Nat.eqb_neq in Hx. now rewrite Hx, Hvals.
  - apply own_get_None in G. rewrite Hkeys in G.
    now rewrite (occurrences_not_In _ _ G).
Qed.

(** One round of the loop of [methodData], for a label that
    [Object.prototype] has no property of. *)
Lemma tally_step (done : list string) (o : list (string * JS.value)) (x : string) :
  on_Object_prototype x = false ->
  Spec.tally done o ->
  Spec.tally (done ++ [x]) (Set_ o x (plus_one (value_or_zero (Get o x)))).
Proof.
  intros Hproto T.
  apply orb_false_elim in Hproto. destruct Hproto as [Hp1 Hp2].
  pose proof (tally_get done o x T) as Hget.
  pose proof (tally_keys done o x T) as Hkey.
  assert (Hread : Get o x = own_get x o).
  { unfold Get. destruct (own_get x o); [reflexivity | now rewrite Hp1, Hp2]. }
  rewrite Hread, Hget, next_count.
  set (v := VNumber (inject_Z (Z.of_nat (Spec.occurrences x done + 1)))).
  assert (Hv : v = VNumber (inject_Z (Z.of_nat (Spec.occurrences x (done ++ [x]))))).
  { unfold v. now rewrite occurrences_snoc, String.eqb_refl. }
  assert (Hold : forall k, k <> x ->
            Spec.occurrences k (done ++ [x]) = Spec.occurrences k done).
  { intros k D. rewrite occurrences_snoc.
    destruct (String.eqb_spec k x); [contradiction | lia]. }
  destruct T as (indices & others & -> & Hsorted & Hmem & Hoth & Hnodup & Hvals).
  unfold Set_, own_define.
  destruct (own_get x (indices ++ others)) as [w |] eqn:G.
  - (* the label has been counted before *)
    assert (Hx : In x done).
    { apply Hkey. apply own_get_Some_In in G. apply in_map_iff. now exists (x, w). }
    assert (Hexists : existsb (String.eqb x) done = true) by now apply existsb_eqb_In.
    assert (Hvals' : Forall
              (fun kv => snd kv
                 = VNumber (inject_Z (Z.of_nat (Spec.occurrences (fst kv) (done ++ [x])))))
              (own_update x v (indices ++ others))).
    { apply List.Forall_forall. intros [k u] Hin. simpl.
      destruct (own_update_In _ _ _ _ _ Hnodup Hin) as [[-> ->] | [D Hin']].
      - exact Hv.
      - rewrite List.Forall_forall in Hvals. specialize (Hvals _ Hin').
        simpl in Hvals. now rewrite Hold. }
    assert (Hnodup' : List.NoDup (map fst (own_update x v (indices ++ others))))
      by now rewrite own_update_keys.
    assert (Hmem' : forall k, In k (map fst indices)
                              <-> In k (done ++ [x]) /\ is_array_index k = true).
    { intros k. rewrite Hmem, in_app_iff. simpl.
      split; [tauto |]. intros [[H | [<- | []]] I]; tauto. }
    assert (Hoth' : map fst others
                    = Spec.first_occurrences []
                        (List.filter (fun k => negb (is_array_index k)) (done ++ [x]))).
    { now rewrite others_snoc, Hexists, andb_false_r, app_nil_r. }
    revert Hvals' Hnodup'. rewrite own_update_app. intros Hvals' Hnodup'.
    destruct (existsb (String.eqb x) (map fst indices)).
    + exists (own_update x v indices), others. rewrite own_update_keys.
      split; [reflexivity |]. split; [exact Hsorted |]. split; [exact Hmem' |].
      split; [exact Hoth' |]. split; [exact Hnodup' | exact Hvals'].
    + exists indices, (own_update x v others). rewrite own_update_keys.
      split; [reflexivity |]. split; [exact Hsorted |]. split; [exact Hmem' |].
      split; [exact Hoth' |]. split; [exact Hnodup' | exact Hvals'].
  - (* a new label *)
    assert (Hnew : ~ In x (map fst (indices ++ others))) by now apply own_get_None.
    assert (Hx : ~ In x done) by now rewrite <- Hkey.
    assert (Hexists : existsb (String.eqb x) done = false).
    { apply not_true_iff_false. now rewrite existsb_eqb_In. }
    assert (Hkeep : Forall
              (fun kv => snd kv
                 = VNumber (inject_Z (Z.of_nat (Spec.occurrences (fst kv) (done ++ [x])))))
              (indices ++ others)).
    { apply List.Forall_forall. intros [k u] Hin. simpl.
      rewrite List.Forall_forall in Hvals. specialize (Hvals _ Hin). simpl in Hvals.
      rewrite Hold; [exact Hvals |].
      intros ->. apply Hnew. apply in_map_iff. now exists (x, u). }
    rewrite Hp1.
    destruct (array_index x) as [n |] eqn:Ex.
    + (* an array index: it goes among the indices *)
      assert (Hidx : is_array_index x = true) by (unfold is_array_index; now rewrite Ex).
      destruct (own_insert_index_sorted n x v indices others Ex) as (indices' & E & P & S).
      * intros H. apply Hnew. rewrite map_app. apply in_or_app. now left.
      * exact Hsorted.
      * apply List.Forall_forall. intros k Hk. now apply Hmem in Hk.
      * apply List.Forall_forall. intros k Hk. rewrite Hoth in Hk.
        apply first_occurrences_In in Hk. destruct Hk as [Hk _].
        apply List.filter_In in Hk. destruct Hk as [_ Hk]. now apply negb_true_iff in Hk.
      * exists indices', others. rewrite E.
        assert (Pall : Permutation (indices' ++ others) ((x, v) :: indices ++ others)).
        { rewrite P. reflexivity. }
        split; [reflexivity |]. split; [exact S |]. split; [| split; [| split]].
        -- intros k. rewrite (Permutation_in' (eq_refl k) (Permutation_map fst P)).
           simpl. rewrite Hmem, in_app_iff. simpl.
           split; [intros [<- | [H I]]; tauto |].
           intros [[H | [<- | []]] I]; tauto.
        -- now rewrite others_snoc, Hidx, app_nil_r.
        -- apply (Permutation_NoDup (Permutation_sym (Permutation_map fst Pall))).
           simpl. now constructor.
        -- apply (Permutation_Forall (Permutation_sym Pall)).
           constructor; [exact Hv | exact Hkeep].
    + (* any other key: it goes last *)
      assert (Hidx : is_array_index x = false) by (unfold is_array_index; now rewrite Ex).
      exists indices, (others ++ [(x, v)]). rewrite app_assoc.
      split; [reflexivity |]. split; [exact Hsorted |]. split; [| split; [| split]].
      * intros k. rewrite Hmem, in_app_iff. simpl.
        split; [tauto |]. intros [[H | [<- | []]] I]; [tauto | congruence].
      * rewrite map_app, Hoth, others_snoc, Hidx, Hexists. reflexivity.
      * rewrite map_app. simpl.
        apply (Permutation_NoDup (Permutation_cons_append (map fst (indices ++ others)) x)).
        now constructor.
      * apply Forall_app. split; [exact Hkeep |]. constructor; [exact Hv | constructor].
Qed.


Lemma tally_empty : Spec.tally [] [].
Proof.
  exists [], []. simpl.
  split; [reflexivity |]. split; [constructor |]. split; [tauto |].
  split; [reflexivity |]. split; constructor.
Qed.

Lemma tally_loop (metrics : list MetricData) (done : list string)
      (o : list (string * JS.value)) :
  Forall (fun m => on_Object_prototype (method_label m) = false) metrics ->
  Spec.tally done o ->
  Spec.tally (done ++ map method_label metrics)
    (fold_left
       (fun counts m =>
          let method := method_label m in
          Set_ counts method (plus_one (value_or_zero (Get counts method))))
       metrics o).
Proof.
  intros Hall. revert done o.
  induction Hall as [| m metrics Hm Hall IH]; intros done o T; simpl.
  - now rewrite app_nil_r.
  - change (done ++ method_label m :: map method_label metrics)
      with (done ++ [method_label m] ++ map method_label metrics).
    rewrite app_assoc. apply IH. now apply tally_step.
Qed.

Lemma tally_entries (labels : list string) (o : list (string * JS.value)) :
  Forall (fun kv => snd kv
            = VNumber (inject_Z (Z.of_nat (Spec.occurrences (fst kv) labels)))) o ->
  map (fun '(name, value) => {| MethodCount.name := name; MethodCount.value := value |}) o
  = map (Spec.method_count labels) (map fst o).
Proof.
  induction 1 as [| [k v] o Hkv _ IH]; simpl; [reflexivity |].
  simpl in Hkv. rewrite IH, Hkv. reflexivity.
Qed.

(** C4, as amended.  For a sequence none of whose labels is the name of a
    property of [Object.prototype], a label being the method of a record or
    UNKNOWN for a record whose method is absent or empty: [methodData]
    answers one entry for each label of the sequence, with the number of
    records under that label; the labels that are array indices come first,
    in the order of their numbers, the other labels follow in the order of
    their first occurrence. *)
Theorem methodData_tally (metrics : list MetricData) :
  Forall (fun m => on_Object_prototype (method_label m) = false) metrics ->
  exists indices,
    methodData metrics
    = map (Spec.method_count (map method_label metrics))
        (indices
         ++ Spec.first_occurrences []
              (List.filter (fun k => negb (is_array_index k)) (map method_label metrics)))
    /\ StronglySorted Spec.index_before indices
    /\ forall k, In k indices
                 <-> In k (map method_label metrics) /\ is_array_index k = true.
Proof.
  intros Hall.
  destruct (tally_loop metrics [] [] Hall tally_empty)
    as (indices & others & E & Hsorted & Hmem & Hoth & _ & Hvals).
  simpl in E, Hsorted, Hmem, Hoth, Hvals.
  exists (map fst indices). split; [| split; assumption].
  unfold methodData, Object_entries.
  rewrite (tally_entries (map method_label metrics)) by exact Hvals.
  now rewrite E, map_app, Hoth.
Qed.

(** Where no label is an array index either, the entries are in the order
    of first occurrence. *)
Corollary methodData_first_occurrences (metrics : list MetricData) :
  Forall (fun m => on_Object_prototype (method_label m) = false) metrics ->
  Forall (fun m => is_array_index (method_label m) = false) metrics ->
  methodData metrics
  = map (Spec.method_count (map method_label metrics))
      (Spec.first_occurrences [] (map method_label metrics)).
Proof.
  intros Hproto Hidx.
  assert (Hnone : forall k, In k (map method_label metrics) -> is_array_index k = false).
  { intros k Hk. apply in_map_iff in Hk. destruct Hk as (m & <- & Hm).
    rewrite List.Forall_forall in Hidx. now apply Hidx. }
  destruct (tally_loop metrics [] [] Hproto tally_empty)
    as (indices & others & E & _ & Hmem & Hoth & _ & Hvals).
  simpl in E, Hmem, Hoth, Hvals.
  assert (Hempty : indices = []).
  { destruct indices as [| [k v] indices]; [reflexivity |].
    destruct (proj1 (Hmem k) (or_introl eq_refl)) as [Hk Hi].
    rewrite (Hnone k Hk) in Hi. discriminate. }
  unfold methodData, Object_entries.
  rewrite (tally_entries (map method_label metrics)) by exact Hvals.
  rewrite E, Hempty. simpl. rewrite Hoth. f_equal. f_equal.
  apply forallb_filter_id. apply forallb_forall.
  intros k Hk. now rewrite (Hnone k Hk).
Qed.

Lemma methodData_first_occurrences_witness :
  Forall (fun m => on_Object_prototype (method_label m) = false)
    (map (fun m => Samples.metric m None None None)
       [Some "GET"; Some "GET"; Some "POST"; None])
  /\ Forall (fun m => is_array_index (method_label m) = false)
       (map (fun m => Samples.metric m None None None)
          [Some "GET"; Some "GET"; Some "POST"; None])
  /\ map MethodCount.name
       (methodData (map (fun m => Samples.metric m None None None)
                      [Some "GET"; Some "GET"; Some "POST"; None]))
     = ["GET"; "POST"; "UNKNOWN"].
Proof.
  assert (H1 : Forall (fun m => on_Object_prototype (method_label m) = false)
                 (map (fun m => Samples.metric m None None None)
                    [Some "GET"; Some "GET"; Some "POST"; None])).
  { vm_compute. repeat constructor. }
  assert (H2 : Forall (fun m => is_array_index (method_label m) = false)
                 (map (fun m => Samples.metric m None None None)
                    [Some "GET"; Some "GET"; Some "POST"; None])).
  { repeat (constructor; [vm_compute; reflexivity |]). constructor. }
  split; [exact H1 |]. split; [exact H2 |].
  rewrite (methodData_first_occurrences _ H1 H2). reflexivity.
Defined.

(** The specification's example: GET, GET, POST and a record without a
    method. *)
Example methodData_GET_GET_POST_missing :
  map (fun e => (MethodCount.name e, MethodCount.value e))
    (methodData (map (fun m => Samples.metric m None None None)
                   [Some "GET"; Some "GET"; Some "POST"; None]))
  = [("GET", VNumber 2); ("POST", VNumber 1); ("UNKNOWN", VNumber 1)].
Proof. vm_compute. reflexivity. Qed.

(** The statement of C4 fails on a method that is an array index: [10]
    is listed before [GET], whichever comes first in the sequence. *)
Lemma methodData_not_methodFrequency :
  methodData (map (fun m => Samples.metric m None None None) [Some "GET"; Some "10"])
  <> Spec.methodFrequency
       (map (fun m => Samples.metric m None None None) [Some "GET"; Some "10"]).
Proof.
  vm_compute. intros E. inversion E.
Qed.

(** And a method named as a property of [Object.prototype] is not counted
    by a number. *)
Example methodData_constructor :
  map MethodCount.value
    (methodData (map (fun m => Samples.metric m None None None)
                   [Some "constructor"; Some "__proto__"]))
  = [VString "function Object() { [native code] }1"].
Proof. vm_compute. reflexivity. Qed.

(** An empty method is counted with the absent ones. *)
Example methodData_empty_method :
  map (fun e => (MethodCount.name e, MethodCount.value e))
    (methodData (map (fun m => Samples.metric m None None None) [Some ""; None; Some "GET"]))
  = [("UNKNOWN", VNumber 2); ("GET", VNumber 1)].
Proof. vm_compute. reflexivity. Qed.

Lemma methodData_tally_witness :
  Forall (fun m => on_Object_prototype (method_label m) = false)
    (map (fun m => Samples.metric m None None None)
       [Some "GET"; Some "7"; Some "POST"; None; Some "GET"])
  /\ exists indices,
       methodData (map (fun m => Samples.metric m None None None)
                     [Some "GET"; Some "7"; Some "POST"; None; Some "GET"])
       = map (Spec.method_count
                (map method_label
                   (map (fun m => Samples.metric m None None None)
                      [Some "GET"; Some "7"; Some "POST"; None; Some "GET"])))
           (indices ++ ["GET"; "POST"; "UNKNOWN"]).
Proof.
  assert (H : Forall (fun m => on_Object_prototype (method_label m) = false)
                (map (fun m => Samples.metric m None None None)
                   [Some "GET"; Some "7"; Some "POST"; None; Some "GET"])).
  { vm_compute. repeat constructor. }
  split; [exact H |].
  destruct (methodData_tally _ H) as (indices & E & _).
  exists indices. exact E.
Defined.

End MethodFacts.

(** ** The session gateway *)

Module SessionFacts.
Import JS Types Api.

Lemma events_since_app (w : World) (ls : gmap string string) (evs : list Event) :
  events_since w {| localStorage := ls; trace := trace w ++ evs |} = evs.
Proof.
  unfold events_since. simpl.
  rewrite skipn_app, skipn_all, Nat.sub_diag. reflexivity.
Qed.

(** What [send] does: one request more on the trace, with the stored
    token as its bearer, and nothing else. *)
Lemma send_spec (verb url : string) (payload : list (string * string)) (w : World) :
  send verb url payload w
  = (tt, {| localStorage := localStorage w;
            trace := trace w
                     ++ [Sent {| verb := verb; url := url;
                                 authorization :=
                                   if truthy_string (localStorage w !! "delibery_token")
                                   then Some ("Bearer "
                                              +:+ default "" (localStorage w !! "delibery_token"))
                                   else None;
                                 payload := payload |}] |}).
Proof. reflexivity. Qed.

(** [handleSubmit], case by case. *)
Lemma handleSubmit_rejected (err : AxiosError) (s : Login.State) (w : World) :
  exists r,
    Login.handleSubmit (Rejected err) s w
    = (({| Login.email := Login.email s; Login.password := Login.password s;
           Login.loading := false; Login.error := Some (Login.error_message err) |}, None),
       {| localStorage := localStorage w; trace := trace w ++ [Sent r] |}).
Proof. eexists. reflexivity. Qed.

Lemma handleSubmit_refused (data : AuthResponse) (s : Login.State) (w : World) :
  ok data && truthy_string (token data) = false ->
  exists r,
    Login.handleSubmit (Fulfilled data) s w
    = (({| Login.email := Login.email s; Login.password := Login.password s;
           Login.loading := false; Login.error := Some Login.auth_failure |}, None),
       {| localStorage := localStorage w; trace := trace w ++ [Sent r] |}).
Proof.
  intros H. eexists. unfold Login.handleSubmit, authService.login, bind, ret.
  rewrite send_spec. cbn [fst snd]. rewrite H. reflexivity.
Qed.

Lemma handleSubmit_accepted (data : AuthResponse) (s : Login.State) (w : World) :
  ok data && truthy_string (token data) = true ->
  exists r,
    Login.handleSubmit (Fulfilled data) s w
    = (({| Login.email := Login.email s; Login.password := Login.password s;
           Login.loading := false; Login.error := None |}, Some (email data)),
       {| localStorage :=
            <["delibery_user_email" := ToString (email data)]>
              (<["delibery_token" := default "" (token data)]> (localStorage w));
          trace := trace w
                   ++ [Sent r;
                       SetItem "delibery_token" (default "" (token data));
                       SetItem "delibery_user_email" (ToString (email data))] |}).
Proof.
  intros H. eexists. unfold Login.handleSubmit, authService.login, bind, ret.
  rewrite send_spec. cbn [fst snd]. rewrite H.
  unfold setItem. cbn. rewrite <- !app_assoc. reflexivity.
Qed.

(** C6.  A login that is answered [ok: false], and a login whose
    request is rejected, write nothing: the storage is as it was, token and
    e-mail included, and the only thing the handler did to the world is the
    request itself. *)
Theorem failed_login_keeps_session (answer : Outcome AuthResponse)
        (s : Login.State) (w : World) :
  Login.failed answer ->
  let w' := snd (Login.handleSubmit answer s w) in
  localStorage w' = localStorage w
  /\ ~ Login.persisted w w'
  /\ (exists r, events_since w w' = [Sent r])
  /\ fst (App.currentSession w') = fst (App.currentSession w).
Proof.
  intros Hfailed.
  assert (H : exists st r,
             Login.handleSubmit answer s w
             = (st, {| localStorage := localStorage w; trace := trace w ++ [Sent r] |})).
  { destruct answer as [data | err].
    - simpl in Hfailed.
      destruct (handleSubmit_refused data s w) as (r & E);
        [now rewrite Hfailed | eauto].
    - destruct (handleSubmit_rejected err s w) as (r & E). eauto. }
  destruct H as (st & r & E). rewrite E. cbn [snd].
  split; [reflexivity |]. split; [| split].
  - unfold Login.persisted. rewrite events_since_app.
    intros (t & [C | []]). discriminate C.
  - exists r. apply events_since_app.
  - reflexivity.
Qed.


Lemma failed_login_keeps_session_witness :
  Login.failed (Fulfilled Samples.refused)
  /\ localStorage (snd (Login.handleSubmit (Fulfilled Samples.refused)
                         Samples.form Samples.world))
     = localStorage Samples.world.
Proof.
  split.
  - reflexivity.
  - apply (failed_login_keeps_session (Fulfilled Samples.refused)
             Samples.form Samples.world).
    reflexivity.
Defined.

Lemma truthy_string_iff (o : option string) :
  truthy_string o = true <-> exists t, o = Some t /\ t <> "".
Proof.
  unfold truthy_string. destruct o as [t |].
  - rewrite negb_true_iff. split.
    + intros H. exists t. split; [reflexivity |].
      intros ->. discriminate H.
    + intros (t' & E & N). inversion E; subst.
      now apply String.eqb_neq.
  - split; [discriminate | intros (t & E & _); discriminate E].
Qed.

(** C7, as amended.  The message a failed login shows is one of three:
    the reason in the body of the response a rejected request carries, when
    there is one and it is not empty; "Erro ao conectar com o servidor."
    when a rejected request carries none; and "Falha na autenticação.
    Verifique suas credenciais." when the answer arrives and does not say
    [ok] or holds no token, whatever reason that answer holds. *)
Theorem login_error_shown (answer : Outcome AuthResponse) (s : Login.State) (w : World) :
  let shown := Login.error (fst (fst (Login.handleSubmit answer s w))) in
  (forall err r,
      answer = Rejected err -> Login.server_reason answer = Some r -> r <> "" ->
      shown = Some r)
  /\ (forall err,
         answer = Rejected err ->
         Login.server_reason answer = None \/ Login.server_reason answer = Some "" ->
         shown = Some Login.connection_failure)
  /\ (forall data,
         answer = Fulfilled data -> ok data && truthy_string (token data) = false ->
         shown = Some Login.auth_failure).
Proof.
  cbv zeta. split; [| split].
  - intros err r -> Hr Hne.
    destruct (handleSubmit_rejected err s w) as (q & ->). cbn [fst Login.error].
    simpl in Hr. unfold Login.error_message. rewrite Hr.
    assert (T : truthy_string (Some r) = true).
    { apply truthy_string_iff. now exists r. }
    now rewrite T.
  - intros err -> Hr.
    destruct (handleSubmit_rejected err s w) as (q & ->). cbn [fst Login.error].
    simpl in Hr. unfold Login.error_message.
    destruct Hr as [-> | ->]; reflexivity.
  - intros data -> H.
    destruct (handleSubmit_refused data s w H) as (q & ->). reflexivity.
Qed.

(** The statement of C7 fails on an answer that says [ok: false] and why:
    the form shows neither the server's reason nor the message about the
    connection. *)
Lemma refused_login_hides_reason :
  let shown :=
    Login.error (fst (fst (Login.handleSubmit (Fulfilled Samples.refused)
                             Samples.form Samples.world))) in
  Login.failed (Fulfilled Samples.refused)
  /\ Login.server_reason (Fulfilled Samples.refused) = Some "Senha incorreta"
  /\ ~ (shown = Login.server_reason (Fulfilled Samples.refused)
        \/ shown = Some Login.connection_failure).
Proof.
  cbv zeta. split; [reflexivity |]. split; [reflexivity |].
  destruct (handleSubmit_refused Samples.refused Samples.form Samples.world eq_refl)
    as (q & ->).
  cbn [fst Login.error]. intros [C | C]; inversion C.
Qed.

(** C10.  An answer persists a session exactly when it says [ok] and
    holds a token that is not empty.  Then the token and the e-mail are in
    the storage and no error is shown; an answer that says [ok] without
    such a token leaves the storage as it was and shows the message of a
    failed authentication. *)
Theorem login_persists_iff (data : AuthResponse) (s : Login.State) (w : World) :
  let result := Login.handleSubmit (Fulfilled data) s w in
  (Login.persisted w (snd result)
   <-> ok data = true /\ exists t, token data = Some t /\ t <> "")
  /\ (forall t, ok data = true -> token data = Some t -> t <> "" ->
        localStorage (snd result) !! "delibery_token" = Some t
        /\ localStorage (snd result) !! "delibery_user_email" = Some (ToString (email data))
        /\ Login.error (fst (fst result)) = None
        /\ snd (fst result) = Some (email data))
  /\ (ok data = true -> ~ (exists t, token data = Some t /\ t <> "") ->
        localStorage (snd result) = localStorage w
        /\ Login.error (fst (fst result)) = Some Login.auth_failure
        /\ snd (fst result) = None).
Proof.
  cbv zeta.
  destruct (ok data && truthy_string (token data)) eqn:Guard.
  - destruct (handleSubmit_accepted data s w Guard) as (r & ->). cbn [fst snd].
    apply andb_prop in Guard. destruct Guard as [Hok Htoken].
    apply truthy_string_iff in Htoken.
    split; [| split].
    + split; [intros _; now split |]. intros _.
      exists (default "" (token data)). unfold Login.persisted.
      rewrite events_since_app. right. now left.
    + intros t _ Ht _. rewrite Ht. cbn [default Login.error localStorage].
      rewrite lookup_insert_ne by discriminate.
      rewrite !lookup_insert_eq. repeat split; reflexivity.
    + intros _ N. contradiction.
  - destruct (handleSubmit_refused data s w Guard) as (r & ->). cbn [fst snd].
    assert (N : ~ (ok data = true /\ exists t, token data = Some t /\ t <> "")).
    { intros [Hok Htoken]. apply truthy_string_iff in Htoken.
      rewrite Hok, Htoken in Guard. discriminate Guard. }
    split; [| split].
    + split; [| intros H; contradiction].
      unfold Login.persisted. rewrite events_since_app.
      intros (t & [C | []]). discriminate C.
    + intros t Hok Ht Hne. exfalso. apply N. split; [exact Hok | now exists t].
    + intros _ _. repeat split; reflexivity.
Qed.

Example login_without_token :
  let result := Login.handleSubmit (Fulfilled Samples.no_token) Samples.form Samples.world in
  localStorage (snd result) !! "delibery_token" = Some "old-token"
  /\ Login.error (fst (fst result)) = Some Login.auth_failure.
Proof. vm_compute. split; reflexivity. Qed.

(** C8.  After [logout] the storage holds neither the token nor the
    e-mail, whatever it held before, so an application that starts then
    finds no session; [logout] does nothing but remove the two keys: it
    sends no request and leaves the other keys alone. *)
Theorem logout_clears_session (w : World) :
  let w' := snd (authService.logout w) in
  localStorage w' !! "delibery_token" = None
  /\ localStorage w' !! "delibery_user_email" = None
  /\ fst (App.currentSession w') = None
  /\ events_since w w' = [RemoveItem "delibery_token"; RemoveItem "delibery_user_email"]
  /\ (forall k, k <> "delibery_token" -> k <> "delibery_user_email" ->
        localStorage w' !! k = localStorage w !! k).
Proof.
  cbv zeta.
  assert (E : snd (authService.logout w)
              = {| localStorage :=
                     delete "delibery_user_email" (delete "delibery_token" (localStorage w));
                   trace := trace w ++ [RemoveItem "delibery_token";
                                        RemoveItem "delibery_user_email"] |}).
  { unfold authService.logout, bind, removeItem. cbn. now rewrite <- app_assoc. }
  rewrite E. cbn [localStorage].
  assert (Htoken : delete "delibery_user_email" (delete "delibery_token" (localStorage w))
                   !! "delibery_token" = None).
  { rewrite lookup_delete_ne by discriminate. apply lookup_delete_eq. }
  split; [exact Htoken |]. split; [apply lookup_delete_eq |]. split; [| split].
  - unfold App.currentSession, App.useEffect, bind, ret, getItem. cbn.
    now rewrite Htoken.
  - apply events_since_app.
  - intros k H1 H2. now rewrite !lookup_delete_ne by congruence.
Qed.

(** The button: [handleLogout] brings the application back to the login
    form. *)
Lemma handleLogout_shows_login (s : App.State) (w : World) :
  App.initializing s = false ->
  App.render (fst (App.handleLogout s w)) = App.LoginScreen
  /\ snd (App.handleLogout s w) = snd (authService.logout w).
Proof.
  intros H. unfold App.handleLogout, bind, ret.
  destruct (authService.logout w) as [[] w'] eqn:E. cbn [fst snd].
  unfold App.render. cbn. now rewrite H.
Qed.

Example logout_sample :
  fst (App.currentSession Samples.world)
  = Some {| App.session_token := "old-token"; App.session_email := "old@delibery.com" |}
  /\ fst (App.currentSession (snd (authService.logout Samples.world))) = None.
Proof. vm_compute. split; reflexivity. Qed.

End SessionFacts.

(** ** The "Test Traffic" button *)

Module TrafficFacts.
Import JS Types Api Traffic SessionFacts.

(** The click sends the three requests, and nothing else happens in that
    turn. *)
Lemma click_history (now : Z) (w : World) :
  exists r,
    verb r = "GET" /\ url r = "/pedidos"
    /\ history (click now w) = [(now, Did (Sent r)); (now, Did (Sent r)); (now, Did (Sent r))]
    /\ unanswered (click now w) = [0; 1; 2]%nat
    /\ run (click now w) = {| simulating := true; phase := Awaiting 3 |}
    /\ clock (click now w) = now.
Proof.
  eexists. split; [| split; [| split; [| split; [| split]]]].
  3: { unfold click, handleSimulateTraffic, dataService.simulateGetOrders, bind, ret.
       rewrite send_spec. cbn [fst snd]. rewrite send_spec. cbn [fst snd localStorage].
       rewrite send_spec. cbn [fst snd localStorage trace history].
       rewrite <- !app_assoc. rewrite events_since_app. reflexivity. }
  all: reflexivity.
Qed.

Lemma click_invariant (now : Z) (w : World) : invariant (click now w).
Proof.
  destruct (click_history now w) as (r & _ & Hurl & Hh & Hu & Hr & _).
  assert (Hsent : forall t o, In (t, o) (history (click now w)) -> o = Did (Sent r)).
  { intros t o Hin. rewrite Hh in Hin. simpl in Hin.
    destruct Hin as [E | [E | [E | []]]]; congruence. }
  unfold invariant. rewrite Hu, Hr. cbn [phase].
  split; [repeat constructor; simpl; lia |].
  split; [simpl; lia |].
  split; [intros t i Hin; apply Hsent in Hin; discriminate Hin |].
  split; [| split; [reflexivity | split; [lia |]]].
  - intros t o Hin. apply Hsent in Hin. subst o. simpl. now rewrite Hurl.
  - intros i Hi Hn. exfalso. apply Hn. simpl. lia.
Qed.

Lemma timer_callback_spec (r : Run) (w : World) :
  exists q,
    url q = "/metricas"
    /\ timer_callback r w
       = ({| simulating := false; phase := Refetched |},
          {| localStorage := localStorage w; trace := trace w ++ [Sent q] |}).
Proof.
  eexists. split; [| unfold timer_callback, bind, ret; rewrite send_spec; reflexivity].
  reflexivity.
Qed.

Lemma unanswered_remove (i : nat) (l : list nat) :
  List.NoDup l -> In i l ->
  length (List.filter (fun j => negb (Nat.eqb i j)) l) = (length l - 1)%nat.
Proof.
  induction l as [| x l IH]; intros N H; [destruct H |].
  apply NoDup_cons_iff in N. destruct N as [Nx N]. simpl.
  destruct (Nat.eqb_spec i x) as [-> | D]; simpl.
  - rewrite forallb_filter_id; [lia |].
    apply forallb_forall. intros j Hj. apply negb_true_iff, Nat.eqb_neq.
    intros ->. contradiction.
  - destruct H as [-> | H]; [contradiction |].
    rewrite (IH N H). destruct l; [destruct H | simpl; lia].
Qed.

(** Every input the host delivers keeps the invariant, and adds no
    request for the orders. *)
Lemma deliver_invariant (dt : Z) (i : Input) (h h' : Host) :
  invariant h -> deliver dt i h = Some h' ->
  invariant h'
  /\ (exists rest,
         history h' = history h ++ rest
         /\ Forall (fun e => requested "/pedidos" (snd e) = false) rest).
Proof.
  unfold deliver. intros (Hnodup & Hrange & Hfailed & Hphase) Hd.
  destruct (Z.ltb_spec dt 0) as [| Hdt]; [discriminate |].
  destruct i as [i fulfilled |].
  - (* an answer *)
    destruct (existsb (Nat.eqb i) (unanswered h)) eqn:Hi; [| discriminate].
    inversion Hd; subst h'; clear Hd.
    apply existsb_exists in Hi. destruct Hi as (j & Hj & Eij).
    apply Nat.eqb_eq in Eij. subst j.
    split; [| exists [((clock h + dt)%Z, Answered i fulfilled)];
              split; [reflexivity | repeat constructor]].
    assert (Hsub : forall e, In e (history h)
                             -> In e (history h ++ [((clock h + dt)%Z, Answered i fulfilled)])).
    { intros e He. apply in_or_app. now left. }
    assert (Hno : no_refetch h ->
                  forall t o,
                    In (t, o) (history h ++ [((clock h + dt)%Z, Answered i fulfilled)]) ->
                    requested "/metricas" o = false).
    { intros Hn t o Hin. apply in_app_or in Hin. destruct Hin as [Hin | [E | []]].
      - exact (Hn t o Hin).
      - inversion E. reflexivity. }
    unfold invariant. cbn [unanswered history clock run].
    split; [now apply List.NoDup_filter |].
    split; [intros k Hk; apply List.filter_In in Hk; now apply Hrange |].
    unfold settled. destruct (phase (run h)) as [remaining | deadline | |] eqn:Hph.
    + destruct Hphase as (Hn & Hrem & Hpos & Hdone).
      destruct fulfilled; cbn [phase]; [| split; [reflexivity | exact (Hno Hn)]].
      assert (Hstill : forall t k,
                In (t, Answered k false)
                   (history h ++ [((clock h + dt)%Z, Answered i true)]) -> False).
      { intros t k Hin. apply in_app_or in Hin. destruct Hin as [Hin | [E | []]].
        - specialize (Hfailed t k Hin). discriminate Hfailed.
        - discriminate E. }
      assert (Hlen : length (List.filter (fun j => negb (Nat.eqb i j)) (unanswered h))
                     = (remaining - 1)%nat).
      { rewrite Hrem. now apply unanswered_remove. }
      assert (Hanswered : forall k, (k < 3)%nat ->
                ~ In k (List.filter (fun j => negb (Nat.eqb i j)) (unanswered h)) ->
                exists tk,
                  In (tk, Answered k true)
                     (history h ++ [((clock h + dt)%Z, Answered i true)])
                  /\ (tk <= clock h + dt)%Z).
      { intros k Hk Hnot. destruct (Nat.eq_dec i k) as [<- | D].
        - exists (clock h + dt)%Z. split; [apply in_or_app; right; now left | lia].
        - destruct (Hdone k Hk) as (tk & Hin & Htk).
          + intros Hin. apply Hnot. apply List.filter_In. split; [exact Hin |].
            now apply negb_true_iff, Nat.eqb_neq.
          + exists tk. split; [now apply Hsub | lia]. }
      destruct (Nat.eqb_spec remaining 1) as [E1 | N1]; cbn [phase].
      * assert (Hnil : List.filter (fun j => negb (Nat.eqb i j)) (unanswered h) = []).
        { rewrite E1 in Hlen. now apply length_zero_iff_nil in Hlen. }
        split; [intros t k Hin; now apply Hstill in Hin |].
        split; [exact Hnil |]. split; [exact (Hno Hn) |]. intros k Hk.
        destruct (Hanswered k Hk) as (tk & Hin & Htk); [now rewrite Hnil |].
        exists tk. cbn [history]. split; [exact Hin | lia].
      * split; [intros t k Hin; now apply Hstill in Hin |].
        split; [exact (Hno Hn) |]. split; [now rewrite Hlen |].
        split; [lia | exact Hanswered].
    + destruct Hphase as (Hnil & _). rewrite Hnil in Hj. destruct Hj.
    + destruct Hphase as (Hnil & _). rewrite Hnil in Hj. destruct Hj.
    + cbn [phase]. rewrite Hph. split; [reflexivity | exact (Hno Hphase)].
  - (* the timer *)
    destruct (phase (run h)) as [| deadline | |] eqn:Hph; try discriminate.
    destruct (Z.leb_spec deadline (clock h + dt)) as [Hdue |]; [| discriminate].
    destruct (timer_callback_spec (run h) (world h)) as (q & Hq & E).
    rewrite E in Hd. rewrite events_since_app in Hd.
    inversion Hd; subst h'; clear Hd. destruct Hphase as (Hnil & Hn & Hall).
    split.
    + unfold invariant. cbn [unanswered history clock run phase].
      split; [exact Hnodup |]. split; [exact Hrange |]. split; [| split; [exact Hnil |]].
      * intros t k Hin. simpl in Hin. apply in_app_or in Hin.
        destruct Hin as [Hin | [E' | []]]; [| discriminate E'].
        specialize (Hfailed t k Hin). discriminate Hfailed.
      * intros t o Hin Hreq k Hk. simpl in Hin.
        apply in_app_or in Hin. destruct Hin as [Hin | [E' | []]].
        -- rewrite (Hn t o Hin) in Hreq. discriminate Hreq.
        -- inversion E'; subst.
           destruct (Hall k Hk) as (tk & Hin' & Htk).
           exists tk. split; [apply in_or_app; now left | lia].
    + eexists. split; [reflexivity |]. simpl.
      constructor; [| constructor]. simpl. now rewrite Hq.
Qed.

Lemma execute_invariant (schedule : list (Z * Input)) (h h' : Host) :
  invariant h -> execute schedule h = Some h' ->
  invariant h'
  /\ (exists rest,
         history h' = history h ++ rest
         /\ Forall (fun e => requested "/pedidos" (snd e) = false) rest).
Proof.
  revert h. induction schedule as [| [dt i] schedule IH]; intros h Hinv Hex; simpl in Hex.
  - inversion Hex; subst. split; [exact Hinv |].
    exists []. split; [now rewrite app_nil_r | constructor].
  - destruct (deliver dt i h) as [h1 |] eqn:Hd; [| discriminate].
    destruct (deliver_invariant dt i h h1 Hinv Hd) as (Hinv1 & rest1 & E1 & F1).
    destruct (IH h1 Hinv1 Hex) as (Hinv' & rest & E & F).
    split; [exact Hinv' |].
    exists (rest1 ++ rest). split; [now rewrite E, E1, app_assoc |].
    apply Forall_app. now split.
Qed.

(** C9.  In every run the host can make of one click on "Test Traffic":
    the handler sends three requests for the orders, all in the turn of the
    click and so before any of them is answered, and none after; and
    whenever it sends the request for the metrics, each of the three has
    been answered well, 1500 ms before or earlier. *)
Theorem traffic_refetch_after_answers (now : Z) (w : World)
        (schedule : list (Z * Input)) (h : Host) :
  execute schedule (click now w) = Some h ->
  (exists r rest,
      verb r = "GET" /\ url r = "/pedidos"
      /\ history h
         = [(now, Did (Sent r)); (now, Did (Sent r)); (now, Did (Sent r))] ++ rest
      /\ Forall (fun e => requested "/pedidos" (snd e) = false) rest)
  /\ (forall t o,
         In (t, o) (history h) -> requested "/metricas" o = true ->
         forall i, (i < 3)%nat -> answered_before h i t).
Proof.
  intros Hex.
  destruct (execute_invariant schedule (click now w) h (click_invariant now w) Hex)
    as ((_ & _ & _ & Hphase) & rest & E & F).
  destruct (click_history now w) as (r & Hverb & Hurl & Hh & _).
  split.
  - exists r, rest. rewrite E, Hh. repeat split; assumption.
  - intros t o Hin Hreq.
    destruct (phase (run h)) as [remaining | deadline | |].
    + destruct Hphase as (Hn & _). rewrite (Hn t o Hin) in Hreq. discriminate Hreq.
    + destruct Hphase as (_ & Hn & _). rewrite (Hn t o Hin) in Hreq. discriminate Hreq.
    + destruct Hphase as (_ & Hall). now apply (Hall t o).
    + rewrite (Hphase t o Hin) in Hreq. discriminate Hreq.
Qed.

Lemma traffic_refetch_after_answers_witness :
  exists h,
    execute [(10, Answer 1 true); (5, Answer 0 true); (100, Answer 2 true); (1500, Timer)]%Z
      (click 1000 Samples.world) = Some h
    /\ phase (run h) = Refetched
    /\ existsb (requested "/metricas") (map snd (history h)) = true
    /\ forall t o,
         In (t, o) (history h) -> requested "/metricas" o = true ->
         forall i, (i < 3)%nat -> answered_before h i t.
Proof.
  eexists. split; [vm_compute; reflexivity |]. split; [reflexivity |].
  split; [reflexivity |].
  apply (traffic_refetch_after_answers 1000 Samples.world
           [(10, Answer 1 true); (5, Answer 0 true); (100, Answer 2 true); (1500, Timer)]%Z).
  vm_compute. reflexivity.
Defined.

(** When one of the three requests fails, the run ends in the [catch]
    block: the metrics are not fetched again, then or later. *)
Lemma failed_request_never_refetches (now : Z) (w : World)
      (schedule : list (Z * Input)) (h : Host) (t : Z) (i : nat) :
  execute schedule (click now w) = Some h ->
  In (t, Answered i false) (history h) ->
  phase (run h) = Caught /\ no_refetch h.
Proof.
  intros Hex Hin.
  destruct (execute_invariant schedule (click now w) h (click_invariant now w) Hex)
    as ((_ & _ & Hfailed & Hphase) & _).
  specialize (Hfailed t i Hin). rewrite Hfailed in Hphase. now split.
Qed.

Lemma failed_request_never_refetches_witness :
  exists h,
    execute [(10, Answer 1 true); (5, Answer 0 false); (100, Answer 2 true)]%Z
      (click 1000 Samples.world) = Some h
    /\ In (1015%Z, Answered 0 false) (history h)
    /\ phase (run h) = Caught
    /\ no_refetch h.
Proof.
  eexists. split; [vm_compute; reflexivity |].
  assert (Hin : In (1015%Z, Answered 0 false)
                  [(1010%Z, Answered 1 true); (1015%Z, Answered 0 false);
                   (1115%Z, Answered 2 true)])
    by (right; now left).
  split; [do 3 right; exact Hin |].
  apply (failed_request_never_refetches 1000 Samples.world
           [(10, Answer 1 true); (5, Answer 0 false); (100, Answer 2 true)]%Z _ 1015 0).
  - vm_compute. reflexivity.
  - do 3 right. exact Hin.
Defined.

(** The host does not run the callback a millisecond early, and a failed
    request leaves no timer to run. *)
Example timer_not_early :
  execute [(10, Answer 1 true); (5, Answer 0 true); (100, Answer 2 true); (1499, Timer)]%Z
    (click 1000 Samples.world) = None.
Proof. vm_compute. reflexivity. Qed.

Example failed_request_no_refetch :
  option_map (fun h => run h)
    (execute [(10, Answer 1 true); (5, Answer 0 false); (100, Answer 2 true)]%Z
       (click 1000 Samples.world))
  = Some {| simulating := false; phase := Caught |}
  /\ execute [(10, Answer 1 true); (5, Answer 0 false); (100, Answer 2 true); (5000, Timer)]%Z
       (click 1000 Samples.world) = None.
Proof. vm_compute. split; reflexivity. Qed.

End TrafficFacts.

(** * Further properties of the code *)

(** ** The figures of the four cards *)

Module CardFacts.
Import JS Types Dashboard NumberFacts FloatFacts StatsFacts FormatFacts.

Lemma scale_positive (f : nat) : (0 < inject_Z (10 ^ Z.of_nat f))%Q.
Proof.
  change 0%Q with (inject_Z 0). rewrite <- Zlt_Qlt. apply Z.pow_pos_nonneg; lia.
Qed.

Lemma nearest_nonneg (f : nat) (x : Q) :
  (0 <= Qfloor (Qabs x * inject_Z (10 ^ Z.of_nat f) + (1 # 2)))%Z.
Proof.
  rewrite <- (Qfloor_Z 0). apply Qfloor_resp_le.
  apply Qle_trans with (0 + (1 # 2))%Q; [discriminate |].
  apply Qplus_le_compat; [| apply Qle_refl].
  apply Qmult_le_0_compat; [apply Qabs_nonneg | apply Qlt_le_weak, scale_positive].
Qed.

Lemma scaled_le (f : nat) (a b : Z) :
  (a <= b)%Z ->
  (inject_Z a / inject_Z (10 ^ Z.of_nat f) <= inject_Z b / inject_Z (10 ^ Z.of_nat f))%Q.
Proof.
  intros H. unfold Qdiv. apply Qmult_le_compat_r; [now rewrite <- Zle_Qle |].
  apply Qinv_le_0_compat, Qlt_le_weak, scale_positive.
Qed.

Lemma scaled_nonneg (f : nat) (a : Z) :
  (0 <= a)%Z -> (0 <= inject_Z a / inject_Z (10 ^ Z.of_nat f))%Q.
Proof.
  intros H. apply Qle_shift_div_l; [apply scale_positive |].
  rewrite Qmult_0_l. change 0%Q with (inject_Z 0). now rewrite <- Zle_Qle.
Qed.

(** Rounding keeps the order of numbers. *)
Lemma round_to_monotone (f : nat) (x y : Q) :
  (x <= y)%Q -> (Spec.round_to f x <= Spec.round_to f y)%Q.
Proof.
  intros Hxy. unfold Spec.round_to.
  pose proof (nearest_nonneg f x) as Hx. pose proof (nearest_nonneg f y) as Hy.
  destruct (Qltb x 0) eqn:Ex, (Qltb y 0) eqn:Ey.
  - apply Qltb_lt in Ex. apply Qltb_lt in Ey. apply Qopp_le_compat, scaled_le.
    apply Qfloor_resp_le. apply Qplus_le_compat; [| apply Qle_refl].
    apply Qmult_le_compat_r; [| apply Qlt_le_weak, scale_positive].
    rewrite !Qabs_neg by now apply Qlt_le_weak. now apply Qopp_le_compat.
  - apply Qle_trans with 0%Q.
    + change 0%Q with (- 0)%Q. apply Qopp_le_compat. now apply scaled_nonneg.
    + now apply scaled_nonneg.
  - apply Qltb_ge in Ex. apply Qltb_lt in Ey.
    exfalso. apply (Qlt_irrefl 0). apply Qle_lt_trans with y; [| exact Ey].
    now apply Qle_trans with x.
  - apply Qltb_ge in Ex. apply Qltb_ge in Ey. apply scaled_le.
    apply Qfloor_resp_le. apply Qplus_le_compat; [| apply Qle_refl].
    apply Qmult_le_compat_r; [| apply Qlt_le_weak, scale_positive].
    now rewrite !Qabs_pos.
Qed.

Lemma Qfloor_half (z : Z) : Qfloor (inject_Z z + (1 # 2)) = z.
Proof.
  pose proof (Qfloor_le (inject_Z z + (1 # 2))) as Hlo.
  pose proof (Qlt_floor (inject_Z z + (1 # 2))) as Hhi.
  set (n := Qfloor (inject_Z z + (1 # 2))) in *.
  assert (L : (inject_Z n < inject_Z (z + 1))%Q).
  { rewrite inject_Z_plus. change (inject_Z 1) with 1%Q. clearbody n. lra. }
  assert (U : (inject_Z z < inject_Z (n + 1))%Q) by (clearbody n; lra).
  rewrite <- Zlt_Qlt in L, U. lia.
Qed.

(** A whole number is its own rounding. *)
Lemma round_to_whole (f : nat) (k : Z) :
  (0 <= k)%Z -> (Spec.round_to f (inject_Z k) == inject_Z k)%Q.
Proof.
  intros Hk. unfold Spec.round_to.
  assert (E : Qltb (inject_Z k) 0 = false).
  { apply Qltb_ge. change 0%Q with (inject_Z 0). now rewrite <- Zle_Qle. }
  rewrite E, Qabs_pos by (change 0%Q with (inject_Z 0); now rewrite <- Zle_Qle).
  rewrite <- inject_Z_mult, Qfloor_half, inject_Z_mult.
  field. intros C. pose proof (scale_positive f) as P. rewrite C in P.
  now apply Qlt_irrefl in P.
Qed.

Lemma binary64_whole (k : Z) :
  (Z.abs k <= 2 ^ 53)%Z -> representable 53 (-1074) (inject_Z k).
Proof. intros H. apply representable_integer; [lia | exact H]. Qed.

(** A sum of numbers that are at most the whole number [B] is at most as
    many times [B], as long as these multiples of [B] are numbers of the
    format: no addition rounds beyond the next of them. *)
Lemma float_sum_from_le (B : Z) (xs : list Q) (k : nat) (acc : Q) :
  (Z.abs B * Z.of_nat (k + length xs) <= 2 ^ 53)%Z ->
  (acc <= inject_Z (B * Z.of_nat k))%Q ->
  Forall (fun x => (x <= inject_Z B)%Q) xs ->
  (Spec.float_sum_from acc xs <= inject_Z (B * Z.of_nat (k + length xs)))%Q.
Proof.
  revert k acc. induction xs as [| x xs IH]; intros k acc Hfit Hacc Hall.
  - simpl. now rewrite Nat.add_0_r.
  - apply List.Forall_cons_iff in Hall. destruct Hall as [Hx Hall].
    cbn [length Spec.float_sum_from] in *.
    replace (k + S (length xs))%nat with (S k + length xs)%nat in * by lia.
    apply IH; [exact Hfit | | exact Hall].
    apply (round_le 53 (-1074)); [lia | |].
    + apply binary64_whole. nia.
    + rewrite Nat2Z.inj_succ. unfold Z.succ.
      rewrite Z.mul_add_distr_l, Z.mul_1_r, inject_Z_plus.
      now apply Qplus_le_compat.
Qed.

Lemma float_mean_le (B : Z) (x : Q) (xs : list Q) :
  (Z.abs B * Z.of_nat (length (x :: xs)) <= 2 ^ 53)%Z ->
  Forall (fun y => (y <= inject_Z B)%Q) (x :: xs) ->
  (Spec.float_mean (x :: xs) <= inject_Z B)%Q.
Proof.
  intros Hfit Hall. unfold Spec.float_mean, Spec.float_sum.
  assert (Hn : (0 < Z.of_nat (length (x :: xs)))%Z) by (simpl; lia).
  apply (round_le 53 (-1074)); [lia | apply binary64_whole; nia |].
  apply Qle_shift_div_r.
  - change 0%Q with (inject_Z 0). now rewrite <- Zlt_Qlt.
  - rewrite <- inject_Z_mult.
    apply (float_sum_from_le B (x :: xs) 0 0); [exact Hfit | | exact Hall].
    rewrite Z.mul_0_r. apply Qle_refl.
Qed.

(** The share of a part in a total, in percent, as binary64 computes it. *)
Lemma float_percentage_bounds (part total : nat) :
  (part <= total)%nat -> (0 < total)%nat ->
  (0 <= Spec.float_percentage part total)%Q /\ (Spec.float_percentage part total <= 100)%Q.
Proof.
  intros Hle Hpos. unfold Spec.float_percentage.
  set (c := inject_Z (Z.of_nat part)). set (n := inject_Z (Z.of_nat total)).
  assert (Hn : (0 < n)%Q).
  { unfold n. change 0%Q with (inject_Z 0). rewrite <- Zlt_Qlt. lia. }
  assert (Hc : (0 <= c)%Q).
  { unfold c. change 0%Q with (inject_Z 0). rewrite <- Zle_Qle. lia. }
  assert (Hcn : (c <= n)%Q) by (unfold c, n; rewrite <- Zle_Qle; lia).
  assert (Hlo : (0 <= binary64 (c / n))%Q).
  { apply (round_ge 53 (-1074) ltac:(lia) _ (inject_Z 0)); [apply binary64_whole; lia |].
    apply Qle_shift_div_l; [exact Hn | now rewrite Qmult_0_l]. }
  assert (Hhi : (binary64 (c / n) <= 1)%Q).
  { apply (round_le 53 (-1074) ltac:(lia) _ (inject_Z 1)); [apply binary64_whole; lia |].
    apply Qle_shift_div_r; [exact Hn | now rewrite Qmult_1_l]. }
  set (r := binary64 (c / n)) in *. clearbody r. split.
  - apply (round_ge 53 (-1074) ltac:(lia) _ (inject_Z 0)); [apply binary64_whole; lia |].
    change (inject_Z 0) with 0%Q. lra.
  - apply (round_le 53 (-1074) ltac:(lia) _ (inject_Z 100)); [apply binary64_whole; lia |].
    change (inject_Z 100) with 100%Q. lra.
Qed.

(** A share of at most 5 in 100 is at most 5 percent in binary64 too. *)
Lemma float_percentage_5 (part total : nat) :
  (0 < total)%nat -> (100 * part <= 5 * total)%nat ->
  (Spec.float_percentage part total <= 5)%Q.
Proof.
  intros Hpos Hle. unfold Spec.float_percentage.
  set (c := inject_Z (Z.of_nat part)). set (n := inject_Z (Z.of_nat total)).
  assert (Hn : (0 < n)%Q).
  { unfold n. change 0%Q with (inject_Z 0). rewrite <- Zlt_Qlt. lia. }
  assert (Hq : (c * 100 <= 5 * n)%Q).
  { unfold c, n. change 100%Q with (inject_Z 100). change 5%Q with (inject_Z 5).
    rewrite <- !inject_Z_mult, <- Zle_Qle. lia. }
  assert (Hshare : (c / n <= 5 # 100)%Q).
  { apply Qle_shift_div_r; [exact Hn |]. clearbody c n. lra. }
  assert (E5 : (binary64 (binary64 (5 # 100) * 100) == 5)%Q) by (vm_compute; reflexivity).
  rewrite <- E5. apply (round_monotone 53 (-1074)); [lia |].
  apply Qmult_le_compat_r; [| discriminate].
  apply (round_monotone 53 (-1074)); [lia | exact Hshare].
Qed.

Lemma count_le_length {A} (p : A -> bool) (xs : list A) :
  (Spec.count p xs <= length xs)%nat.
Proof.
  induction xs as [| x xs IH]; simpl; [lia |]. destruct (p x); lia.
Qed.


Lemma count_permutation {A} (p : A -> bool) (xs ys : list A) :
  Permutation xs ys -> Spec.count p xs = Spec.count p ys.
Proof.
  induction 1 as [| x xs ys _ IH | x y xs | xs ys zs _ IH1 _ IH2]; simpl.
  - reflexivity.
  - now rewrite IH.
  - destruct (p x), (p y); reflexivity.
  - now rewrite IH1.
Qed.

Lemma maximum_permutation (x y : Q) (xs ys : list Q) :
  Permutation (x :: xs) (y :: ys) ->
  (Spec.maximum (x :: xs) == Spec.maximum (y :: ys))%Q.
Proof.
  intros P.
  destruct (maximum_bounds x xs) as [(a & Ha & Ea) Ua].
  destruct (maximum_bounds y ys) as [(b & Hb & Eb) Ub].
  apply Qle_antisym.
  - rewrite <- Ea. apply Ub. now apply (Permutation_in a P).
  - rewrite <- Eb. apply Ua. now apply (Permutation_in b (Permutation_sym P)).
Qed.

(** The number of requests, the error rate and the peak do not depend on
    the order of the records.  The average does: its sum is rounded
    addition by addition, in the order of the records. *)
Theorem stats_permutation (metrics metrics' : list MetricData) :
  Permutation metrics metrics' ->
  totalRequests (stats metrics) = totalRequests (stats metrics')
  /\ errorRate (stats metrics) = errorRate (stats metrics')
  /\ peakLatency (stats metrics) = peakLatency (stats metrics').
Proof.
  intros P.
  destruct metrics as [| m metrics].
  { apply Permutation_nil in P. now subst. }
  destruct metrics' as [| m' metrics'].
  { apply Permutation_sym, Permutation_nil in P. discriminate P. }
  rewrite !stats_nonempty.
  cbn [Spec.computeStats_binary64 totalRequests errorRate peakLatency].
  pose proof (Permutation_length P) as L.
  pose proof (Permutation_map Spec.latency P) as PL.
  rewrite L, (count_permutation _ _ _ P).
  split; [reflexivity |]. split; [reflexivity |].
  apply toFixed_comp. simpl map in *. now apply maximum_permutation.
Qed.

Lemma stats_permutation_witness :
  Permutation
    (map (fun rt => Samples.metric None (Some rt) None None) [300%Q; 100%Q; 200%Q])
    (map (fun rt => Samples.metric None (Some rt) None None) [100%Q; 200%Q; 300%Q])
  /\ peakLatency
       (stats (map (fun rt => Samples.metric None (Some rt) None None) [300%Q; 100%Q; 200%Q]))
     = peakLatency
         (stats (map (fun rt => Samples.metric None (Some rt) None None)
                   [100%Q; 200%Q; 300%Q])).
Proof.
  assert (P : Permutation
                (map (fun rt => Samples.metric None (Some rt) None None)
                   [300%Q; 100%Q; 200%Q])
                (map (fun rt => Samples.metric None (Some rt) None None)
                   [100%Q; 200%Q; 300%Q])).
  { apply Permutation_map.
    apply perm_trans with [100%Q; 300%Q; 200%Q]; [apply perm_swap |].
    apply perm_skip, perm_swap. }
  split; [exact P | exact (proj2 (proj2 (stats_permutation _ _ P)))].
Defined.

(** The doubles nearest to 0.01 and 0.03: four records show the average
    0.01 in one order and 0.02 in another. *)
Example average_depends_on_order :
  avgLatency (stats (map (fun rt => Samples.metric None (Some (binary64 rt)) None None)
                       [1 # 100; 1 # 100; 1 # 100; 3 # 100]%Q)) = "0.01"
  /\ avgLatency (stats (map (fun rt => Samples.metric None (Some (binary64 rt)) None None)
                          [1 # 100; 3 # 100; 1 # 100; 1 # 100]%Q)) = "0.02".
Proof. split; vm_compute; reflexivity. Qed.

(** The two latency cards read as numbers, and the peak is not below the
    average when the largest response time is a whole number [M] of
    milliseconds, with so few records that their multiples of [M] are
    doubles.  Without that the average can be the larger one: its
    arithmetic rounds and the peak's does not. *)
Theorem peak_not_below_average (M : Z) (metrics : list MetricData) :
  (Spec.maximum (map Spec.latency metrics) == inject_Z M)%Q ->
  (Z.abs M * Z.of_nat (length metrics) <= 2 ^ 53)%Z ->
  exists a p,
    parseFloat (avgLatency (stats metrics)) = Some a
    /\ parseFloat (peakLatency (stats metrics)) = Some p
    /\ (a <= p)%Q.
Proof.
  intros Hmax Hfit.
  destruct metrics as [| m metrics].
  { do 2 eexists. split; [vm_compute; reflexivity |].
    split; [vm_compute; reflexivity | vm_compute; discriminate]. }
  rewrite stats_nonempty. cbn [Spec.computeStats_binary64 avgLatency peakLatency].
  destruct (parseFloat_toFixed 2 (Spec.float_mean (map Spec.latency (m :: metrics))))
    as (a & Ha & Ea); [discriminate |].
  destruct (parseFloat_toFixed 2 (Spec.maximum (map Spec.latency (m :: metrics))))
    as (p & Hp & Ep); [discriminate |].
  exists a, p. split; [exact Ha |]. split; [exact Hp |].
  rewrite Ea, Ep.
  apply Qle_trans with (Spec.round_to 2 (inject_Z M)).
  - apply round_to_monotone. simpl map in *. apply float_mean_le.
    + cbn [length] in *. now rewrite length_map.
    + apply List.Forall_forall. intros y Hy. rewrite <- Hmax.
      now apply maximum_bounds.
  - apply round_to_monotone. rewrite Hmax. apply Qle_refl.
Qed.

Lemma peak_not_below_average_witness :
  exists a p,
    parseFloat (avgLatency (stats Samples.three_of_forty)) = Some a
    /\ parseFloat (peakLatency (stats Samples.three_of_forty)) = Some p
    /\ (a <= p)%Q.
Proof.
  apply (peak_not_below_average 1 Samples.three_of_forty).
  - vm_compute. reflexivity.
  - vm_compute. discriminate.
Defined.

(** Three records of the double nearest to 0.045 ms: the average reads
    0.05 and the peak 0.04. *)
Example average_above_peak :
  let s := stats (repeat (Samples.metric None (Some (binary64 (45 # 1000))) None None) 3) in
  avgLatency s = "0.05" /\ peakLatency s = "0.04".
Proof. vm_compute. split; reflexivity. Qed.

(** The error rate reads as a percentage: a number from 0 to 100. *)
Theorem errorRate_is_percentage (metrics : list MetricData) :
  exists e,
    parseFloat (errorRate (stats metrics)) = Some e /\ (0 <= e)%Q /\ (e <= 100)%Q.
Proof.
  destruct metrics as [| m metrics].
  { eexists. split; [vm_compute; reflexivity |].
    split; vm_compute; discriminate. }
  rewrite stats_nonempty. cbn [Spec.computeStats_binary64 errorRate].
  destruct (float_percentage_bounds (Spec.count Spec.error_status (m :: metrics))
              (length (m :: metrics))) as [Hlo Hhi];
    [apply count_le_length | simpl; lia |].
  set (v := Spec.float_percentage _ _) in *. clearbody v.
  destruct (parseFloat_toFixed 1 v) as (e & He & Ee); [discriminate |].
  exists e. split; [exact He |]. rewrite Ee. split.
  - apply Qle_trans with (Spec.round_to 1 (inject_Z 0)).
    + rewrite round_to_whole by lia. apply Qle_refl.
    + now apply round_to_monotone.
  - apply Qle_trans with (Spec.round_to 1 (inject_Z 100)).
    + now apply round_to_monotone.
    + rewrite round_to_whole by lia. apply Qle_refl.
Qed.

Lemma high_trend (s : DerivedStats) :
  avg_trend s = high -> exists a, parseFloat (avgLatency s) = Some a /\ (500 < a)%Q.
Proof.
  unfold avg_trend. destruct (parseFloat (avgLatency s)) as [a |]; cbn [greater].
  - destruct (Qltb 500 a) eqn:E; [| discriminate].
    intros _. exists a. split; [reflexivity | now apply Qltb_lt].
  - discriminate.
Qed.

Lemma bad_trend (s : DerivedStats) :
  error_trend s = bad -> exists e, parseFloat (errorRate s) = Some e /\ (5 < e)%Q.
Proof.
  unfold error_trend. destruct (parseFloat (errorRate s)) as [e |]; cbn [greater].
  - destruct (Qltb 5 e) eqn:E; [| discriminate].
    intros _. exists e. split; [reflexivity | now apply Qltb_lt].
  - discriminate.
Qed.

(** The card "Avg Latency" says "High Latency" only when some record took
    more than 500 ms, a record whose row, when it is among the ten shown,
    has its latency in orange.  The records are those of an array: fewer
    than 2^32, so that the multiples of 500 the sum is compared with are
    doubles. *)
Theorem high_latency_has_slow_record (metrics : list MetricData) :
  (Z.of_nat (length metrics) < Array_length_limit)%Z ->
  avg_trend (stats metrics) = high ->
  exists m, In m metrics /\ slow_row m = true.
Proof.
  intros Hlen H.
  destruct metrics as [| m0 metrics]; [vm_compute in H; discriminate H |].
  destruct (existsb slow_row (m0 :: metrics)) eqn:Ex.
  { apply existsb_exists in Ex. exact Ex. }
  exfalso.
  assert (Hall : Forall (fun y => (y <= inject_Z 500)%Q)
                   (map Spec.latency (m0 :: metrics))).
  { apply List.Forall_forall. intros y Hy.
    apply in_map_iff in Hy. destruct Hy as (m & <- & Hm).
    apply Qltb_ge. destruct (slow_row m) eqn:Em; [| exact Em].
    assert (C : existsb slow_row (m0 :: metrics) = true)
      by (apply existsb_exists; now exists m).
    congruence. }
  apply high_trend in H. destruct H as (a' & Ha' & Eh).
  rewrite stats_avgLatency in Ha'.
  destruct (parseFloat_toFixed 2 (Spec.float_mean (map Spec.latency (m0 :: metrics))))
    as (a & Ha & Ea); [discriminate |].
  rewrite Ha in Ha'. inversion Ha'; subst a'; clear Ha'.
  apply (Qlt_irrefl 500).
  apply Qlt_le_trans with a; [exact Eh |].
  rewrite Ea. apply Qle_trans with (Spec.round_to 2 (inject_Z 500)).
  - apply round_to_monotone. simpl map in *. apply float_mean_le; [| exact Hall].
    cbn [length] in *. rewrite length_map.
    unfold Array_length_limit in Hlen. change (2 ^ 32)%Z with 4294967296%Z in Hlen.
    change (2 ^ 53)%Z with 9007199254740992%Z. lia.
  - rewrite round_to_whole by lia. apply Qle_refl.
Qed.

Lemma high_latency_has_slow_record_witness :
  avg_trend (stats [Samples.metric None (Some 900%Q) None None;
                    Samples.metric None (Some 200%Q) None None]) = high
  /\ exists m,
       In m [Samples.metric None (Some 900%Q) None None;
             Samples.metric None (Some 200%Q) None None]
       /\ slow_row m = true.
Proof.
  assert (H : avg_trend (stats [Samples.metric None (Some 900%Q) None None;
                                Samples.metric None (Some 200%Q) None None]) = high)
    by (vm_compute; reflexivity).
  split; [exact H |].
  apply (high_latency_has_slow_record
           [Samples.metric None (Some 900%Q) None None;
            Samples.metric None (Some 200%Q) None None]); [reflexivity | exact H].
Defined.

(** A record counts as an error in the card "Error Rate" exactly when its
    badge in the table is orange or red; a record without a status code
    does not count and has the grey badge. *)
Theorem error_badge (m : MetricData) :
  (is_error m = true
   <-> StatusBadge (statusCode m) = orange \/ StatusBadge (statusCode m) = red)
  /\ (statusCode m = None -> StatusBadge (statusCode m) = slate).
Proof.
  split; [| intros E; rewrite E; reflexivity].
  unfold is_error, StatusBadge. destruct (statusCode m) as [c |].
  - destruct (Qlt_le_dec c 400) as [Hlt | Hge].
    + assert (E4 : Qle_bool 400 c = false).
      { apply not_true_iff_false. rewrite Qle_bool_iff. now apply Qlt_not_le. }
      assert (E5 : Qle_bool 500 c = false).
      { apply not_true_iff_false. rewrite Qle_bool_iff. apply Qlt_not_le. lra. }
      rewrite E4, E5. simpl.
      split; [discriminate |].
      destruct (Qle_bool 200 c && Qltb c 300), (Qle_bool 300 c && Qltb c 400);
        intros [C | C]; discriminate C.
    + assert (E4 : Qle_bool 400 c = true) by now apply Qle_bool_iff.
      assert (E2 : Qltb c 300 = false) by (apply Qltb_ge; lra).
      assert (E3 : Qltb c 400 = false) by now apply Qltb_ge.
      rewrite E4, E2, E3, !andb_false_r. simpl.
      split; [intros _ | reflexivity].
      destruct (Qltb c 500) eqn:E5; [now left |].
      apply Qltb_ge in E5. apply Qle_bool_iff in E5. rewrite E5. now right.
  - simpl. split; [discriminate | intros [C | C]; discriminate C].
Qed.

(** Every bar of the chart of methods has a colour, and two bars have the
    same colour exactly when their positions differ by a multiple of 4. *)
Theorem cell_fill_cycles (i j : nat) :
  (exists c, cell_fill i = Some c /\ In c COLORS)
  /\ (cell_fill i = cell_fill j <-> i mod 4 = j mod 4).
Proof.
  unfold cell_fill. change (length COLORS) with 4%nat.
  pose proof (Nat.mod_upper_bound i 4) as Hi.
  pose proof (Nat.mod_upper_bound j 4) as Hj.
  destruct (i mod 4) as [| [| [| [| a]]]]; [| | | | lia];
    (split; [eexists; split; [reflexivity | simpl; tauto] |]);
    destruct (j mod 4) as [| [| [| [| b]]]]; try lia;
    (split; [intros E; try reflexivity; discriminate E
            | intros E; try reflexivity; discriminate E]).
Qed.

End CardFacts.

(** ** The chart of latencies, the table and the sort on short and on sorted input *)

Module ViewFacts.
Import JS Types Dashboard NumberFacts FormatFacts SliceFacts SortFacts.

Lemma last_n_all {A} (n : nat) (a : list A) :
  (length a <= n)%nat -> Spec.last_n n a = a.
Proof.
  intros H. unfold Spec.last_n. replace (length a - n)%nat with 0%nat by lia. reflexivity.
Qed.

Lemma Array_map_from_length {A B} (f : A -> nat -> B) (a : list A) (i : nat) :
  length (Array_map_from i f a) = length a.
Proof.
  revert i. induction a as [| x a IH]; intros i; simpl; [reflexivity | now rewrite IH].
Qed.

Section Chart.

Variable toLocaleTimeString : Q -> string.

(** With 30 records or fewer, none at all included, the chart has a point
    for every record, in the order of the records: numbered from 0, with
    the response time rounded to 2 decimals and the time or the empty
    string. *)
Theorem latencyData_charts_all (metrics : list MetricData) :
  (length metrics <= 30)%nat ->
  length (latencyData toLocaleTimeString metrics) = length metrics
  /\ map LatencyPoint.name (latencyData toLocaleTimeString metrics)
     = seq 0 (length metrics)
  /\ Forall2
       (fun point m =>
          (exists q, LatencyPoint.ms point = Some q
                     /\ (q == Spec.round_to 2 (Spec.latency m))%Q)
          /\ LatencyPoint.time point
             = if truthy_number (timestampMs m)
               then toLocaleTimeString (Spec.timestamp m)
               else "")
       (latencyData toLocaleTimeString metrics) metrics.
Proof.
  intros Hlen. unfold latencyData, Array_map.
  change (Array_slice (-30) metrics) with (Array_slice (- Z.of_nat 30) metrics).
  rewrite (Array_slice_last 30 metrics), (last_n_all 30 metrics Hlen) by lia.
  split; [apply Array_map_from_length |]. split.
  - now apply Array_map_from_names.
  - apply Array_map_from_each. intros m k. simpl. split; [| reflexivity].
    destruct (parseFloat_toFixed 2 (or_zero (responseTimeMs m))) as (q & Hq & Eq);
      [discriminate |].
    exists q. split; assumption.
Qed.

(** The chart never has more than 30 points. *)
Lemma latencyData_length (metrics : list MetricData) :
  length (latencyData toLocaleTimeString metrics) = Nat.min 30 (length metrics).
Proof.
  unfold latencyData, Array_map. rewrite Array_map_from_length.
  change (Array_slice (-30) metrics) with (Array_slice (- Z.of_nat 30) metrics).
  rewrite (Array_slice_last 30 metrics) by lia.
  unfold Spec.last_n. rewrite length_skipn. lia.
Qed.

End Chart.

Lemma latencyData_charts_all_witness :
  (length [Samples.metric None (Some (12345 # 1000)) None (Some 0%Q);
           Samples.metric None None None (Some 1000%Q)] <= 30)%nat
  /\ length (latencyData Samples.clock_utc
               [Samples.metric None (Some (12345 # 1000)) None (Some 0%Q);
                Samples.metric None None None (Some 1000%Q)]) = 2%nat.
Proof.
  split.
  - simpl. lia.
  - apply (latencyData_charts_all Samples.clock_utc
             [Samples.metric None (Some (12345 # 1000)) None (Some 0%Q);
              Samples.metric None None None (Some 1000%Q)]).
    simpl. lia.
Defined.

(** The table has a row for each of the last records, 10 at most and the
    newest first; with 10 records or fewer these are all the records; and
    the row "No metrics found" is there exactly when there is no other
    row. *)
Theorem recentLog_rows (metrics : list MetricData) :
  length (recentLog metrics) = Nat.min 10 (length metrics)
  /\ (no_metrics_row metrics = true <-> recentLog metrics = [])
  /\ ((length metrics <= 10)%nat -> recentLog metrics = rev metrics).
Proof.
  assert (E : recentLog metrics = rev (Spec.last_n 10 metrics)).
  { unfold recentLog, Array_reverse.
    change (Array_slice (-10) metrics) with (Array_slice (- Z.of_nat 10) metrics).
    now rewrite (Array_slice_last 10 metrics) by lia. }
  assert (L : length (recentLog metrics) = Nat.min 10 (length metrics)).
  { rewrite E, length_rev. unfold Spec.last_n. rewrite length_skipn. lia. }
  split; [exact L |]. split.
  - unfold no_metrics_row. rewrite Nat.eqb_eq. split.
    + intros Z0. apply length_zero_iff_nil. rewrite L, Z0. reflexivity.
    + intros N. rewrite N in L. cbn [length] in L. lia.
  - intros H. now rewrite E, (last_n_all 10 metrics H).
Qed.

(** An array that is in order already is left as it is by the sort. *)
Lemma Array_sort_ordered {A} (key : A -> Q) (l : list A) :
  StronglySorted (fun a b => key a <= key b)%Q l ->
  Array_sort (fun a b => key a - key b)%Q l = l.
Proof.
  induction 1 as [| x l Hl IH Hx]; [reflexivity |].
  cbn [Array_sort fold_right].
  change (fold_right (sort_insert (fun a b => key a - key b)%Q) [] l)
    with (Array_sort (fun a b => key a - key b)%Q l).
  rewrite IH. destruct l as [| y l]; [reflexivity |].
  cbn [sort_insert]. destruct (Qltb 0 (key x - key y)) eqn:E; [| reflexivity].
  apply (after_iff key) in E. inversion Hx as [| ? ? Hxy _]; subst.
  exfalso. apply (Qlt_irrefl (key y)). now apply Qlt_le_trans with (key x).
Qed.

(** When the server lists the records in ascending order of their time
    stamps, [fetchData] keeps that very order, and sorting what it kept
    once more changes nothing. *)
Theorem metricsArray_keeps_order (M : MetricsResponse) :
  StronglySorted Spec.ascending (Object_values M) ->
  metricsArray M = Object_values M.
Proof.
  intros H. unfold metricsArray. now apply (Array_sort_ordered Spec.timestamp).
Qed.

Lemma metricsArray_keeps_order_witness :
  StronglySorted Spec.ascending
    (Object_values [("-Na", Samples.metric None None None None);
                    ("-Nb", Samples.metric None None None (Some 20%Q));
                    ("-Nc", Samples.metric (Some "GET") None None (Some 20%Q))])
  /\ metricsArray [("-Na", Samples.metric None None None None);
                   ("-Nb", Samples.metric None None None (Some 20%Q));
                   ("-Nc", Samples.metric (Some "GET") None None (Some 20%Q))]
     = Object_values [("-Na", Samples.metric None None None None);
                      ("-Nb", Samples.metric None None None (Some 20%Q));
                      ("-Nc", Samples.metric (Some "GET") None None (Some 20%Q))].
Proof.
  assert (H : StronglySorted Spec.ascending
                (Object_values [("-Na", Samples.metric None None None None);
                                ("-Nb", Samples.metric None None None (Some 20%Q));
                                ("-Nc", Samples.metric (Some "GET") None None (Some 20%Q))])).
  { repeat (constructor; [| repeat constructor; vm_compute; discriminate]). constructor. }
  split; [exact H | exact (metricsArray_keeps_order _ H)].
Defined.

Lemma Array_sort_twice (M : MetricsResponse) :
  Array_sort (fun a b => Spec.timestamp a - Spec.timestamp b)%Q (metricsArray M)
  = metricsArray M.
Proof.
  apply (Array_sort_ordered Spec.timestamp). apply (Array_sort_sorted Spec.timestamp).
Qed.

End ViewFacts.

(** ** The chart of methods: what is counted and what is not *)

Module CountFacts.
Import JS Types Dashboard ObjectFacts MethodFacts.

Lemma occurrences_cons (k x : string) (l : list string) :
  Spec.occurrences k (x :: l)
  = ((if String.eqb k x then 1 else 0) + Spec.occurrences k l)%nat.
Proof.
  unfold Spec.occurrences. simpl. now destruct (String.eqb k x).
Qed.

(** Among keys that are all different, a key is found once. *)
Lemma found_once (x : string) (keys : list string) :
  List.NoDup keys -> In x keys ->
  list_sum (map (fun k => if String.eqb k x then 1 else 0)%nat keys) = 1%nat.
Proof.
  induction keys as [| k keys IH]; intros N H; [destruct H |].
  apply NoDup_cons_iff in N. destruct N as [Nk N]. simpl.
  destruct (String.eqb_spec k x) as [-> | D].
  - assert (Z0 : list_sum (map (fun k => if String.eqb k x then 1 else 0)%nat keys) = 0%nat).
    { clear IH N H. induction keys as [| y keys IHk]; [reflexivity |]. simpl.
      destruct (String.eqb_spec y x) as [-> | _].
      - exfalso. apply Nk. now left.
      - apply IHk. intros C. apply Nk. now right. }
    now rewrite Z0.
  - destruct H as [-> | H]; [contradiction | now apply IH].
Qed.

(** Counting every label under its key counts every label. *)
Lemma occurrences_total (keys labels : list string) :
  List.NoDup keys -> (forall x, In x labels -> In x keys) ->
  list_sum (map (fun k => Spec.occurrences k labels) keys) = length labels.
Proof.
  intros N. induction labels as [| x labels IH]; intros H.
  - induction keys as [| k keys IHk]; [reflexivity |]. simpl.
    apply NoDup_cons_iff in N. now rewrite IHk.
  - assert (S1 : forall ks,
              list_sum (map (fun k => Spec.occurrences k (x :: labels)) ks)
              = (list_sum (map (fun k => if String.eqb k x then 1 else 0)%nat ks)
                 + list_sum (map (fun k => Spec.occurrences k labels) ks))%nat).
    { induction ks as [| k ks IHk]; [reflexivity |]. simpl.
      rewrite IHk, occurrences_cons. lia. }
    rewrite S1, (found_once x keys N) by (apply H; now left).
    rewrite IH by (intros y Hy; apply H; now right). reflexivity.
Qed.

Lemma sum_of_counts (f : string -> nat) (keys : list string) :
  (Spec.sum (map (fun k => inject_Z (Z.of_nat (f k))) keys)
   == inject_Z (Z.of_nat (list_sum (map f keys))))%Q.
Proof.
  induction keys as [| k keys IH]; [reflexivity |]. simpl.
  rewrite IH, Nat2Z.inj_add, inject_Z_plus. reflexivity.
Qed.

(** Every record is counted, and once: the numbers of the chart add up to
    the number of records, as long as no label is the name of a property of
    [Object.prototype]. *)
Theorem methodData_counts_every_record (metrics : list MetricData) :
  Forall (fun m => on_Object_prototype (method_label m) = false) metrics ->
  Forall (fun e => exists q, count_of e = Some q) (methodData metrics)
  /\ (Spec.sum (map (fun e => default 0%Q (count_of e)) (methodData metrics))
      == inject_Z (Z.of_nat (length metrics)))%Q.
Proof.
  intros Hall.
  pose proof (tally_loop metrics [] [] Hall tally_empty) as T. simpl app in T.
  set (labels := map method_label metrics) in *.
  set (counts := fold_left
                   (fun counts m =>
                      let method := method_label m in
                      Set_ counts method (plus_one (value_or_zero (Get counts method))))
                   metrics []) in *.
  assert (Hkeys : forall x, In x labels -> In x (map fst counts)).
  { intros x Hx. now apply (tally_keys labels counts x T). }
  destruct T as (indices & others & _ & _ & _ & _ & Hnodup & Hvals).
  assert (E : methodData metrics = map (Spec.method_count labels) (map fst counts)).
  { unfold methodData, Object_entries. fold counts. now apply tally_entries. }
  rewrite E. split.
  - apply List.Forall_forall. intros e He. apply in_map_iff in He.
    destruct He as (k & <- & _). eexists. reflexivity.
  - rewrite map_map.
    change (map (fun k => default 0%Q (count_of (Spec.method_count labels k)))
              (map fst counts))
      with (map (fun k => inject_Z (Z.of_nat (Spec.occurrences k labels)))
              (map fst counts)).
    rewrite (sum_of_counts (fun k => Spec.occurrences k labels)).
    rewrite (occurrences_total _ _ Hnodup Hkeys). unfold labels.
    now rewrite length_map.
Qed.

Lemma methodData_counts_every_record_witness :
  Forall (fun m => on_Object_prototype (method_label m) = false)
    (map (fun m => Samples.metric m None None None)
       [Some "GET"; Some "7"; Some "POST"; None; Some "GET"; Some ""])
  /\ (Spec.sum (map (fun e => default 0%Q (count_of e))
                  (methodData (map (fun m => Samples.metric m None None None)
                                 [Some "GET"; Some "7"; Some "POST"; None;
                                  Some "GET"; Some ""])))
      == 6)%Q.
Proof.
  assert (H : Forall (fun m => on_Object_prototype (method_label m) = false)
                (map (fun m => Samples.metric m None None None)
                   [Some "GET"; Some "7"; Some "POST"; None; Some "GET"; Some ""])).
  { repeat (constructor; [vm_compute; reflexivity |]). constructor. }
  split; [exact H |].
  exact (proj2 (methodData_counts_every_record _ H)).
Defined.

Lemma own_insert_index_keys {V} (n : Z) (k : string) (v : V) (o : list (string * V)) :
  Permutation (map fst (own_insert_index n k v o)) (k :: map fst o).
Proof.
  induction o as [| [k' v'] o IH]; simpl; [reflexivity |].
  destruct (array_index k') as [n' |]; [| reflexivity].
  destruct (n' <? n)%Z; [| reflexivity].
  simpl. rewrite IH. apply perm_swap.
Qed.

(** [counts] never gets a property of its own under the name [__proto__]. *)
Lemma Set_keeps_proto (o : list (string * JS.value)) (k : string) (v : JS.value) :
  own_get "__proto__" o = None -> own_get "__proto__" (Set_ o k v) = None.
Proof.
  intros H. unfold Set_, own_define.
  destruct (String.eqb_spec k "__proto__") as [-> | D].
  - now rewrite H.
  - assert (Hdefine : own_get "__proto__"
                        match array_index k with
                        | Some n => own_insert_index n k v o
                        | None => o ++ [(k, v)]
                        end = None).
    { destruct (array_index k) as [n |].
      - apply own_get_None. rewrite (own_insert_index_keys n k v o).
        apply own_get_None in H. intros [C | C]; [congruence | contradiction].
      - rewrite own_get_app, H. cbn [own_get].
        destruct (String.eqb_spec "__proto__" k); [congruence | reflexivity]. }
    destruct (own_get k o) eqn:G; [| exact Hdefine].
    rewrite own_get_update.
    destruct (String.eqb_spec "__proto__" k); [congruence | exact H].
Qed.

Lemma proto_loop (metrics : list MetricData) (o : list (string * JS.value)) :
  own_get "__proto__" o = None ->
  fold_left
    (fun counts m =>
       let method := method_label m in
       Set_ counts method (plus_one (value_or_zero (Get counts method))))
    metrics o
  = fold_left
      (fun counts m =>
         let method := method_label m in
         Set_ counts method (plus_one (value_or_zero (Get counts method))))
      (List.filter (fun m => negb (String.eqb (method_label m) "__proto__")) metrics) o.
Proof.
  revert o. induction metrics as [| m metrics IH]; intros o H; [reflexivity |].
  cbn [fold_left List.filter].
  destruct (String.eqb_spec (method_label m) "__proto__") as [E | D]; cbn [negb].
  - rewrite E. unfold Set_ at 2. rewrite H, String.eqb_refl.
    now apply IH.
  - cbn [fold_left]. apply IH. now apply Set_keeps_proto.
Qed.

(** A record whose method is [__proto__] is in no bar of the chart: the
    chart is that of the other records. *)
Theorem methodData_skips_proto (metrics : list MetricData) :
  methodData metrics
  = methodData
      (List.filter (fun m => negb (String.eqb (method_label m) "__proto__")) metrics).
Proof.
  unfold methodData. f_equal. unfold Object_entries.
  now apply proto_loop.
Qed.

End CountFacts.

(** ** The session from login to logout *)

Module GatewayFacts.
Import JS Types Api SessionFacts.

(** An accepted login is shown at once: [App] holds the token and goes
    from the login form to the dashboard, under the e-mail of the answer;
    any other answer leaves [App] on the form. *)
Theorem submit_shows (answer : Outcome AuthResponse) (form : Login.State)
        (s : App.State) (w : World) :
  App.initializing s = false ->
  App.render s = App.LoginScreen ->
  App.render (snd (fst (App.submit answer form s w)))
  = match answer with
    | Fulfilled data =>
        if ok data && truthy_string (token data)
        then App.DashboardScreen (email data)
        else App.LoginScreen
    | Rejected _ => App.LoginScreen
    end.
Proof.
  intros Hinit Hlogin. unfold App.submit, bind.
  destruct answer as [data | err].
  - destruct (ok data && truthy_string (token data)) eqn:Guard.
    + destruct (handleSubmit_accepted data form w Guard) as (r & ->). cbn [fst snd].
      unfold App.handleLoginSuccess, bind, ret, getItem. cbn [fst snd localStorage].
      rewrite lookup_insert_ne by discriminate. rewrite lookup_insert_eq.
      apply andb_prop in Guard. destruct Guard as [_ Htoken].
      apply truthy_string_iff in Htoken. destruct Htoken as (t & Et & Nt).
      rewrite Et. cbn [default]. cbv beta delta [id]. unfold App.render. cbn [App.initializing App.token].
      rewrite Hinit. cbn [App.userEmail].
      assert (T : truthy_string (Some t) = true) by (apply truthy_string_iff; eauto).
      now rewrite T.
    + destruct (handleSubmit_refused data form w Guard) as (r & ->). exact Hlogin.
  - destruct (handleSubmit_rejected err form w) as (r & ->). exact Hlogin.
Qed.

Lemma submit_shows_witness :
  App.initializing (fst (App.useEffect App.initial
                           {| localStorage := ∅; trace := [] |})) = false
  /\ App.render (snd (fst (App.submit (Fulfilled Samples.accepted) Samples.form
                            (fst (App.useEffect App.initial
                                    {| localStorage := ∅; trace := [] |}))
                            {| localStorage := ∅; trace := [] |})))
     = App.DashboardScreen (Some "admin@delibery.com").
Proof.
  split; [reflexivity |].
  exact (submit_shows (Fulfilled Samples.accepted) Samples.form
           (fst (App.useEffect App.initial {| localStorage := ∅; trace := [] |}))
           {| localStorage := ∅; trace := [] |} eq_refl eq_refl).
Defined.

(** What an accepted login stores is what a start of the application
    finds: the token and the e-mail of the answer, whatever session was
    stored before. *)
Theorem login_resumes (data : AuthResponse) (form : Login.State) (w : World)
        (t e : string) :
  ok data = true -> token data = Some t -> t <> "" ->
  email data = Some e -> e <> "" ->
  fst (App.currentSession (snd (Login.handleSubmit (Fulfilled data) form w)))
  = Some {| App.session_token := t; App.session_email := e |}.
Proof.
  intros Hok Ht Nt He Ne.
  assert (Tt : truthy_string (Some t) = true) by (apply truthy_string_iff; eauto).
  assert (Te : truthy_string (Some e) = true) by (apply truthy_string_iff; eauto).
  assert (Guard : ok data && truthy_string (token data) = true) by now rewrite Hok, Ht, Tt.
  destruct (handleSubmit_accepted data form w Guard) as (r & ->). cbn [snd].
  rewrite Ht, He. cbn [default ToString]. cbv beta delta [id].
  unfold App.currentSession, App.useEffect, bind, ret, getItem.
  cbn [fst snd localStorage].
  rewrite lookup_insert_ne by discriminate. rewrite !lookup_insert_eq.
  rewrite Tt, Te. cbn -[truthy_string]. rewrite ?Tt. reflexivity.
Qed.

Lemma login_resumes_witness :
  ok Samples.accepted = true
  /\ fst (App.currentSession
            (snd (Login.handleSubmit (Fulfilled Samples.accepted)
                    Samples.form Samples.world)))
     = Some {| App.session_token := "new-token";
               App.session_email := "admin@delibery.com" |}.
Proof.
  split; [reflexivity |].
  apply (login_resumes Samples.accepted Samples.form Samples.world);
    first [reflexivity | discriminate].
Defined.

(** An accepted login whose answer has an empty e-mail is stored, token
    and all, and yet not resumed: the next start of the application shows
    the login form.  An answer without an e-mail is resumed under the
    e-mail "undefined". *)
Theorem login_without_email (data : AuthResponse) (form : Login.State) (w : World)
        (t : string) :
  ok data = true -> token data = Some t -> t <> "" ->
  let w' := snd (Login.handleSubmit (Fulfilled data) form w) in
  localStorage w' !! "delibery_token" = Some t
  /\ (email data = Some "" -> fst (App.currentSession w') = None)
  /\ (email data = None ->
      fst (App.currentSession w')
      = Some {| App.session_token := t; App.session_email := "undefined" |}).
Proof.
  intros Hok Ht Nt.
  assert (Tt : truthy_string (Some t) = true) by (apply truthy_string_iff; eauto).
  assert (Guard : ok data && truthy_string (token data) = true) by now rewrite Hok, Ht, Tt.
  destruct (handleSubmit_accepted data form w Guard) as (r & ->). cbn [snd].
  rewrite Ht. cbn [default localStorage]. cbv beta delta [id].
  split; [| split].
  - rewrite lookup_insert_ne by discriminate. apply lookup_insert_eq.
  - intros He. rewrite He. cbn [ToString default]. cbv beta delta [id].
    unfold App.currentSession, App.useEffect, bind, ret, getItem.
    cbn [fst snd localStorage].
    rewrite lookup_insert_ne by discriminate. rewrite !lookup_insert_eq.
    rewrite Tt. reflexivity.
  - intros He. rewrite He. cbn [ToString default]. cbv beta delta [id].
    unfold App.currentSession, App.useEffect, bind, ret, getItem.
    cbn [fst snd localStorage].
    rewrite lookup_insert_ne by discriminate. rewrite !lookup_insert_eq.
    rewrite Tt. change (truthy_string (Some "undefined")) with true.
    cbn -[truthy_string]. rewrite ?Tt. reflexivity.
Qed.

Lemma login_without_email_witness :
  ok Samples.no_email = true
  /\ fst (App.currentSession
            (snd (Login.handleSubmit (Fulfilled Samples.no_email)
                    Samples.form Samples.world))) = None.
Proof.
  split; [reflexivity |].
  apply (login_without_email Samples.no_email Samples.form Samples.world "new-token");
    first [reflexivity | discriminate].
Defined.

(** After an accepted login the requests of the dashboard carry the new
    token as their bearer. *)
Theorem login_then_bearer (data : AuthResponse) (form : Login.State) (w : World)
        (t : string) (answer : Outcome MetricsResponse) :
  ok data = true -> token data = Some t -> t <> "" ->
  let w' := snd (Login.handleSubmit (Fulfilled data) form w) in
  events_since w' (snd (dataService.getMetrics answer w'))
  = [Sent {| verb := "GET"; url := "/metricas";
             authorization := Some ("Bearer " +:+ t); payload := [] |}].
Proof.
  intros Hok Ht Nt.
  assert (Tt : truthy_string (Some t) = true) by (apply truthy_string_iff; eauto).
  assert (Guard : ok data && truthy_string (token data) = true) by now rewrite Hok, Ht, Tt.
  destruct (handleSubmit_accepted data form w Guard) as (r & ->). cbn [snd].
  unfold dataService.getMetrics, bind, ret. rewrite send_spec. cbn [fst snd localStorage].
  rewrite lookup_insert_ne by discriminate. rewrite lookup_insert_eq.
  rewrite Ht. cbn [default]. cbv beta delta [id]. rewrite Tt. apply events_since_app.
Qed.

Lemma login_then_bearer_witness :
  ok Samples.accepted = true
  /\ events_since
       (snd (Login.handleSubmit (Fulfilled Samples.accepted) Samples.form Samples.world))
       (snd (dataService.getMetrics (Fulfilled [])
               (snd (Login.handleSubmit (Fulfilled Samples.accepted)
                       Samples.form Samples.world))))
     = [Sent {| verb := "GET"; url := "/metricas";
                authorization := Some "Bearer new-token"; payload := [] |}].
Proof.
  split; [reflexivity |].
  apply (login_then_bearer Samples.accepted Samples.form Samples.world "new-token");
    first [reflexivity | discriminate].
Defined.

(** After a logout no request carries a bearer, whatever was stored
    before. *)
Theorem logout_then_no_bearer (verb url : string) (payload : list (string * string))
        (w : World) :
  let w' := snd (authService.logout w) in
  events_since w' (snd (send verb url payload w'))
  = [Sent {| Api.verb := verb; Api.url := url; authorization := None;
             Api.payload := payload |}].
Proof.
  cbv zeta. rewrite send_spec. cbn [snd].
  assert (E : localStorage (snd (authService.logout w)) !! "delibery_token" = None).
  { unfold authService.logout, bind, removeItem. cbn.
    rewrite lookup_delete_ne by discriminate. apply lookup_delete_eq. }
  rewrite E. cbn [truthy_string]. apply events_since_app.
Qed.

(** Whatever the answer, a submit of the form sends the credentials once,
    to [/login] and nowhere else, leaves the fields of the form as they
    are and ends with the button enabled again. *)
Theorem handleSubmit_sends_once (answer : Outcome AuthResponse) (form : Login.State)
        (w : World) :
  let result := Login.handleSubmit answer form w in
  (exists r rest,
      events_since w (snd result) = Sent r :: rest
      /\ verb r = "POST" /\ url r = "/login"
      /\ payload r = [("email", Login.email form); ("password", Login.password form)]
      /\ Forall (fun e => forall q, e <> Sent q) rest)
  /\ Login.loading (fst (fst result)) = false
  /\ Login.email (fst (fst result)) = Login.email form
  /\ Login.password (fst (fst result)) = Login.password form.
Proof.
  cbv zeta.
  destruct answer as [data | err].
  - destruct (ok data && truthy_string (token data)) eqn:Guard.
    + destruct (handleSubmit_accepted data form w Guard) as (r & E).
      pose proof E as E'. unfold Login.handleSubmit, authService.login, bind, ret in E'.
      rewrite send_spec in E'. cbn [fst snd] in E'. rewrite Guard in E'.
      unfold setItem in E'. cbn in E'. rewrite <- !app_assoc in E'.
      inversion E' as [Er]. apply app_inv_head in Er. inversion Er as [Hr].
      rewrite E. cbn [fst snd]. rewrite events_since_app.
      split; [| repeat split].
      eexists _, _. split; [reflexivity |]. rewrite <- Hr. cbn.
      repeat split. repeat constructor; intros q C; discriminate C.
    + destruct (handleSubmit_refused data form w Guard) as (r & E).
      pose proof E as E'. unfold Login.handleSubmit, authService.login, bind, ret in E'.
      rewrite send_spec in E'. cbn [fst snd] in E'. rewrite Guard in E'.
      cbn in E'. inversion E' as [Er]. apply app_inv_head in Er. inversion Er as [Hr].
      rewrite E. cbn [fst snd]. rewrite events_since_app.
      split; [| repeat split].
      eexists _, _. split; [reflexivity |]. rewrite <- Hr. cbn.
      repeat split. constructor.
  - destruct (handleSubmit_rejected err form w) as (r & E).
    pose proof E as E'. unfold Login.handleSubmit, authService.login, bind, ret in E'.
    rewrite send_spec in E'. cbn in E'.
    inversion E' as [Er]. apply app_inv_head in Er. inversion Er as [Hr].
    rewrite E. cbn [fst snd]. rewrite events_since_app.
    split; [| repeat split].
    eexists _, _. split; [reflexivity |]. rewrite <- Hr. cbn.
    repeat split. constructor.
Qed.

End GatewayFacts.

(** ** The fetches of the dashboard *)

Module FetchFacts.
Import JS Types Api Dashboard DashboardData SessionFacts SortFacts.

Lemma fetchData_world (now : Q) (answer : Outcome MetricsResponse) (s : State) (w : World) :
  exists r,
    url r = "/metricas" /\ verb r = "GET"
    /\ snd (fetchData now answer s w)
       = {| localStorage := localStorage w; trace := trace w ++ [Sent r] |}.
Proof.
  eexists. split; [| split]; [| | unfold fetchData, dataService.getMetrics, bind, ret;
                                  rewrite send_spec; reflexivity]; reflexivity.
Qed.

Lemma fetchData_metrics (now : Q) (answer : Outcome MetricsResponse) (s : State) (w : World) :
  metrics (fst (fetchData now answer s w))
  = match answer with
    | Fulfilled data => metricsArray data
    | Rejected _ => metrics s
    end.
Proof. destruct answer; reflexivity. Qed.

(** After any fetches the dashboard shows the answer of the last one that
    succeeded, sorted, and nothing of the answers before it; fetches that
    fail leave what is shown, and when none has succeeded nothing is
    shown. *)
Theorem fetches_show_last_answer (answers : list (Q * Outcome MetricsResponse))
        (s : State) (w : World) :
  metrics (fst (fetches answers s w))
  = match last_fulfilled answers with
    | Some data => metricsArray data
    | None => metrics s
    end.
Proof.
  revert s w. induction answers as [| [now answer] answers IH]; intros s w; [reflexivity |].
  cbn [fetches last_fulfilled]. unfold bind.
  destruct (fetchData now answer s w) as [s' w'] eqn:E.
  rewrite IH. destruct (last_fulfilled answers) as [data |]; [reflexivity |].
  replace s' with (fst (fetchData now answer s w)) by now rewrite E.
  rewrite fetchData_metrics. now destruct answer.
Qed.

(** Metrics in order stay in order through any fetches, those that fail
    included: the views never get them out of order. *)
Theorem fetches_keep_sorted (answers : list (Q * Outcome MetricsResponse))
        (s : State) (w : World) :
  StronglySorted Spec.ascending (metrics s) ->
  StronglySorted Spec.ascending (metrics (fst (fetches answers s w))).
Proof.
  revert s w. induction answers as [| [now answer] answers IH]; intros s w Hs; [exact Hs |].
  cbn [fetches]. unfold bind.
  pose proof (fetchData_sorted now answer s w Hs) as Hs'.
  destruct (fetchData now answer s w) as [s' w']. now apply IH.
Qed.

Lemma fetches_keep_sorted_witness :
  StronglySorted Spec.ascending
    (metrics (fst (fetches [(5%Q, Rejected Samples.unreachable);
                            (9%Q, Fulfilled [("b", Samples.metric None None None (Some 7%Q));
                                           ("a", Samples.metric None None None (Some 3%Q))])]
                           initial Samples.world))).
Proof. apply (fetches_keep_sorted _ initial Samples.world). constructor. Defined.

Lemma fetches_world (answers : list (Q * Outcome MetricsResponse)) (s : State) (w : World) :
  exists requests,
    snd (fetches answers s w)
    = {| localStorage := localStorage w; trace := trace w ++ map Sent requests |}
    /\ length requests = length answers
    /\ Forall (fun r => url r = "/metricas" /\ verb r = "GET") requests.
Proof.
  revert s w. induction answers as [| [now answer] answers IH]; intros s w.
  - exists []. cbn [fetches ret snd map length]. rewrite app_nil_r.
    destruct w. repeat split. constructor.
  - cbn [fetches]. unfold bind.
    destruct (fetchData_world now answer s w) as (r & Hurl & Hverb & Ew).
    destruct (fetchData now answer s w) as [s' w']. cbn [snd] in Ew. subst w'.
    destruct (IH s' {| localStorage := localStorage w; trace := trace w ++ [Sent r] |})
      as (requests & Ew & Hlen & Hall).
    exists (r :: requests). rewrite Ew. cbn [localStorage trace map length].
    rewrite <- app_assoc. split; [reflexivity |]. split; [now rewrite Hlen |]. constructor; [now split | exact Hall].
Qed.

(** A fetch only asks: each one sends one request for the metrics and
    writes nothing to the storage. *)
Theorem fetches_only_ask (answers : list (Q * Outcome MetricsResponse))
        (s : State) (w : World) :
  localStorage (snd (fetches answers s w)) = localStorage w
  /\ exists requests,
       events_since w (snd (fetches answers s w)) = map Sent requests
       /\ length requests = length answers
       /\ Forall (fun r => url r = "/metricas" /\ verb r = "GET") requests.
Proof.
  destruct (fetches_world answers s w) as (requests & Ew & Hlen & Hall).
  rewrite Ew. split; [reflexivity |].
  exists requests. rewrite events_since_app. now repeat split.
Qed.

End FetchFacts.

(** ** The "Test Traffic" button *)

Module ButtonFacts.
Import JS Types Api Traffic SessionFacts TrafficFacts.

Lemma refetches_app (h : Host) (now : Z) (o : Observation)
      (c : Z) (u : list nat) (r : Run) (w : World) :
  refetches {| clock := c; unanswered := u; run := r; world := w;
               history := history h ++ [(now, o)] |}
  = (refetches h + if requested "/metricas" o then 1 else 0)%nat.
Proof.
  unfold refetches. cbn [history]. rewrite map_app, List.filter_app, length_app.
  cbn [map snd List.filter]. now destruct (requested "/metricas" o).
Qed.

(** What every input the host delivers keeps: the flag [simulating] is set
    while the run waits, the metrics have been asked for once when the
    timer's callback has run and not before, and the storage is as it
    was. *)
Lemma deliver_steady (dt : Z) (i : Input) (h h' : Host) :
  deliver dt i h = Some h' ->
  simulating (run h) = waiting (run h) ->
  refetches h = match phase (run h) with Refetched => 1%nat | _ => 0%nat end ->
  simulating (run h') = waiting (run h')
  /\ refetches h' = match phase (run h') with Refetched => 1%nat | _ => 0%nat end
  /\ localStorage (world h') = localStorage (world h).
Proof.
  unfold deliver. intros Hd Hflag Hcount.
  destruct (Z.ltb_spec dt 0) as [| Hdt]; [discriminate |].
  destruct i as [i fulfilled |].
  - destruct (existsb (Nat.eqb i) (unanswered h)); [| discriminate].
    inversion Hd; subst h'; clear Hd. rewrite refetches_app. cbn [requested run world].
    rewrite Hcount, Nat.add_0_r. revert Hflag. unfold settled, waiting.
    destruct (phase (run h)) as [remaining | deadline | |] eqn:Hph; intros Hflag;
      try (rewrite Hph; now repeat split).
    destruct fulfilled; [destruct (remaining =? 1)%nat |]; cbn [phase simulating];
      now repeat split.
  - destruct (phase (run h)) as [| deadline | |] eqn:Hph; try discriminate.
    destruct (deadline <=? clock h + dt)%Z; [| discriminate].
    destruct (timer_callback_spec (run h) (world h)) as (q & Hq & E).
    rewrite E in Hd. rewrite events_since_app in Hd.
    inversion Hd; subst h'; clear Hd. cbn [map]. rewrite refetches_app.
    cbn [requested run world localStorage phase simulating]. rewrite Hq, Hcount.
    now repeat split.
Qed.

Lemma execute_steady (schedule : list (Z * Input)) (h h' : Host) :
  execute schedule h = Some h' ->
  simulating (run h) = waiting (run h) ->
  refetches h = match phase (run h) with Refetched => 1%nat | _ => 0%nat end ->
  simulating (run h') = waiting (run h')
  /\ refetches h' = match phase (run h') with Refetched => 1%nat | _ => 0%nat end
  /\ localStorage (world h') = localStorage (world h).
Proof.
  revert h. induction schedule as [| [dt i] schedule IH]; intros h Hex Hflag Hcount;
    simpl in Hex.
  - inversion Hex; subst. now repeat split.
  - destruct (deliver dt i h) as [h1 |] eqn:Hd; [| discriminate].
    destruct (deliver_steady dt i h h1 Hd Hflag Hcount) as (Hflag1 & Hcount1 & Hls1).
    destruct (IH h1 Hex Hflag1 Hcount1) as (Hflag' & Hcount' & Hls').
    repeat split; [assumption | assumption | congruence].
Qed.

Lemma click_steady (now : Z) (w : World) :
  simulating (run (click now w)) = waiting (run (click now w))
  /\ refetches (click now w) = 0%nat
  /\ localStorage (world (click now w)) = localStorage w.
Proof.
  destruct (click_history now w) as (r & _ & Hurl & Hh & _ & Hr & _).
  rewrite Hr. split; [reflexivity |]. split.
  - unfold refetches. rewrite Hh. cbn [map snd List.filter requested]. now rewrite Hurl.
  - unfold click, handleSimulateTraffic, dataService.simulateGetOrders, bind, ret.
    rewrite send_spec. cbn [fst snd]. rewrite send_spec. cbn [fst snd localStorage].
    rewrite send_spec. reflexivity.
Qed.

(** The button is disabled, and reads "Generating...", from the click until
    the run is over: while the three answers or the timer are waited for,
    and neither after the callback of the timer nor after a failure. *)
Theorem button_disabled_while_waiting (now : Z) (w : World)
        (schedule : list (Z * Input)) (h : Host) :
  execute schedule (click now w) = Some h ->
  simulating (run h) = waiting (run h).
Proof.
  intros Hex. destruct (click_steady now w) as (Hflag & Hcount & _).
  apply (execute_steady schedule (click now w) h Hex Hflag).
  rewrite Hcount. now destruct (click_history now w) as (_ & _ & _ & _ & _ & -> & _).
Qed.

Lemma button_disabled_while_waiting_witness :
  exists h,
    execute [(10, Answer 1 true); (5, Answer 0 true); (100, Answer 2 true)]%Z
      (click 1000 Samples.world) = Some h
    /\ phase (run h) = Delaying 2615
    /\ simulating (run h) = waiting (run h).
Proof.
  eexists. split; [vm_compute; reflexivity |]. split; [reflexivity |].
  apply (button_disabled_while_waiting 1000 Samples.world
           [(10, Answer 1 true); (5, Answer 0 true); (100, Answer 2 true)]%Z).
  vm_compute. reflexivity.
Defined.

(** One click fetches the metrics at most once: once when the callback of
    the timer has run, and not at all before or after a failure. *)
Theorem click_refetches_once (now : Z) (w : World)
        (schedule : list (Z * Input)) (h : Host) :
  execute schedule (click now w) = Some h ->
  refetches h = match phase (run h) with Refetched => 1%nat | _ => 0%nat end.
Proof.
  intros Hex. destruct (click_steady now w) as (Hflag & Hcount & _).
  apply (execute_steady schedule (click now w) h Hex Hflag).
  rewrite Hcount. now destruct (click_history now w) as (_ & _ & _ & _ & _ & -> & _).
Qed.

Lemma click_refetches_once_witness :
  exists h,
    execute [(10, Answer 1 true); (5, Answer 0 true); (100, Answer 2 true); (1500, Timer)]%Z
      (click 1000 Samples.world) = Some h
    /\ phase (run h) = Refetched
    /\ refetches h = 1%nat.
Proof.
  eexists. split; [vm_compute; reflexivity |]. split; [reflexivity |].
  apply (click_refetches_once 1000 Samples.world
           [(10, Answer 1 true); (5, Answer 0 true); (100, Answer 2 true); (1500, Timer)]%Z).
  vm_compute. reflexivity.
Defined.

(** A test of the traffic writes nothing to the storage: the session is
    the same after it, however it ends. *)
Theorem traffic_keeps_storage (now : Z) (w : World)
        (schedule : list (Z * Input)) (h : Host) :
  execute schedule (click now w) = Some h ->
  localStorage (world h) = localStorage w.
Proof.
  intros Hex. destruct (click_steady now w) as (Hflag & Hcount & Hls).
  rewrite <- Hls.
  apply (execute_steady schedule (click now w) h Hex Hflag).
  rewrite Hcount. now destruct (click_history now w) as (_ & _ & _ & _ & _ & -> & _).
Qed.

Lemma traffic_keeps_storage_witness :
  exists h,
    execute [(10, Answer 1 true); (5, Answer 0 false)]%Z (click 1000 Samples.world) = Some h
    /\ localStorage (world h) = localStorage Samples.world.
Proof.
  eexists. split; [vm_compute; reflexivity |].
  apply (traffic_keeps_storage 1000 Samples.world [(10, Answer 1 true); (5, Answer 0 false)]%Z).
  vm_compute. reflexivity.
Defined.

(** When the three requests are answered well, in whatever order, the run
    does come to the re-fetch: a timer that fires 1500 ms or more after the
    last answer runs the callback, and the button is enabled again. *)
Theorem answers_lead_to_refetch (now : Z) (w : World) (i j k : nat) (d1 d2 d3 d4 : Z) :
  (i < 3)%nat -> (j < 3)%nat -> (k < 3)%nat -> i <> j -> i <> k -> j <> k ->
  (0 <= d1)%Z -> (0 <= d2)%Z -> (0 <= d3)%Z -> (1500 <= d4)%Z ->
  exists h,
    execute [(d1, Answer i true); (d2, Answer j true); (d3, Answer k true); (d4, Timer)]
      (click now w) = Some h
    /\ run h = {| simulating := false; phase := Refetched |}
    /\ clock h = (now + d1 + d2 + d3 + d4)%Z
    /\ refetches h = 1%nat.
Proof.
  intros Hi Hj Hk Dij Dik Djk H1 H2 H3 H4.
  assert (Hex : exists h,
             execute [(d1, Answer i true); (d2, Answer j true); (d3, Answer k true);
                      (d4, Timer)] (click now w) = Some h
             /\ run h = {| simulating := false; phase := Refetched |}
             /\ clock h = (now + d1 + d2 + d3 + d4)%Z).
  { destruct (timer_callback_spec
                {| simulating := true; phase := Delaying (now + d1 + d2 + d3 + 1500) |}
                (world (click now w))) as (q & _ & Eq).
    unfold execute, deliver.
    destruct (click_history now w) as (r & _ & _ & _ & Hu & Hr & Hc).
    destruct (click now w) as [c u rn wd hist]. cbn [unanswered run clock world] in *.
    subst c u rn.
    destruct (Z.ltb_spec d1 0); [lia |]. cbn [unanswered run clock world history].
    destruct (Z.ltb_spec d2 0); [lia |].
    destruct (Z.ltb_spec d3 0); [lia |].
    destruct (Z.ltb_spec d4 0); [lia |].
    assert (Hijk : (i, j, k) = (0, 1, 2)%nat \/ (i, j, k) = (0, 2, 1)%nat
                   \/ (i, j, k) = (1, 0, 2)%nat \/ (i, j, k) = (1, 2, 0)%nat
                   \/ (i, j, k) = (2, 0, 1)%nat \/ (i, j, k) = (2, 1, 0)%nat).
    { destruct i as [| [| [|]]], j as [| [| [|]]], k as [| [| [|]]];
        try lia; tauto. }
    destruct Hijk as [E | [E | [E | [E | [E | E]]]]]; inversion E; subst i j k;
      cbn [existsb Nat.eqb Nat.sub orb List.filter negb unanswered run clock world history
           settled phase simulating];
      (destruct (Z.leb_spec (now + d1 + d2 + d3 + 1500) (now + d1 + d2 + d3 + d4));
       [| lia]);
      rewrite Eq; eexists; (split; [reflexivity |]); split; reflexivity. }
  destruct Hex as (h & Hex & Hrun & Hclock).
  exists h. repeat split; try assumption.
  destruct (click_steady now w) as (Hflag & Hcount & _).
  assert (Hph : phase (run (click now w)) = Awaiting 3)
    by now destruct (click_history now w) as (_ & _ & _ & _ & _ & -> & _).
  destruct (execute_steady _ _ h Hex Hflag) as (_ & Hc & _); [now rewrite Hcount, Hph |].
  now rewrite Hc, Hrun.
Qed.

Lemma answers_lead_to_refetch_witness :
  exists h,
    execute [(10, Answer 2 true); (0, Answer 0 true); (7, Answer 1 true); (1500, Timer)]%Z
      (click 1000 Samples.world) = Some h
    /\ run h = {| simulating := false; phase := Refetched |}
    /\ clock h = (1000 + 10 + 0 + 7 + 1500)%Z
    /\ refetches h = 1%nat.
Proof.
  apply (answers_lead_to_refetch 1000 Samples.world 2 0 1 10 0 7 1500); lia.
Defined.

End ButtonFacts.

(** ** The card of the error rate *)

Module AlertFacts.
Import JS Types Dashboard NumberFacts FormatFacts StatsFacts CardFacts.

(** The card "Error Rate" says "Attention needed" only when more than 5
    records in 100 are errors. *)
Theorem attention_means_errors (metrics : list MetricData) :
  trend_text (error_trend (stats metrics)) = "Attention needed" ->
  (5 * length metrics < 100 * length (List.filter is_error metrics))%nat.
Proof.
  intros H.
  destruct metrics as [| m metrics]; [vm_compute in H; discriminate H |].
  assert (Hbad : error_trend (stats (m :: metrics)) = bad).
  { destruct (error_trend (stats (m :: metrics))); [discriminate H | reflexivity |
                                                     discriminate H]. }
  clear H. apply bad_trend in Hbad. destruct Hbad as (e' & He' & E5).
  rewrite stats_errorRate in He'.
  set (k := length (List.filter is_error (m :: metrics))) in *.
  set (l := length (m :: metrics)) in *.
  assert (Hl : (0 < l)%nat) by (unfold l; simpl; lia).
  clearbody k l.
  destruct (parseFloat_toFixed 1 (Spec.float_percentage k l)) as (e & He & Ee);
    [discriminate |].
  rewrite He in He'. inversion He'; subst e'; clear He'.
  destruct (le_lt_dec (100 * k) (5 * l)) as [Hle | Hlt]; [exfalso | exact Hlt].
  apply (Qlt_irrefl 5). apply Qlt_le_trans with e; [exact E5 |].
  rewrite Ee. apply Qle_trans with (Spec.round_to 1 (inject_Z 5)).
  - apply round_to_monotone. now apply float_percentage_5.
  - rewrite round_to_whole by lia. apply Qle_refl.
Qed.

Lemma attention_means_errors_witness :
  trend_text (error_trend (stats [Samples.metric None None (Some 500%Q) None;
                                  Samples.metric None None (Some 200%Q) None]))
  = "Attention needed"
  /\ (5 * 2 < 100 * length (List.filter is_error
                              [Samples.metric None None (Some 500%Q) None;
                               Samples.metric None None (Some 200%Q) None]))%nat.
Proof.
  assert (H : trend_text (error_trend (stats [Samples.metric None None (Some 500%Q) None;
                                              Samples.metric None None (Some 200%Q) None]))
              = "Attention needed")
    by (vm_compute; reflexivity).
  split; [exact H | exact (attention_means_errors _ H)].
Defined.

End AlertFacts.
